(** * libcernvm: parameter store, download provider and context-image builder

    A shallow embedding of
    - [src/ParameterMap.cpp] / [include/CernVM/ParameterMap.h],
    - the [HVSession] constructor of [include/CernVM/Hypervisor.h],
    - [src/DownloadProvider.cpp] (the cURL provider and its abort flags),
    - [src/contextiso.cpp] (the two ISO 9660 image builders),
    followed by the properties established about them.

    Conventions.  A [std::map<const std::string, const std::string>] is a
    [gmap string string]; the properties below only speak about its contents,
    so its iteration order is the one of [map_to_list].  C [int] values are [Z].
    Memory written by [memcpy]/[isosetl] is a log of writes in program order,
    each with its destination offset inside the static [bytes] buffer. *)

From Stdlib Require Import ZArith Lia String Ascii List DecimalString.
From stdpp Require Import gmap strings list fin_maps.

Local Open Scope Z_scope.
Local Set Warnings "-register-all".

(* ===================================================================== *)
(** * Helpers of [CernVM/Utilities.h] *)
(* ===================================================================== *)

Module Utilities.

(** Modelled from the spec: [ntos<T>] of [CernVM/Utilities.h] is not part of
    the sources at hand; the store's numeric accessors are
    "convert-on-read/write" and [fromJSON] stores an integer leaf "as string
    value", i.e. its decimal rendering. *)
Definition ntos (value : Z) : string :=
  NilZero.string_of_int (Z.to_int value).

Definition is_digit (c : ascii) : bool :=
  let n := N_of_ascii c in ((48 <=? n) && (n <=? 57))%N.

Fixpoint ston_digits (acc : Z) (s : string) : Z :=
  match s with
  | String c s' =>
      if is_digit c
      then ston_digits (10 * acc + (Z.of_N (N_of_ascii c) - 48)) s'
      else acc
  | EmptyString => acc
  end.

(** Modelled from the spec: [ston<T>] of [CernVM/Utilities.h], the
    convert-on-read direction: an optional sign followed by the leading
    decimal digits, and 0 when there are none. *)
Definition ston (s : string) : Z :=
  match s with
  | String "-"%char s' => - ston_digits 0 s'
  | _ => ston_digits 0 s
  end.

End Utilities.

(* ===================================================================== *)
(** * JSON values as [fromJSON] inspects them *)
(* ===================================================================== *)

Module Json.

(** [Json::Value], by the type tests [fromJSON] applies: [isObject],
    [isString], [isInt]; every other kind of value fails all three
    ([realValue] is a number [isInt] rejects, its digits play no part).  The
    members of an object are listed in the order of [getMemberNames]. *)
Inductive Value : Type :=
| nullValue
| booleanValue (b : bool)
| intValue (i : Z)
| realValue
| stringValue (s : string)
| arrayValue (items : list Value)
| objectValue (members : list (string * Value)).

End Json.

(* ===================================================================== *)
(** * [ParameterMap] *)
(* ===================================================================== *)

Module ParameterMap.
Import Utilities.

(** [const std::string SAFE_KEY_CHARS] *)
Definition SAFE_KEY_CHARS : string :=
  "0123456789_-abcdefghijklmnopqrstuvwxyzABCDEFGHIJKLMNOPQRSTUVWXYZ".

(** [SAFE_KEY_CHARS.find(c) != std::string::npos] *)
Definition safe_char (c : ascii) : bool :=
  bool_decide (c ∈ list_ascii_of_string SAFE_KEY_CHARS).

(** The per-object fields of a [ParameterMap]: the ones every node owns
    ([prefix], [locked], [changed], [parent]).  The [parameters] pointer is
    shared by the whole hierarchy and lives in [store]. *)
Inductive node : Type :=
  Node { prefix : string; locked : bool; changed : bool; parent : option node }.

(** What the nodes of one hierarchy share, the map behind [parameters], and the calls of
    the virtual [commitChanges] observed so far, oldest first: each entry is
    the prefix of the node the call was made on. *)
Record store : Type :=
  Store { parameters : gmap string string; commits : list string }.

Definition with_parameters (m : gmap string string) (st : store) : store :=
  Store m (commits st).

(** [ParameterMap()] : a new blank root map. *)
Definition instance : node * store :=
  (Node "" false false None, Store ∅ []).

(** [ParameterMap(ParameterDataMapPtr, std::string pfx)] *)
Definition over_map (parametersptr : gmap string string) (pfx : string)
  : node * store :=
  (Node pfx false false None, Store parametersptr []).

(** [ParameterMap(ParameterMapPtr parentptr, std::string pfx)] *)
Definition child_of (parentptr : node) (pfx : string) : node :=
  Node pfx false false (Some parentptr).

Definition set_locked (b : bool) (self : node) : node :=
  Node (prefix self) b (changed self) (parent self).
Definition set_changed (b : bool) (self : node) : node :=
  Node (prefix self) (locked self) b (parent self).

(** [putOnMap]: erase the key when it is there, then insert. *)
Definition putOnMap (map : gmap string string) (key value : string)
  : gmap string string :=
  let map := match map !! key with Some _ => delete key map | None => map end in
  <[key := value]> map.

(** [std::map::insert]: no effect when the key is present. *)
Definition map_insert (map : gmap string string) (key value : string)
  : gmap string string :=
  match map !! key with Some _ => map | None => <[key := value]> map end.

(** [operator[]] of the map, read as an rvalue. *)
Definition map_at (map : gmap string string) (key : string) : string :=
  default EmptyString (map !! key).

(** [commitChanges]: the base implementation forwards to the parent. *)
Fixpoint commitChanges (self : node) (st : store) : store :=
  let st := Store (parameters st) (commits st ++ [prefix self]) in
  match self with
  | Node _ _ _ (Some p) => commitChanges p st
  | Node _ _ _ None => st
  end.

(** The tail shared by every committing writer:
    [if (!locked) commitChanges(); else changed = true;] *)
Definition commit_or_mark (self : node) (st : store) : node * store :=
  if negb (locked self) then (self, commitChanges self st)
  else (set_changed true self, st).

(** Strict mode of [get]: unsafe characters of the key become ['_']. *)
Fixpoint sanitize (name : string) : string :=
  match name with
  | EmptyString => EmptyString
  | String c s => String (if safe_char c then c else "_"%char) (sanitize s)
  end.

Definition get (self : node) (kname defaultValue : string) (strict : bool)
    (st : store) : string :=
  let name := if strict then sanitize kname else kname in
  let name := prefix self +:+ name in
  match parameters st !! name with
  | None => defaultValue
  | Some _ => map_at (parameters st) name
  end.

Definition set (self : node) (kname value : string) (st : store)
  : node * store :=
  let name := prefix self +:+ kname in
  let st := with_parameters (putOnMap (parameters st) name value) st in
  if negb (locked self) then (self, commitChanges self st)
  else (set_changed true self, st).

Definition erase (self : node) (name : string) (st : store) : node * store :=
  let key := prefix self +:+ name in
  match parameters st !! key with
  | Some _ => (self, with_parameters (delete key (parameters st)) st)
  | None => (self, st)
  end.

Definition setDefault (self : node) (kname value : string) (st : store)
  : store :=
  let name := prefix self +:+ kname in
  with_parameters (map_insert (parameters st) name value) st.

Definition getNum (self : node) (kname : string) (defaultValue : Z)
    (st : store) : Z :=
  let name := prefix self +:+ kname in
  match parameters st !! name with
  | None => defaultValue
  | Some _ => ston (map_at (parameters st) name)
  end.

Definition setNum (self : node) (kname : string) (value : Z) (st : store)
  : node * store :=
  set self kname (ntos value) st.

Definition setBool (self : node) (name : string) (value : bool) (st : store)
  : node * store :=
  let v := if value then "y" else "n" in
  set self name v st.

Definition getBool (self : node) (name : string) (defaultValue : bool)
    (st : store) : bool :=
  match get self name "" false st with
  | EmptyString => defaultValue
  | String c _ =>
      bool_decide (c = "y"%char) || bool_decide (c = "t"%char)
      || bool_decide (c = "1"%char)
  end.

Definition clearAll (self : node) (st : store) : node * store :=
  (self, with_parameters ∅ st).

Definition lock (self : node) : node :=
  set_changed false (set_locked true self).

Definition unlock (self : node) (st : store) : node * store :=
  let self := set_locked false self in
  if changed self then (self, commitChanges self st) else (self, st).

Definition contains (self : node) (name : string) (useBlank : bool)
    (st : store) : bool :=
  let ans := bool_decide (is_Some (parameters st !! (prefix self +:+ name))) in
  if ans && useBlank
  then negb (bool_decide (map_at (parameters st) (prefix self +:+ name) = ""))
  else ans.

(** The loop of [filterParameter] erasing the unsafe characters. *)
Fixpoint strip_unsafe (value : string) : string :=
  match value with
  | EmptyString => EmptyString
  | String c s => if safe_char c then String c (strip_unsafe s) else strip_unsafe s
  end.

Definition filterParameter (self : node) (parameter : string) (st : store)
  : bool * node * store :=
  if negb (contains self parameter false st) then (true, self, st)
  else
    let value0 := get self parameter "" false st in
    let value := strip_unsafe value0 in
    let valueWithInvalidChar :=
      negb (forallb safe_char (list_ascii_of_string value0)) in
    if valueWithInvalidChar then
      let st :=
        with_parameters
          (putOnMap (parameters st) (prefix self +:+ parameter) value) st in
      let '(self, st) := commit_or_mark self st in
      (negb (bool_decide (value = "")), self, st)
    else (true, self, st).

Section Groups.
(** [PMAP_GROUP_SEPARATOR] comes from [CernVM/Config.h], which is not part
    of the sources at hand: the group functions take it as a parameter. *)
Variable PMAP_GROUP_SEPARATOR : string.

Definition subgroup (self : node) (kname : string) : node :=
  let name := prefix self +:+ kname +:+ PMAP_GROUP_SEPARATOR in
  child_of self name.

(** The test of [enumKeys] on one key of the map, and the name pushed
    when it passes. *)
Definition visible (pfx key : string) : option string :=
  let rest :=
    substring (String.length pfx) (String.length key - String.length pfx) key in
  if String.eqb (substring 0 (String.length pfx) key) pfx
     && bool_decide (index 0 PMAP_GROUP_SEPARATOR rest = None)
  then Some rest else None.

Definition enumKeys (self : node) (st : store) : list string :=
  omap (fun kv : string * string => visible (prefix self) kv.1)
       (map_to_list (parameters st)).

Definition clear (self : node) (st : store) : node * store :=
  let myKeys := enumKeys self st in
  (self,
   with_parameters
     (foldl (fun m k => delete (prefix self +:+ k) m) (parameters st) myKeys)
     st).

Definition clear_if (clearBefore : bool) (self : node) (st : store) : store :=
  if clearBefore then (clear self st).2 else st.

(** One iteration of the loops of [fromMap] / [fromParameters]. *)
Definition import_entry (replace : bool) (k value : string)
    (m : gmap string string) : gmap string string :=
  if replace || bool_decide (m !! k = None) then putOnMap m k value else m.

(** [fromParameters]: [ptr] is a node of another hierarchy whose map is
    [src]; the value is read from [ptr->parameters] under the bare
    enumerated name.  The log line is left out. *)
Definition fromParameters (self : node) (ptr : node)
    (src : gmap string string) (clearBefore replace : bool) (st : store)
  : node * store :=
  let st := clear_if clearBefore self st in
  let ptrKeys := enumKeys ptr (Store src []) in
  let m :=
    foldl (fun m it => import_entry replace (prefix self +:+ it) (map_at src it) m)
          (parameters st) ptrKeys in
  commit_or_mark self (with_parameters m st).

(** [fromMap]: [None] is the [NULL] pointer. *)
Definition fromMap (self : node) (map : option (gmap string string))
    (clearBefore replace : bool) (st : store) : node * store :=
  let st := clear_if clearBefore self st in
  match map with
  | None => (self, st)
  | Some map =>
      let m :=
        foldl (fun m it => import_entry replace (prefix self +:+ it.1) it.2 m)
              (parameters st) (map_to_list map) in
      commit_or_mark self (with_parameters m st)
  end.

Definition toMap (self : node) (map : gmap string string)
    (clearBefore : bool) (st : store) : gmap string string :=
  let map := if clearBefore then ∅ else map in
  let myKeys := enumKeys self st in
  foldl (fun out it => map_insert out it (map_at (parameters st) (prefix self +:+ it)))
        map myKeys.

(** The body of the member loop of [fromJSON] for a leaf: the key is the
    bare member name [k], and the map is probed under that same key. *)
Definition json_leaf (replace : bool) (k value : string)
    (m : gmap string string) : gmap string string :=
  if replace || bool_decide (m !! k = None) then putOnMap m k value else m.

(** [fromJSON].  The recursive call [sg->fromJSON(v)] runs with the default
    arguments [clearBefore = false], [replace = true] on a fresh, unlocked
    subgroup node, which is dropped afterwards.  The function is meant for
    objects, and the recursion tests [isObject] first; [getMemberNames] of a
    null value is empty, and other values are treated here in the same way. *)
Fixpoint fromJSON (self : node) (json : Json.Value)
    (clearBefore replace : bool) (st : store) {struct json} : node * store :=
  let st := clear_if clearBefore self st in
  let st :=
    match json with
    | Json.objectValue members =>
        (fix loop (ms : list (string * Json.Value)) (st : store) : store :=
           match ms with
           | [] => st
           | (k, v) :: ms' =>
               let st :=
                 match v with
                 | Json.objectValue _ =>
                     let sg := subgroup self k in
                     (fromJSON sg v false true st).2
                 | Json.stringValue s =>
                     with_parameters (json_leaf replace k s (parameters st)) st
                 | Json.intValue vv =>
                     with_parameters
                       (json_leaf replace k (ntos vv) (parameters st)) st
                 | _ => st
                 end in
               loop ms' st
           end) members st
    | _ => st
    end in
  commit_or_mark self st.

End Groups.

End ParameterMap.


(* ===================================================================== *)
(** * The [HVSession] constructor *)
(* ===================================================================== *)

Module HVSession.

Section Constructor.
(** Macros of [CernVM/Config.h], not part of the sources at hand:
    the separator, [BOOST_PP_STRINGIZE(DEFAULT_API_PORT)] and
    [DEFAULT_CERNVM_VERSION]. *)
Variable PMAP_GROUP_SEPARATOR : string.
Variable DEFAULT_API_PORT : string.
Variable DEFAULT_CERNVM_VERSION : string.

(** The data members the constructor initialises. *)
Record session : Type := Session {
  uuid : string;
  state : Z;
  pid : Z;
  internalID : Z;
  instances : Z;
  parameters : ParameterMap.node;
  properties : ParameterMap.node;
  userData : ParameterMap.node;
  machine : ParameterMap.node;
  local : ParameterMap.node
}.

(** [HVSession(ParameterMapPtr param, HVInstancePtr hv)]: the default
    parameter values, then the sub-groups and the local copies.  The
    hypervisor handle, the download provider and the random seed do not
    touch the store. *)
Definition HVSession (param : ParameterMap.node) (st : ParameterMap.store)
  : session * ParameterMap.store :=
  let st := ParameterMap.setDefault param "initialized" "0" st in
  let st := ParameterMap.setDefault param "cpus" "1" st in
  let st := ParameterMap.setDefault param "memory" "512" st in
  let st := ParameterMap.setDefault param "disk" "1024" st in
  let st := ParameterMap.setDefault param "executionCap" "100" st in
  let st := ParameterMap.setDefault param "apiPort" DEFAULT_API_PORT st in
  let st := ParameterMap.setDefault param "flags" "0" st in
  let st := ParameterMap.setDefault param "daemonControlled" "0" st in
  let st := ParameterMap.setDefault param "daemonMinCap" "0" st in
  let st := ParameterMap.setDefault param "daemonMaxCap" "0" st in
  let st := ParameterMap.setDefault param "daemonFlags" "0" st in
  let st := ParameterMap.setDefault param "uuid" "" st in
  let st := ParameterMap.setDefault param "ip" "" st in
  let st := ParameterMap.setDefault param "secret" "" st in
  let st := ParameterMap.setDefault param "name" "" st in
  let st := ParameterMap.setDefault param "diskURL" "" st in
  let st := ParameterMap.setDefault param "diskChecksum" "" st in
  let st := ParameterMap.setDefault param "cernvmVersion" DEFAULT_CERNVM_VERSION st in
  let sub := ParameterMap.subgroup PMAP_GROUP_SEPARATOR param in
  ({| uuid := ParameterMap.get param "uuid" "" false st;
      state := ParameterMap.getNum param "state" 0 st;
      pid := 0;
      internalID := 0;
      instances := 0;
      parameters := param;
      properties := sub "properties";
      userData := sub "user-data";
      machine := sub "machine";
      local := sub "local" |}, st).

End Constructor.

End HVSession.

(* ===================================================================== *)
(** * [CURLProvider] *)
(* ===================================================================== *)

Module CURLProvider.
Import Utilities.

Definition HVE_OK : Z := 0.
Definition HVE_IO_ERROR : Z := -6.

(** The result of [curl_easy_perform], as far as [downloadFile] tells the
    codes apart: success, the code libcurl gives when a callback asked to
    stop, and any other failure. *)
Inductive CURLcode : Type :=
| CURLE_OK
| CURLE_ABORTED_BY_CALLBACK
| CURLE_FAILED (code : Z).

(** The fields of the provider that [downloadFile], [abort] and [abortAll]
    read or write. *)
Record provider : Type := Provider {
  operationInstances : Z;
  abortFlag : bool;
  abortPersistsFlag : bool;
  maxStreamSize : Z
}.

(** What one call does to the outside world, oldest first. *)
Inductive effect : Type :=
| FileOpened (destination : string)
| TransferStarted (url : string)
| FileWritten (chunk : string)
| FileClosed.

(** libcurl is not code of this repository.  A transfer is what it makes of
    one [curl_easy_perform]: a sequence of callback invocations, between
    which another thread may call [abort] or [abortAll] on the same provider,
    and the code it returns when no callback stops it. *)
Inductive event : Type :=
| OnHeader (line : string)
| OnData (chunk : string)
| OnProgress
| OtherThreadAbort
| OtherThreadAbortAll.

Definition with_flags (f p : bool) (self : provider) : provider :=
  Provider (operationInstances self) f p (maxStreamSize self).
Definition with_instances (n : Z) (self : provider) : provider :=
  Provider n (abortFlag self) (abortPersistsFlag self) (maxStreamSize self).
Definition with_maxStreamSize (n : Z) (self : provider) : provider :=
  Provider (operationInstances self) (abortFlag self) (abortPersistsFlag self) n.

(** [CURLProvider::abort] *)
Definition abort (self : provider) : provider :=
  if 0 <? operationInstances self then with_flags true false self else self.

(** [CURLProvider::abortAll] *)
Definition abortAll (self : provider) : provider :=
  with_flags true true self.

(** [__curl_xferinfo]: the new provider state and the value returned. *)
Definition curl_xferinfo (self : provider) : provider * Z :=
  if abortFlag self
  then (with_flags (abortPersistsFlag self) (abortPersistsFlag self) self, -1)
  else (self, 0).

(** [__curl_headerfunc].  The count given to [substr] is
    [length() - 18] in [size_t]; on a line of 17 characters it wraps and
    [substr] takes what is left of the line. *)
Definition curl_headerfunc (line : string) (self : provider) : provider :=
  if (16 <? String.length line)%nat
     && String.eqb (substring 0 16 line) "Content-Length: "
  then
    let count :=
      if (String.length line <? 18)%nat then String.length line
      else (String.length line - 18)%nat in
    with_maxStreamSize (ston (substring 16 count line)) self
  else self.

(** [curl_easy_perform] with the callbacks [downloadFile] installs: a
    non-zero answer of the progress callback stops the transfer. *)
Fixpoint curl_easy_perform (self : provider) (transfer : list event)
    (result : CURLcode) (trace : list effect)
  : CURLcode * provider * list effect :=
  match transfer with
  | [] => (result, self, trace)
  | OnHeader line :: rest =>
      curl_easy_perform (curl_headerfunc line self) rest result trace
  | OnData chunk :: rest =>
      curl_easy_perform self rest result (trace ++ [FileWritten chunk])
  | OnProgress :: rest =>
      let '(self, r) := curl_xferinfo self in
      if r =? 0 then curl_easy_perform self rest result trace
      else (CURLE_ABORTED_BY_CALLBACK, self, trace)
  | OtherThreadAbort :: rest =>
      curl_easy_perform (abort self) rest result trace
  | OtherThreadAbortAll :: rest =>
      curl_easy_perform (abortAll self) rest result trace
  end.

(** [CURLProvider::downloadFile] without a progress sink ([pf] null).
    [can_open] tells whether opening the destination succeeds; [transfer]
    and [result] are what the transport does once started. *)
Definition downloadFile (self : provider) (url destination : string)
    (can_open : bool) (transfer : list event) (result : CURLcode)
  : Z * provider * list effect :=
  let self := with_instances (operationInstances self + 1) self in
  let self := with_maxStreamSize 0 self in
  if negb can_open then
    (HVE_IO_ERROR, with_instances (operationInstances self - 1) self, [])
  else
    let trace := [FileOpened destination; TransferStarted url] in
    let '(res, self, trace) := curl_easy_perform self transfer result trace in
    match res with
    | CURLE_OK =>
        (HVE_OK, with_instances (operationInstances self - 1) self,
         trace ++ [FileClosed])
    | _ =>
        (HVE_IO_ERROR, with_instances (operationInstances self - 1) self, trace)
    end.



End CURLProvider.

(* ===================================================================== *)
(** * [contextiso.cpp] *)
(* ===================================================================== *)

Module ContextISO.

Definition CONTEXTISO_CDROM_SIZE : Z := 358400.
Definition LIBCONTEXTISO_APP : string :=
  "LIBCONTEXTISO - A TINY ISO 9660-COMPATIBLE FILESYSTEM CREATOR LIBRARY (C) 2012  I.CHARALAMPIDIS                                 ".

Definition PRIMARY_DESCRIPTOR_OFFSET : Z := 0x8000.
Definition SECONDARY_DIRECTORY_RECORD_OFFSET : Z := 0xB800.
Definition CONTENTS_OFFSET : Z := 0xC000.
Definition README_CONTENT_OFFSET : Z := 0xE000.
Definition EC_META_CONTENT_OFFSET : Z := 0xE800.
Definition EC_USER_CONTENT_OFFSET : Z := 0xF000.
Definition OS_META_CONTENT_OFFSET : Z := 0xF800.
Definition OS_USER_CONTENT_OFFSET : Z := 0x10000.

Definition nl : string := String "010"%char EmptyString.
Definition dq : string := String "034"%char EmptyString.

Definition README_CONTENT : string :=
  "We support two ways of contextualization: through amiconfig and cloud init." +:+ nl +:+
  "Amiconfig and cloud-init pick up the (same) user-data from different paths." +:+ nl +:+
  nl +:+
  "Amiconfig:" +:+ nl +:+
  "Amiconfig data are put (in the plaintext format) to the " +:+ dq +:+ "/ec2/latest/user-data" +:+ dq +:+ " file." +:+ nl +:+
  dq +:+ "ec2/latest/meta-data.json" +:+ dq +:+ " contains only an empty dictionary." +:+ nl +:+
  nl +:+
  "Cloud init:" +:+ nl +:+
  "Cloud init data are put (in the plaintext format) to the " +:+ dq +:+ "/openstack/latest/user_data" +:+ dq +:+ " file." +:+ nl +:+
  dq +:+ "/openstack/latest/meta_data.json" +:+ dq +:+ " contains only an empty dictionary." +:+ nl.

Definition META_DATA_CONTENT : string :=
  "{" +:+ nl +:+
  "    " +:+ dq +:+ "uuid" +:+ dq +:+ ": " +:+ dq +:+ "83679162-1378-4288-a2d4-70e13ec132aa" +:+ dq +:+ nl +:+
  "}" +:+ nl.

(** Bytes are their values in [0, 256). *)
Definition bytes_of (s : string) : list Z :=
  map (fun c => Z.of_N (N_of_ascii c)) (list_ascii_of_string s).

Definition strlen (s : string) : Z := Z.of_nat (String.length s).

Definition dateZero : list Z := repeat 0x30 17.

(** A C [int]: 32 bits, two's complement. *)
Definition int_wrap (x : Z) : Z := (x + 2 ^ 31) mod 2 ^ 32 - 2 ^ 31.

(** [isosetl]: both byte orders of [x]. *)
Definition isosetl (x : Z) : list Z :=
  [ Z.land x 0xFF;
    Z.land (Z.shiftr x 8) 0xFF;
    Z.land (Z.shiftr x 16) 0xFF;
    Z.land (Z.shiftr x 24) 0xFF;
    Z.land (Z.shiftr x 24) 0xFF;
    Z.land (Z.shiftr x 16) 0xFF;
    Z.land (Z.shiftr x 8) 0xFF;
    Z.land x 0xFF ].

(** One store into a block of memory: [len] bytes at offset [dst], byte [i]
    of them being [src] at [i].  [memcpy], [memset] and [isosetl] are such
    stores; an object in memory is the log of the stores made to it, oldest
    first, over an initial content of zeroes. *)
Record write : Type := Write { dst : Z; len : Z; src : list Z }.

Definition memcpy (dst : Z) (src : list Z) (n : Z) : write := Write dst n src.
Definition memset (dst : Z) (c : Z) (n : Z) : write :=
  Write dst n (repeat c (Z.to_nat n)).
Definition isosetl_at (x : Z) (dst : Z) : write := Write dst 8 (isosetl x).

Definition covers (w : write) (i : Z) : bool :=
  (dst w <=? i) && (i <? dst w + len w).

Definition read (log : list write) (i : Z) : Z :=
  foldl (fun cur w => if covers w i then nth (Z.to_nat (i - dst w)) (src w) 0 else cur)
        0 log.

(** The first [n] bytes of an object. *)
Definition render (n : Z) (log : list write) : list Z :=
  map (read log) (seqZ 0 n).

(** A store stays inside an object of [size] bytes. *)
Definition within (size : Z) (w : write) : bool :=
  (0 <=? dst w) && (dst w + len w <=? size).

(** [struct tm] as [gmtime] fills it: [tm_mon] counts months since January
    (0 to 11) and [tm_year] years since 1900. *)
Record tm : Type := Tm {
  tm_sec : Z; tm_min : Z; tm_hour : Z; tm_mday : Z; tm_mon : Z; tm_year : Z
}.

(** The conversion [sprintf] makes for ["%0<width>u"]: the argument read as
    an [unsigned], in decimal, padded on the left with zeroes up to [width]. *)
Definition fmt_u (width : nat) (x : Z) : string :=
  let digits := NilZero.string_of_uint (N.to_uint (Z.to_N (x mod 2 ^ 32))) in
  string_of_list_ascii (repeat "0"%char (width - String.length digits)) +:+ digits.

(** [sprintf(&dateNow[0], "%04u%02u%02u%02u%02u%02u000", ...)] *)
Definition dateNow (tmNow : tm) : string :=
  fmt_u 4 (int_wrap (tm_year tmNow + 1900)) +:+
  fmt_u 2 (tm_mon tmNow) +:+
  fmt_u 2 (tm_mday tmNow) +:+
  fmt_u 2 (tm_hour tmNow) +:+
  fmt_u 2 (tm_min tmNow) +:+
  fmt_u 2 (tm_sec tmNow) +:+ "000".

(** [while (x % 2048) ++x;]  No more than 2047 increments are ever needed;
    [fuel] bounds them. *)
Fixpoint align_2k (fuel : nat) (x : Z) : Z :=
  match fuel with
  | O => x
  | S fuel => if Z.rem x 2048 =? 0 then x else align_2k fuel (int_wrap (x + 1))
  end.

(** The block that recomputes the offsets of the two openstack files when
    the ec2 user-data reaches the default openstack meta-data offset
    (lines 170 to 178): [Some] of the new offsets when it is entered. *)
Definition relocate (contentSize : Z) : option (Z * Z) :=
  let metaDataContentSize := strlen META_DATA_CONTENT in
  if int_wrap (EC_USER_CONTENT_OFFSET + contentSize) >=? OS_META_CONTENT_OFFSET then
    let osMetaOffset := int_wrap (EC_USER_CONTENT_OFFSET + contentSize + 1) in
    let osMetaOffset := align_2k 2048 osMetaOffset in
    let osUserOffset := int_wrap (osMetaOffset + metaDataContentSize + 1) in
    let osUserOffset := align_2k 2048 osUserOffset in
    Some (osMetaOffset, osUserOffset)
  else None.

(** [osMetaOffset] and [osUserOffset] after line 182. *)
Definition os_offsets (contentSize : Z) : Z * Z :=
  match relocate contentSize with
  | Some offsets => offsets
  | None => (OS_META_CONTENT_OFFSET, OS_USER_CONTENT_OFFSET)
  end.

(** An [int] passed where [memcpy] expects a [size_t]. *)
Definition size_t_of (n : Z) : Z := n mod 2 ^ 64.

(** The five content copies of [build_ami_ci_cdrom], lines 184 to 194. *)
Definition copy_contents (content : list Z) (contentSize : Z) : list write :=
  let metaDataContentSize := strlen META_DATA_CONTENT in
  let readmeSize := strlen README_CONTENT in
  let '(osMetaOffset, osUserOffset) := os_offsets contentSize in
  [ memcpy README_CONTENT_OFFSET (bytes_of README_CONTENT) readmeSize;
    memcpy EC_META_CONTENT_OFFSET (bytes_of META_DATA_CONTENT) metaDataContentSize;
    memcpy EC_USER_CONTENT_OFFSET content (size_t_of contentSize);
    memcpy osMetaOffset (bytes_of META_DATA_CONTENT) metaDataContentSize;
    memcpy osUserOffset content (size_t_of contentSize) ].

(** [lDataSize] of [build_ami_ci_cdrom], lines 140 to 142. *)
Definition ami_lDataSize (contentSize : Z) : Z :=
  let lDataSize :=
    int_wrap (2 * contentSize + 2 * strlen META_DATA_CONTENT + strlen README_CONTENT) in
  if lDataSize >? CONTEXTISO_CDROM_SIZE - CONTENTS_OFFSET
  then CONTEXTISO_CDROM_SIZE - CONTENTS_OFFSET else lDataSize.

(** [lDataSize] of [build_simple_cdrom], lines 261 to 263. *)
Definition simple_lDataSize (size : Z) : Z :=
  let lDataSize := size in
  if lDataSize >? CONTEXTISO_CDROM_SIZE - CONTENTS_OFFSET
  then CONTEXTISO_CDROM_SIZE - CONTENTS_OFFSET else lDataSize.

(** [1 + ((lDataSize - 1) / 2048)] *)
Definition volume_size (lDataSize : Z) : Z := 1 + Z.quot (lDataSize - 1) 2048.

(** [toupper] followed by the replacement of the space. *)
Definition file_char (c : Z) : Z :=
  let c := if (97 <=? c) && (c <=? 122) then c - 32 else c in
  if c =? 32 then 95 else c.

(** [iso9660.h] is not part of the sources at hand.  What the two builders
    take from it: the layout of [iso_primary_descriptor] and
    [iso_directory_record] (sizes and member offsets), the template tables
    with their sizes, and the offsets of the fields patched inside them. *)
Record iso9660_h : Type := Iso9660_h {
  sizeof_iso_primary_descriptor : Z;
  volume_id_at : Z;
  volume_space_size_at : Z;
  volume_set_id_at : Z;
  application_id_at : Z;
  creation_date_at : Z;
  modification_date_at : Z;
  expiration_date_at : Z;
  effective_date_at : Z;
  file_structure_version_at : Z;
  unused4_at : Z;
  sizeof_iso_directory_record : Z;
  size_at : Z;
  name_at : Z;
  PRIMARY_DESCRIPTOR : list Z;
  PRIMARY_DESCRIPTOR_SIZE : Z;
  ISO9660_PRIMARY_DESCRIPTOR : list Z;
  ISO9660_PRIMARY_DESCRIPTOR_SIZE : Z;
  ISO9660_AT_8800 : list Z;
  ISO9660_AT_8800_SIZE : Z;
  ISO9660_AT_9800 : list Z;
  ISO9660_AT_9800_SIZE : Z;
  ISO9660_AT_A800 : list Z;
  ISO9660_AT_A800_SIZE : Z;
  ISO9660_CONTEXT_SH_STRUCT : list Z;
  ISO9660_CONTEXT_SH_STRUCT_SIZE : Z;
  AT_9800 : list Z;
  AT_9800_SIZE : Z;
  AT_A800 : list Z;
  AT_A800_SIZE : Z;
  AT_B800 : list Z;
  AT_B800_SIZE : Z;
  AT_C000 : list Z;
  AT_C000_SIZE : Z;
  AT_C800 : list Z;
  AT_C800_SIZE : Z;
  AT_D000 : list Z;
  AT_D000_SIZE : Z;
  AT_D800 : list Z;
  AT_D800_SIZE : Z;
  AT_B800_README_SIZE_OFFSET : Z;
  AT_C800_META_DATA_SIZE_OFFSET : Z;
  AT_C800_USER_DATA_SIZE_OFFSET : Z;
  AT_D800_META_EXTENT_OFFSET : Z;
  AT_D800_USER_EXTENT_OFFSET : Z;
  AT_D800_META_DATA_SIZE_OFFSET : Z;
  AT_D800_USER_DATA_SIZE_OFFSET : Z
}.

Section Builders.
Variable h : iso9660_h.

(** The stores both builders make to [descPrimary] before the volume size
    is known (lines 99 to 134 and 224 to 258); they differ in the template. *)
Definition prepare_primary (template : list Z) (template_size : Z)
    (volume_id : string) (tmNow : tm) : list write :=
  let lVol := strlen volume_id in
  let lVol := if lVol >? 31 then 31 else lVol in
  [ memset 0 0 (sizeof_iso_primary_descriptor h);
    memset (volume_set_id_at h) 0x20 1205;
    memset (file_structure_version_at h) 1 1;
    memset (unused4_at h) 0 1;
    memcpy 0 template template_size;
    memcpy (creation_date_at h) (bytes_of (dateNow tmNow)) 17;
    memcpy (modification_date_at h) (bytes_of (dateNow tmNow)) 17;
    memcpy (effective_date_at h) (bytes_of (dateNow tmNow)) 17;
    memcpy (expiration_date_at h) dateZero 17;
    memcpy (application_id_at h) (bytes_of LIBCONTEXTISO_APP) 127;
    memset (volume_id_at h) 0x20 31;
    memcpy (volume_id_at h) (bytes_of volume_id) lVol ].

(** The two extent fields rewritten inside the relocation block
    (lines 180 and 181). *)
Definition patch_extents (contentSize : Z) : list write :=
  match relocate contentSize with
  | Some (osMetaOffset, osUserOffset) =>
      [ isosetl_at (Z.quot osMetaOffset 2048) (0xD800 + AT_D800_META_EXTENT_OFFSET h);
        isosetl_at (Z.quot osUserOffset 2048) (0xD800 + AT_D800_USER_EXTENT_OFFSET h) ]
  | None => []
  end.

(** [build_ami_ci_cdrom]: the stores made to the static [bytes], given the
    broken-down time [gmtime] returned. *)
Definition build_ami_ci_cdrom (volume_id : string) (content : list Z)
    (contentSize : Z) (tmNow : tm) : list write :=
  let metaDataContentSize := strlen META_DATA_CONTENT in
  let readmeSize := strlen README_CONTENT in
  let lDataSize := ami_lDataSize contentSize in
  let lVolSize := volume_size lDataSize in
  let descPrimary :=
    prepare_primary (PRIMARY_DESCRIPTOR h) (PRIMARY_DESCRIPTOR_SIZE h) volume_id tmNow
    ++ [ isosetl_at lVolSize (volume_space_size_at h) ] in
  [ memset 0 0 CONTEXTISO_CDROM_SIZE;
    memcpy PRIMARY_DESCRIPTOR_OFFSET
      (render (sizeof_iso_primary_descriptor h) descPrimary)
      (sizeof_iso_primary_descriptor h);
    memcpy 0x8800 (ISO9660_AT_8800 h) (ISO9660_AT_8800_SIZE h);
    memcpy 0x9800 (AT_9800 h) (AT_9800_SIZE h);
    memcpy 0xA800 (AT_A800 h) (AT_A800_SIZE h);
    memcpy 0xB800 (AT_B800 h) (AT_B800_SIZE h);
    memcpy 0xC000 (AT_C000 h) (AT_C000_SIZE h);
    memcpy 0xC800 (AT_C800 h) (AT_C800_SIZE h);
    memcpy 0xD000 (AT_D000 h) (AT_D000_SIZE h);
    memcpy 0xD800 (AT_D800 h) (AT_D800_SIZE h) ]
  ++ patch_extents contentSize
  ++ copy_contents content contentSize
  ++ [ isosetl_at (int_wrap readmeSize) (0xB800 + AT_B800_README_SIZE_OFFSET h);
       isosetl_at (int_wrap metaDataContentSize) (0xC800 + AT_C800_META_DATA_SIZE_OFFSET h);
       isosetl_at contentSize (0xC800 + AT_C800_USER_DATA_SIZE_OFFSET h);
       isosetl_at (int_wrap metaDataContentSize) (0xD800 + AT_D800_META_DATA_SIZE_OFFSET h);
       isosetl_at contentSize (0xD800 + AT_D800_USER_DATA_SIZE_OFFSET h) ].

(** The copy of the payload made by [build_simple_cdrom], line 293. *)
Definition copy_buffer (buffer : list Z) (size : Z) : write :=
  memcpy CONTENTS_OFFSET buffer (size_t_of (simple_lDataSize size)).

(** [build_simple_cdrom] *)
Definition build_simple_cdrom (volume_id filename : string) (buffer : list Z)
    (size : Z) (tmNow : tm) : list write :=
  let lDataSize := simple_lDataSize size in
  let lVolSize := volume_size lDataSize in
  let descPrimary :=
    prepare_primary (ISO9660_PRIMARY_DESCRIPTOR h)
      (ISO9660_PRIMARY_DESCRIPTOR_SIZE h) volume_id tmNow
    ++ [ isosetl_at lVolSize (volume_space_size_at h) ] in
  let i := Z.min (strlen filename) 10 in
  let descFile :=
    [ memcpy 0 (drop 0x44%nat (ISO9660_CONTEXT_SH_STRUCT h)) (sizeof_iso_directory_record h);
      isosetl_at lDataSize (size_at h);
      memcpy (name_at h) (map file_char (take (Z.to_nat i) (bytes_of filename))) i;
      memset (name_at h + i) 59 1;
      memset (name_at h + i + 1) 49 1 ] in
  [ memset 0 0 CONTEXTISO_CDROM_SIZE;
    memcpy PRIMARY_DESCRIPTOR_OFFSET
      (render (sizeof_iso_primary_descriptor h) descPrimary)
      (sizeof_iso_primary_descriptor h);
    memcpy 0x8800 (ISO9660_AT_8800 h) (ISO9660_AT_8800_SIZE h);
    memcpy 0x9800 (ISO9660_AT_9800 h) (ISO9660_AT_9800_SIZE h);
    memcpy 0xA800 (ISO9660_AT_A800 h) (ISO9660_AT_A800_SIZE h);
    memcpy SECONDARY_DIRECTORY_RECORD_OFFSET
      (ISO9660_CONTEXT_SH_STRUCT h) (ISO9660_CONTEXT_SH_STRUCT_SIZE h);
    memcpy (SECONDARY_DIRECTORY_RECORD_OFFSET + 68)
      (render (sizeof_iso_directory_record h) descFile)
      (sizeof_iso_directory_record h);
    copy_buffer buffer size ].

End Builders.

End ContextISO.

(* ===================================================================== *)
(** * Progress events of a download *)
(* ===================================================================== *)

Module Progress.

(** What [fireProgressEvent] and [writeToStream] use of a [VariableTask]
    ([CernVM/ProgressFeedback.h], not part of the sources at hand): its
    [__lastEventTime], and the reports made to it, oldest first, each the
    pair of one [setMax(max)] and the [update(pos)] that follows it. *)
Record VariableTask : Type :=
  Task { lastEventTime : Z; reports : list (Z * Z) }.

Section Throttle.
(** [DP_THROTTLE_TIMER], of [CernVM/DownloadProvider.h]. *)
Variable DP_THROTTLE_TIMER : Z.

(** [DownloadProvider::fireProgressEvent].  [getMillis()] is read twice:
    [t_check] is the reading compared with the last event time, [t_store]
    the one stored. *)
Definition fireProgressEvent (fb : option VariableTask) (pos max : Z)
    (t_check t_store : Z) : option VariableTask :=
  match fb with
  | Some task =>
      if negb (pos =? max) && (t_check - lastEventTime task <? DP_THROTTLE_TIMER)
      then Some task
      else Some (Task t_store (reports task ++ [(max, pos)]))
  | None => None
  end.

(** An output stream ([fStream] or [sStream]) is what was written to it;
    [tellp()] is its length. *)
Definition tellp (stream : string) : Z := Z.of_nat (String.length stream).

(** [DownloadProvider::writeToStream] *)
Definition writeToStream (stream : string) (fb : option VariableTask)
    (max_size : Z) (data : string) (t_check t_store : Z)
  : string * option VariableTask :=
  let stream := stream +:+ data in
  if negb (max_size =? 0) then
    let cur_size := tellp stream in
    match fb with
    | Some _ => (stream, fireProgressEvent fb cur_size max_size t_check t_store)
    | None => (stream, fb)
    end
  else (stream, fb).

(** One data callback of a transfer: the chunk libcurl hands over and the
    two readings of the clock made while it is handled. *)
Record chunk : Type := Chunk { data : string; t_check : Z; t_store : Z }.

(** [__curl_datacb_file] / [__curl_datacb_string], as they act on the
    stream and on the task of the provider; both consume the whole chunk. *)
Definition curl_datacb (maxStreamSize : Z) (s : string * option VariableTask)
    (c : chunk) : string * option VariableTask :=
  writeToStream s.1 s.2 maxStreamSize (data c) (t_check c) (t_store c).

(** The data callbacks of one transfer, in order. *)
Definition receive (maxStreamSize : Z) (s : string * option VariableTask)
    (cs : list chunk) : string * option VariableTask :=
  foldl (curl_datacb maxStreamSize) s cs.

End Throttle.

End Progress.

(* ===================================================================== *)
(** * Vocabulary of the statements *)
(* ===================================================================== *)

(** Short names for the three modules, and the notions the properties below
    are stated with: what one call of [commitChanges] logs, batches of
    writes, the shape of a transfer, and the bytes of an image. *)

Module PM := ParameterMap.

(** A call of [commitChanges] logs the node and then its ancestors. *)
Fixpoint commit_chain (self : PM.node) : list string :=
  PM.prefix self ::
  match self with
  | PM.Node _ _ _ (Some p) => commit_chain p
  | PM.Node _ _ _ None => []
  end.

(** The writes a caller can batch between [lock()] and [unlock()]. *)
Inductive write_call : Type :=
| call_set (k v : string)
| call_setNum (k : string) (n : Z)
| call_setBool (k : string) (b : bool).

(** One such call, made on the node and the store it finds. *)
Definition run_write (s : PM.node * PM.store) (c : write_call)
  : PM.node * PM.store :=
  match c with
  | call_set k v => PM.set s.1 k v s.2
  | call_setNum k n => PM.setNum s.1 k n s.2
  | call_setBool k b => PM.setBool s.1 k b s.2
  end.

(** The key a write names and the string it stores there. *)
Definition written (c : write_call) : string * string :=
  match c with
  | call_set k v => (k, v)
  | call_setNum k n => (k, Utilities.ntos n)
  | call_setBool k b => (k, if b then "y" else "n")
  end.

(** The calls of a list, one after the other. *)
Definition run_writes (s : PM.node * PM.store) (cs : list write_call)
  : PM.node * PM.store :=
  foldl run_write s cs.

(** [lock(); <writes>; unlock();] *)
Definition locked_batch (self : PM.node) (st : PM.store)
    (cs : list write_call) : PM.node * PM.store :=
  let s := run_writes (PM.lock self, st) cs in
  PM.unlock s.1 s.2.

(** One turn of the member loop of [fromJSON]. *)
Definition member_step (sep : string) (self : PM.node) (replace : bool)
    (st : PM.store) (kv : string * Json.Value) : PM.store :=
  match kv.2 with
  | Json.objectValue _ =>
      (PM.fromJSON sep (PM.subgroup sep self kv.1) kv.2 false true st).2
  | Json.stringValue s =>
      PM.with_parameters (PM.json_leaf replace kv.1 s (PM.parameters st)) st
  | Json.intValue vv =>
      PM.with_parameters
        (PM.json_leaf replace kv.1 (Utilities.ntos vv) (PM.parameters st)) st
  | _ => st
  end.

(** What [filterParameter] decides before it rewrites the value: the
    parameter is there and its value holds a character outside the safe set. *)
Definition filter_rewrites (self : PM.node) (parameter : string)
    (st : PM.store) : bool :=
  PM.contains self parameter false st
  && negb (forallb PM.safe_char
             (list_ascii_of_string (PM.get self parameter "" false st))).

Module DP := CURLProvider.








(** Two provider states that differ at most in [maxStreamSize]. *)
Definition same_control (a b : DP.provider) : Prop :=
  DP.abortFlag a = DP.abortFlag b
  ∧ DP.abortPersistsFlag a = DP.abortPersistsFlag b
  ∧ DP.operationInstances a = DP.operationInstances b.

Module ISO := ContextISO.

(** The offsets of the bytes of an eight-byte field. *)
Definition eight : list Z := [0; 1; 2; 3; 4; 5; 6; 7].

(** The eight bytes of an object starting at offset [a], and the eight bytes
    of a table starting at index [off]. *)
Definition bytes_at (log : list ISO.write) (a : Z) : list Z :=
  map (fun j => ISO.read log (a + j)) eight.
Definition table_at (table : list Z) (off : Z) : list Z :=
  map (fun j => nth (Z.to_nat (off + j)) table 0) eight.

(** A store that shares no byte with the eight-byte field at [a]. *)
Definition clear_of (a : Z) (w : ISO.write) : Prop :=
  ISO.dst w + ISO.len w <= a ∨ a + 8 <= ISO.dst w.

(** Two eight-byte fields, at [a] and at [b], that share no byte. *)
Definition apart (a b : Z) : Prop := a + 8 <= b ∨ b + 8 <= a.

(** The two extent fields of the sector at [0xD800] lie inside its
    template, which fits the sector; they share no byte with each other nor
    with the two size fields of that sector; and the size fields of the
    sectors at [0xB800] and [0xC800] end inside their own sectors. *)
Definition directory_layout (h : ISO.iso9660_h) : Prop :=
  0 <= ISO.AT_D800_META_EXTENT_OFFSET h
  ∧ ISO.AT_D800_META_EXTENT_OFFSET h + 8 <= ISO.AT_D800_SIZE h
  ∧ 0 <= ISO.AT_D800_USER_EXTENT_OFFSET h
  ∧ ISO.AT_D800_USER_EXTENT_OFFSET h + 8 <= ISO.AT_D800_SIZE h
  ∧ ISO.AT_D800_SIZE h <= 0x800
  ∧ apart (ISO.AT_D800_META_EXTENT_OFFSET h) (ISO.AT_D800_USER_EXTENT_OFFSET h)
  ∧ apart (ISO.AT_D800_META_EXTENT_OFFSET h) (ISO.AT_D800_META_DATA_SIZE_OFFSET h)
  ∧ apart (ISO.AT_D800_META_EXTENT_OFFSET h) (ISO.AT_D800_USER_DATA_SIZE_OFFSET h)
  ∧ apart (ISO.AT_D800_USER_EXTENT_OFFSET h) (ISO.AT_D800_META_DATA_SIZE_OFFSET h)
  ∧ apart (ISO.AT_D800_USER_EXTENT_OFFSET h) (ISO.AT_D800_USER_DATA_SIZE_OFFSET h)
  ∧ ISO.AT_B800_README_SIZE_OFFSET h + 8 <= 0x800
  ∧ ISO.AT_C800_META_DATA_SIZE_OFFSET h + 8 <= 0x800
  ∧ ISO.AT_C800_USER_DATA_SIZE_OFFSET h + 8 <= 0x800.

(** The stores before the template of the sector at [0xD800]. *)
Definition stores_before_D800 (h : ISO.iso9660_h) (volume_id : string)
    (contentSize : Z) (tmNow : ISO.tm) : list ISO.write :=
  let descPrimary :=
    ISO.prepare_primary h (ISO.PRIMARY_DESCRIPTOR h) (ISO.PRIMARY_DESCRIPTOR_SIZE h)
      volume_id tmNow
    ++ [ ISO.isosetl_at (ISO.volume_size (ISO.ami_lDataSize contentSize))
           (ISO.volume_space_size_at h) ] in
  [ ISO.memset 0 0 ISO.CONTEXTISO_CDROM_SIZE;
    ISO.memcpy ISO.PRIMARY_DESCRIPTOR_OFFSET
      (ISO.render (ISO.sizeof_iso_primary_descriptor h) descPrimary)
      (ISO.sizeof_iso_primary_descriptor h);
    ISO.memcpy 0x8800 (ISO.ISO9660_AT_8800 h) (ISO.ISO9660_AT_8800_SIZE h);
    ISO.memcpy 0x9800 (ISO.AT_9800 h) (ISO.AT_9800_SIZE h);
    ISO.memcpy 0xA800 (ISO.AT_A800 h) (ISO.AT_A800_SIZE h);
    ISO.memcpy 0xB800 (ISO.AT_B800 h) (ISO.AT_B800_SIZE h);
    ISO.memcpy 0xC000 (ISO.AT_C000 h) (ISO.AT_C000_SIZE h);
    ISO.memcpy 0xC800 (ISO.AT_C800 h) (ISO.AT_C800_SIZE h);
    ISO.memcpy 0xD000 (ISO.AT_D000 h) (ISO.AT_D000_SIZE h) ].

(** The five file sizes written last. *)
Definition size_stores (h : ISO.iso9660_h) (contentSize : Z) : list ISO.write :=
  [ ISO.isosetl_at (ISO.int_wrap (ISO.strlen ISO.README_CONTENT))
      (0xB800 + ISO.AT_B800_README_SIZE_OFFSET h);
    ISO.isosetl_at (ISO.int_wrap (ISO.strlen ISO.META_DATA_CONTENT))
      (0xC800 + ISO.AT_C800_META_DATA_SIZE_OFFSET h);
    ISO.isosetl_at contentSize (0xC800 + ISO.AT_C800_USER_DATA_SIZE_OFFSET h);
    ISO.isosetl_at (ISO.int_wrap (ISO.strlen ISO.META_DATA_CONTENT))
      (0xD800 + ISO.AT_D800_META_DATA_SIZE_OFFSET h);
    ISO.isosetl_at contentSize (0xD800 + ISO.AT_D800_USER_DATA_SIZE_OFFSET h) ].

(** A header to run the builders on: the members of the primary volume
    descriptor and of a directory record at their ECMA-119 offsets, tables of
    zeroes one sector long, and in each directory sector two file records
    after the two 34-byte records a directory starts with. *)
Definition ecma119_header : ISO.iso9660_h :=
  {| ISO.sizeof_iso_primary_descriptor := 2048;
     ISO.volume_id_at := 40;
     ISO.volume_space_size_at := 80;
     ISO.volume_set_id_at := 190;
     ISO.application_id_at := 574;
     ISO.creation_date_at := 813;
     ISO.modification_date_at := 830;
     ISO.expiration_date_at := 847;
     ISO.effective_date_at := 864;
     ISO.file_structure_version_at := 881;
     ISO.unused4_at := 882;
     ISO.sizeof_iso_directory_record := 48;
     ISO.size_at := 10;
     ISO.name_at := 33;
     ISO.PRIMARY_DESCRIPTOR := repeat 0 190;
     ISO.PRIMARY_DESCRIPTOR_SIZE := 190;
     ISO.ISO9660_PRIMARY_DESCRIPTOR := repeat 0 190;
     ISO.ISO9660_PRIMARY_DESCRIPTOR_SIZE := 190;
     ISO.ISO9660_AT_8800 := repeat 0 2048;
     ISO.ISO9660_AT_8800_SIZE := 2048;
     ISO.ISO9660_AT_9800 := repeat 0 2048;
     ISO.ISO9660_AT_9800_SIZE := 2048;
     ISO.ISO9660_AT_A800 := repeat 0 2048;
     ISO.ISO9660_AT_A800_SIZE := 2048;
     ISO.ISO9660_CONTEXT_SH_STRUCT := repeat 0 2048;
     ISO.ISO9660_CONTEXT_SH_STRUCT_SIZE := 2048;
     ISO.AT_9800 := repeat 0 2048;
     ISO.AT_9800_SIZE := 2048;
     ISO.AT_A800 := repeat 0 2048;
     ISO.AT_A800_SIZE := 2048;
     ISO.AT_B800 := repeat 0 2048;
     ISO.AT_B800_SIZE := 2048;
     ISO.AT_C000 := repeat 0 2048;
     ISO.AT_C000_SIZE := 2048;
     ISO.AT_C800 := repeat 0 2048;
     ISO.AT_C800_SIZE := 2048;
     ISO.AT_D000 := repeat 0 2048;
     ISO.AT_D000_SIZE := 2048;
     ISO.AT_D800 := repeat 0 2048;
     ISO.AT_D800_SIZE := 2048;
     ISO.AT_B800_README_SIZE_OFFSET := 78;
     ISO.AT_C800_META_DATA_SIZE_OFFSET := 78;
     ISO.AT_C800_USER_DATA_SIZE_OFFSET := 128;
     ISO.AT_D800_META_EXTENT_OFFSET := 70;
     ISO.AT_D800_USER_EXTENT_OFFSET := 120;
     ISO.AT_D800_META_DATA_SIZE_OFFSET := 78;
     ISO.AT_D800_USER_DATA_SIZE_OFFSET := 128 |}.

(** The default parameter values of the [HVSession] constructor, in the
    order of its [setDefault] calls. *)
Definition HVSession_defaults (port version : string) : list (string * string) :=
  [ ("initialized", "0"); ("cpus", "1"); ("memory", "512"); ("disk", "1024");
    ("executionCap", "100"); ("apiPort", port); ("flags", "0");
    ("daemonControlled", "0"); ("daemonMinCap", "0"); ("daemonMaxCap", "0");
    ("daemonFlags", "0"); ("uuid", ""); ("ip", ""); ("secret", "");
    ("name", ""); ("diskURL", ""); ("diskChecksum", "");
    ("cernvmVersion", version) ].

Module PG := Progress.

(** The reports of a task that are not the last one of a download: the
    position is not the maximum. *)
Definition partial_reports (reports : list (Z * Z)) : list (Z * Z) :=
  filter (fun r => r.2 ≠ r.1) reports.

(** The clock readings of a run of data callbacks never go back: each is
    at least the one before, starting from [t0]. *)
Fixpoint clock_runs_on (t0 : Z) (cs : list PG.chunk) : Prop :=
  match cs with
  | [] => True
  | c :: cs' =>
      t0 <= PG.t_check c ∧ PG.t_check c <= PG.t_store c
      ∧ clock_runs_on (PG.t_store c) cs'
  end.

(** Stores that follow one another in memory: each ends where the next
    begins, or before. *)
Fixpoint in_order (ws : list ISO.write) : Prop :=
  match ws with
  | w :: ((w' :: _) as rest) => ISO.dst w + ISO.len w <= ISO.dst w' ∧ in_order rest
  | _ => True
  end.

(** The value the first four bytes of a field spell, least significant
    byte first. *)
Definition little_endian (bytes : list Z) : Z :=
  nth 0 bytes 0 + 256 * nth 1 bytes 0 + 65536 * nth 2 bytes 0
  + 16777216 * nth 3 bytes 0.

(** The value the last four bytes of an eight-byte field spell, most
    significant byte first. *)
Definition big_endian_tail (bytes : list Z) : Z :=
  16777216 * nth 4 bytes 0 + 65536 * nth 5 bytes 0 + 256 * nth 6 bytes 0
  + nth 7 bytes 0.

(** An eight-byte field that holds the number [x] in both byte orders, as
    ISO 9660 records its 32-bit numbers. *)
Definition holds_number (field : list Z) (x : Z) : Prop :=
  length field = 8%nat
  ∧ Forall (fun b => 0 <= b < 256) field
  ∧ little_endian field = x
  ∧ big_endian_tail field = x.

(** Where the volume size lies in the primary descriptor: inside it, the
    descriptor being no longer than a sector. *)
Definition volume_size_layout (h : ISO.iso9660_h) : Prop :=
  0 <= ISO.volume_space_size_at h
  ∧ ISO.volume_space_size_at h + 8 <= ISO.sizeof_iso_primary_descriptor h
  ∧ ISO.sizeof_iso_primary_descriptor h <= 0x800.

(** Each field the builder patches inside a directory sector ends inside that
    sector. *)
Definition fields_in_sectors (h : ISO.iso9660_h) : Prop :=
  ISO.AT_B800_README_SIZE_OFFSET h + 8 <= 0x800
  ∧ ISO.AT_C800_META_DATA_SIZE_OFFSET h + 8 <= 0x800
  ∧ ISO.AT_C800_USER_DATA_SIZE_OFFSET h + 8 <= 0x800
  ∧ ISO.AT_D800_META_EXTENT_OFFSET h + 8 <= 0x800
  ∧ ISO.AT_D800_USER_EXTENT_OFFSET h + 8 <= 0x800
  ∧ ISO.AT_D800_META_DATA_SIZE_OFFSET h + 8 <= 0x800
  ∧ ISO.AT_D800_USER_DATA_SIZE_OFFSET h + 8 <= 0x800.

(** Each of those fields starts inside its sector. *)
Definition fields_start_in_sectors (h : ISO.iso9660_h) : Prop :=
  0 <= ISO.AT_B800_README_SIZE_OFFSET h
  ∧ 0 <= ISO.AT_C800_META_DATA_SIZE_OFFSET h
  ∧ 0 <= ISO.AT_C800_USER_DATA_SIZE_OFFSET h
  ∧ 0 <= ISO.AT_D800_META_EXTENT_OFFSET h
  ∧ 0 <= ISO.AT_D800_USER_EXTENT_OFFSET h
  ∧ 0 <= ISO.AT_D800_META_DATA_SIZE_OFFSET h
  ∧ 0 <= ISO.AT_D800_USER_DATA_SIZE_OFFSET h.

(** The two size fields of one sector share no byte. *)
Definition size_fields_apart (h : ISO.iso9660_h) : Prop :=
  apart (ISO.AT_C800_META_DATA_SIZE_OFFSET h) (ISO.AT_C800_USER_DATA_SIZE_OFFSET h)
  ∧ apart (ISO.AT_D800_META_DATA_SIZE_OFFSET h) (ISO.AT_D800_USER_DATA_SIZE_OFFSET h).

(** The stores [build_simple_cdrom] makes to [descFile]. *)
Definition descFile_stores (h : ISO.iso9660_h) (filename : string)
    (lDataSize : Z) : list ISO.write :=
  let i := Z.min (ISO.strlen filename) 10 in
  [ ISO.memcpy 0 (drop 0x44%nat (ISO.ISO9660_CONTEXT_SH_STRUCT h))
      (ISO.sizeof_iso_directory_record h);
    ISO.isosetl_at lDataSize (ISO.size_at h);
    ISO.memcpy (ISO.name_at h)
      (map ISO.file_char (take (Z.to_nat i) (ISO.bytes_of filename))) i;
    ISO.memset (ISO.name_at h + i) 59 1;
    ISO.memset (ISO.name_at h + i + 1) 49 1 ].

(** The stores either builder makes to [descPrimary], the volume size
    last. *)
Definition descPrimary_stores (h : ISO.iso9660_h) (template : list Z)
    (template_size : Z) (volume_id : string) (tmNow : ISO.tm) (lVolSize : Z)
  : list ISO.write :=
  ISO.prepare_primary h template template_size volume_id tmNow
  ++ [ ISO.isosetl_at lVolSize (ISO.volume_space_size_at h) ].

(** The stores of [build_simple_cdrom] after the primary descriptor and
    before the record of the file. *)
Definition simple_tables (h : ISO.iso9660_h) : list ISO.write :=
  [ ISO.memcpy 0x8800 (ISO.ISO9660_AT_8800 h) (ISO.ISO9660_AT_8800_SIZE h);
    ISO.memcpy 0x9800 (ISO.ISO9660_AT_9800 h) (ISO.ISO9660_AT_9800_SIZE h);
    ISO.memcpy 0xA800 (ISO.ISO9660_AT_A800 h) (ISO.ISO9660_AT_A800_SIZE h);
    ISO.memcpy ISO.SECONDARY_DIRECTORY_RECORD_OFFSET
      (ISO.ISO9660_CONTEXT_SH_STRUCT h) (ISO.ISO9660_CONTEXT_SH_STRUCT_SIZE h) ].

(** The stores of [build_ami_ci_cdrom] after the primary descriptor and
    before the template of the sector at [0xD800]. *)
Definition ami_tables (h : ISO.iso9660_h) : list ISO.write :=
  [ ISO.memcpy 0x8800 (ISO.ISO9660_AT_8800 h) (ISO.ISO9660_AT_8800_SIZE h);
    ISO.memcpy 0x9800 (ISO.AT_9800 h) (ISO.AT_9800_SIZE h);
    ISO.memcpy 0xA800 (ISO.AT_A800 h) (ISO.AT_A800_SIZE h);
    ISO.memcpy 0xB800 (ISO.AT_B800 h) (ISO.AT_B800_SIZE h);
    ISO.memcpy 0xC000 (ISO.AT_C000 h) (ISO.AT_C000_SIZE h);
    ISO.memcpy 0xC800 (ISO.AT_C800 h) (ISO.AT_C800_SIZE h);
    ISO.memcpy 0xD000 (ISO.AT_D000 h) (ISO.AT_D000_SIZE h) ].

(** Where the volume identifier lies in the primary descriptor: inside it,
    the descriptor being no longer than a sector, and away from the volume
    size. *)
Definition volume_id_layout (h : ISO.iso9660_h) : Prop :=
  0 <= ISO.volume_id_at h
  ∧ ISO.volume_id_at h + 31 <= ISO.sizeof_iso_primary_descriptor h
  ∧ ISO.sizeof_iso_primary_descriptor h <= 0x800
  ∧ (ISO.volume_space_size_at h + 8 <= ISO.volume_id_at h
     ∨ ISO.volume_id_at h + 31 <= ISO.volume_space_size_at h).

(** Where the name lies in the directory record of the file: twelve bytes
    inside the record, which ends inside its sector. *)
Definition file_name_layout (h : ISO.iso9660_h) : Prop :=
  0 <= ISO.name_at h
  ∧ ISO.name_at h + 12 <= ISO.sizeof_iso_directory_record h
  ∧ 68 + ISO.sizeof_iso_directory_record h <= 0x800.

(* ===================================================================== *)
(** * Facts about strings and keys *)
(* ===================================================================== *)

Lemma app_String (c : ascii) (p r : string) :
  String c p +:+ r = String c (p +:+ r).
Proof. reflexivity. Qed.

Lemma app_empty_l (r : string) : "" +:+ r = r.
Proof. reflexivity. Qed.

Lemma substring_whole (s : string) : substring 0 (String.length s) s = s.
Proof. induction s as [|c s IH]; simpl; [reflexivity | now rewrite IH]. Qed.

Lemma substring_head_app (p r : string) :
  substring 0 (String.length p) (p +:+ r) = p.
Proof.
  induction p as [|c p IH].
  - rewrite app_empty_l. now destruct r.
  - rewrite app_String. simpl. now rewrite IH.
Qed.

Lemma substring_tail_app (p r : string) :
  substring (String.length p)
            (String.length (p +:+ r) - String.length p) (p +:+ r) = r.
Proof.
  induction p as [|c p IH].
  - rewrite app_empty_l. simpl. rewrite Nat.sub_0_r. apply substring_whole.
  - rewrite app_String. simpl. exact IH.
Qed.

Lemma substring_head_split (p key : string) :
  substring 0 (String.length p) key = p →
  key = p +:+ substring (String.length p)
                        (String.length key - String.length p) key.
Proof.
  revert key. induction p as [|c p IH]; intros key Hk.
  - rewrite app_empty_l. simpl. rewrite Nat.sub_0_r. symmetry. apply substring_whole.
  - destruct key as [|d key]; simpl in Hk; [discriminate|].
    injection Hk as -> Hk. rewrite app_String. simpl. f_equal. now apply IH.
Qed.

Lemma app_string_inj (p r1 r2 : string) : p +:+ r1 = p +:+ r2 → r1 = r2.
Proof.
  induction p as [|c p IH]; intros H; [exact H|].
  rewrite !app_String in H. injection H as H. now apply IH.
Qed.

Section KeyFacts.
Variable sep : string.

(** [enumKeys] keeps a key exactly when it is the prefix followed by a name
    free of the separator, and it pushes that name. *)
Lemma visible_Some (pfx key r : string) :
  PM.visible sep pfx key = Some r ↔
  key = pfx +:+ r ∧ index 0 sep r = None.
Proof.
  unfold PM.visible. split.
  - destruct (String.eqb _ pfx) eqn:Heq; simpl; [|discriminate].
    apply String.eqb_eq in Heq. case_bool_decide as Hi; [|discriminate].
    intros [= <-]. split; [now apply substring_head_split | exact Hi].
  - intros [-> Hi]. rewrite substring_head_app, String.eqb_refl, substring_tail_app.
    simpl. now rewrite bool_decide_eq_true_2.
Qed.

Lemma elem_of_enumKeys (self : PM.node) (st : PM.store) (r : string) :
  r ∈ PM.enumKeys sep self st ↔
  is_Some (PM.parameters st !! (PM.prefix self +:+ r)) ∧ index 0 sep r = None.
Proof.
  unfold PM.enumKeys. rewrite list_elem_of_omap. split.
  - intros [[k v] [Hin Hv]]. simpl in Hv. apply visible_Some in Hv as [-> Hi].
    apply elem_of_map_to_list in Hin. split; [eauto | exact Hi].
  - intros [[v Hv] Hi]. exists (PM.prefix self +:+ r, v). split.
    + now apply elem_of_map_to_list.
    + simpl. apply visible_Some. auto.
Qed.

Lemma NoDup_enumKeys (self : PM.node) (st : PM.store) :
  NoDup (PM.enumKeys sep self st).
Proof.
  unfold PM.enumKeys.
  pose proof (NoDup_fst_map_to_list (PM.parameters st)) as Hnd.
  induction (map_to_list (PM.parameters st)) as [|[k v] l IH]; simpl.
  - constructor.
  - apply NoDup_cons in Hnd as [Hk Hnd]. specialize (IH Hnd).
    destruct (PM.visible sep (PM.prefix self) k) as [r|] eqn:Hr; [|exact IH].
    apply NoDup_cons. split; [|exact IH].
    intros Hin. apply list_elem_of_omap in Hin as [[k' v'] [Hin Hv]].
    simpl in Hv. apply visible_Some in Hr as [-> _].
    apply visible_Some in Hv as [-> _].
    apply Hk. apply list_elem_of_fmap. now exists (PM.prefix self +:+ r, v').
Qed.

End KeyFacts.

Lemma putOnMap_insert (m : gmap string string) (k v : string) :
  PM.putOnMap m k v = <[k := v]> m.
Proof.
  unfold PM.putOnMap. destruct (m !! k); [apply insert_delete_eq | reflexivity].
Qed.

Lemma lookup_map_insert (m : gmap string string) (k v j : string) :
  PM.map_insert m k v !! j =
  match m !! j with
  | Some old => Some old
  | None => if decide (k = j) then Some v else None
  end.
Proof.
  unfold PM.map_insert. destruct (m !! k) as [old|] eqn:Hk.
  - destruct (m !! j) eqn:Hj; [reflexivity|].
    case_decide; [congruence | reflexivity].
  - rewrite lookup_insert. case_decide as Heq.
    + subst j. now rewrite Hk.
    + now destruct (m !! j).
Qed.

Lemma node_parent_ind (P : PM.node → Prop) :
  (∀ pfx l c, P (PM.Node pfx l c None)) →
  (∀ pfx l c p, P p → P (PM.Node pfx l c (Some p))) →
  ∀ n, P n.
Proof.
  intros Hroot Hchild. fix IH 1.
  intros [pfx l c [p|]]; [apply Hchild, IH | apply Hroot].
Qed.

Lemma commitChanges_spec (self : PM.node) (st : PM.store) :
  PM.commitChanges self st =
  PM.Store (PM.parameters st) (PM.commits st ++ commit_chain self).
Proof.
  revert st. induction self as [pfx l c|pfx l c p IH] using node_parent_ind;
    intros st; simpl.
  - reflexivity.
  - rewrite IH. simpl. now rewrite <- app_assoc.
Qed.

(* ===================================================================== *)
(** * The parameter store: reads after writes, batching, commits *)
(* ===================================================================== *)

Lemma get_plain (self : PM.node) (k d : string) (st : PM.store) :
  PM.get self k d false st =
  default d (PM.parameters st !! (PM.prefix self +:+ k)).
Proof.
  unfold PM.get, PM.map_at. simpl.
  now destruct (PM.parameters st !! (PM.prefix self +:+ k)).
Qed.

Lemma set_spec (self : PM.node) (k v : string) (st : PM.store) :
  PM.set self k v st =
  PM.commit_or_mark self
    (PM.with_parameters (<[PM.prefix self +:+ k := v]> (PM.parameters st)) st).
Proof. unfold PM.set, PM.commit_or_mark. now rewrite putOnMap_insert. Qed.

Lemma commit_or_mark_prefix (self : PM.node) (st : PM.store) :
  PM.prefix (PM.commit_or_mark self st).1 = PM.prefix self.
Proof. unfold PM.commit_or_mark. now destruct (PM.locked self). Qed.

Lemma commit_or_mark_parameters (self : PM.node) (st : PM.store) :
  PM.parameters (PM.commit_or_mark self st).2 = PM.parameters st.
Proof.
  unfold PM.commit_or_mark. destruct (PM.locked self); simpl; [reflexivity|].
  now rewrite commitChanges_spec.
Qed.

Lemma commit_or_mark_unlocked (self : PM.node) (st : PM.store) :
  PM.locked self = false →
  PM.commit_or_mark self st =
  (self, PM.Store (PM.parameters st) (PM.commits st ++ commit_chain self)).
Proof.
  intros Hl. unfold PM.commit_or_mark. rewrite Hl. simpl.
  now rewrite commitChanges_spec.
Qed.

Lemma commit_or_mark_locked (self : PM.node) (st : PM.store) :
  PM.locked self = true →
  PM.commit_or_mark self st = (PM.set_changed true self, st).
Proof. intros Hl. unfold PM.commit_or_mark. now rewrite Hl. Qed.

(** C7.  After [set(k, v)], [get(k)] returns [v], whatever the map held
    before.  After [setDefault(k, w)], [get(k)] returns the value stored
    before when the key was there, and [w] when it was not. *)
Theorem set_overwrites_setDefault_keeps
    (self : PM.node) (st : PM.store) (k v w d : string) :
  PM.get (PM.set self k v st).1 k d false (PM.set self k v st).2 = v
  ∧ PM.get self k d false (PM.setDefault self k w st) =
      if PM.contains self k false st then PM.get self k d false st else w.
Proof.
  split.
  - rewrite set_spec, get_plain, commit_or_mark_prefix,
      commit_or_mark_parameters. simpl. now rewrite lookup_insert_eq.
  - rewrite !get_plain. unfold PM.setDefault, PM.contains. simpl.
    rewrite lookup_map_insert.
    destruct (PM.parameters st !! (PM.prefix self +:+ k)) as [old|] eqn:Hk; simpl.
    + reflexivity.
    + now rewrite decide_True.
Qed.

Lemma run_write_spec (s : PM.node * PM.store) (c : write_call) :
  run_write s c =
  PM.commit_or_mark s.1
    (PM.with_parameters
       (<[PM.prefix s.1 +:+ (written c).1 := (written c).2]> (PM.parameters s.2))
       s.2).
Proof.
  destruct c as [k v|k n|k b]; simpl; unfold PM.setNum, PM.setBool;
    rewrite set_spec; reflexivity.
Qed.

(** While the node is locked a write changes the map, logs no commit and
    leaves the node locked and marked as changed. *)
Lemma run_write_locked (s : PM.node * PM.store) (c : write_call) :
  PM.locked s.1 = true →
  run_write s c =
  (PM.set_changed true s.1,
   PM.with_parameters
     (<[PM.prefix s.1 +:+ (written c).1 := (written c).2]> (PM.parameters s.2))
     s.2).
Proof. intros Hl. rewrite run_write_spec. now apply commit_or_mark_locked. Qed.

Lemma run_writes_locked (cs : list write_call) (s : PM.node * PM.store) :
  PM.locked s.1 = true →
  let s' := run_writes s cs in
  PM.locked s'.1 = true
  ∧ PM.prefix s'.1 = PM.prefix s.1
  ∧ PM.parent s'.1 = PM.parent s.1
  ∧ PM.commits s'.2 = PM.commits s.2
  ∧ PM.changed s'.1 = match cs with [] => PM.changed s.1 | _ => true end.
Proof.
  revert s. induction cs as [|c cs IH]; intros s Hl; simpl.
  - auto.
  - unfold run_writes in *. simpl. rewrite run_write_locked by exact Hl.
    destruct (IH (PM.set_changed true s.1,
                  PM.with_parameters
                    (<[PM.prefix s.1 +:+ (written c).1 := (written c).2]>
                       (PM.parameters s.2)) s.2)) as (H1 & H2 & H3 & H4 & H5).
    { exact Hl. }
    repeat split; try assumption.
    rewrite H5. now destruct cs.
Qed.

Lemma commit_chain_eq (a b : PM.node) :
  PM.prefix a = PM.prefix b → PM.parent a = PM.parent b →
  commit_chain a = commit_chain b.
Proof. destruct a, b; simpl. now intros -> ->. Qed.

Lemma unlock_spec (self : PM.node) (st : PM.store) :
  PM.unlock self st =
  (PM.set_locked false self,
   if PM.changed self
   then PM.Store (PM.parameters st) (PM.commits st ++ commit_chain self)
   else st).
Proof.
  unfold PM.unlock.
  change (PM.changed (PM.set_locked false self)) with (PM.changed self).
  destruct (PM.changed self); [|reflexivity].
  rewrite commitChanges_spec. f_equal. f_equal. f_equal.
  now apply commit_chain_eq.
Qed.

(** C5.  [lock()], then any list of [set]/[setNum]/[setBool] calls, then
    [unlock()]: no commit is logged while the writes run; at [unlock] the
    log grows by exactly what one call of [commitChanges] on the node logs
    when there was at least one write, and by nothing when there was none.
    Each write is in the map as soon as it returns: a [get] of its key
    right after it yields the string it stored, and [unlock] leaves the map
    as the writes made it. *)
Theorem lock_batches_commits
    (self : PM.node) (st : PM.store) (cs : list write_call) :
  let during := run_writes (PM.lock self, st) cs in
  let after := locked_batch self st cs in
  PM.commits during.2 = PM.commits st
  ∧ PM.commits after.2 =
      PM.commits st ++ match cs with [] => [] | _ => commit_chain self end
  ∧ PM.parameters after.2 = PM.parameters during.2
  ∧ ∀ (c : write_call) (d : string),
      let s := run_write during c in
      PM.get s.1 (written c).1 d false s.2 = (written c).2.
Proof.
  intros during after.
  destruct (run_writes_locked cs (PM.lock self, st) eq_refl)
    as (Hl & Hp & Hpar & Hc & Hch).
  fold during in Hl, Hp, Hpar, Hc, Hch. simpl in Hp, Hpar, Hc, Hch.
  assert (Hchain : commit_chain during.1 = commit_chain self)
    by (apply commit_chain_eq; assumption).
  subst after. unfold locked_batch. fold during. rewrite unlock_spec. simpl.
  rewrite Hch, Hchain, Hc.
  split; [reflexivity|]. split; [|split].
  - destruct cs; simpl; [now rewrite app_nil_r | reflexivity].
  - now destruct cs.
  - intros c d. rewrite run_write_locked by exact Hl. simpl.
    rewrite get_plain. simpl. now rewrite lookup_insert_eq.
Qed.

Lemma setDefault_keeps (self : PM.node) (k w key value : string) (st : PM.store) :
  PM.parameters st !! key = Some value →
  PM.parameters (PM.setDefault self k w st) !! key = Some value.
Proof.
  intros Hkey. unfold PM.setDefault. simpl.
  now rewrite lookup_map_insert, Hkey.
Qed.

(** C10.  Constructing an [HVSession] over a parameter map leaves every
    value the map already holds as it is, under whatever key it is stored,
    and commits nothing: the constructor only adds entries for keys that
    were absent. *)
Theorem HVSession_keeps_stored_values
    (sep port version : string) (param : PM.node) (st : PM.store)
    (key value : string) :
  PM.parameters st !! key = Some value →
  PM.parameters (HVSession.HVSession sep port version param st).2 !! key
    = Some value
  ∧ PM.commits (HVSession.HVSession sep port version param st).2
    = PM.commits st.
Proof.
  intros Hkey. unfold HVSession.HVSession. cbv beta zeta. cbn [snd]. split.
  - repeat apply setDefault_keeps. exact Hkey.
  - reflexivity.
Qed.

Lemma HVSession_keeps_stored_values_witness :
  let param := PM.Node "" false false None in
  let st := PM.Store {["cpus" := "4"]} [] in
  PM.parameters (HVSession.HVSession "/" "80" "latest" param st).2 !! "cpus"
    = Some "4"
  ∧ PM.commits (HVSession.HVSession "/" "80" "latest" param st).2
    = PM.commits st.
Proof.
  intros param st.
  apply (HVSession_keeps_stored_values "/" "80" "latest" param st "cpus" "4").
  vm_compute. reflexivity.
Defined.

(* ===================================================================== *)
(** * Which operations commit *)
(* ===================================================================== *)

(** Induction over JSON values that reaches the members of an object. *)
Lemma Value_members_ind (P : Json.Value → Prop) :
  P Json.nullValue →
  (∀ b, P (Json.booleanValue b)) →
  (∀ i, P (Json.intValue i)) →
  P Json.realValue →
  (∀ s, P (Json.stringValue s)) →
  (∀ items, P (Json.arrayValue items)) →
  (∀ members, Forall (fun kv => P kv.2) members → P (Json.objectValue members)) →
  ∀ v, P v.
Proof.
  intros Hnull Hbool Hint Hreal Hstr Harr Hobj. fix IH 1.
  intros [ |b|i| |s|items|members].
  - exact Hnull.
  - apply Hbool.
  - apply Hint.
  - exact Hreal.
  - apply Hstr.
  - apply Harr.
  - apply Hobj. induction members as [|[k v] ms IHms]; constructor.
    + apply IH.
    + exact IHms.
Qed.

Section CommitFacts.
Variable sep : string.

Lemma fromJSON_object (self : PM.node) (members : list (string * Json.Value))
    (clearBefore replace : bool) (st : PM.store) :
  PM.fromJSON sep self (Json.objectValue members) clearBefore replace st =
  PM.commit_or_mark self
    (foldl (member_step sep self replace) (PM.clear_if sep clearBefore self st) members).
Proof.
  simpl. f_equal. generalize (PM.clear_if sep clearBefore self st).
  induction members as [|[k v] ms IH]; intros s.
  - reflexivity.
  - simpl. rewrite <- IH. reflexivity.
Qed.

Lemma fromJSON_other (self : PM.node) (json : Json.Value)
    (clearBefore replace : bool) (st : PM.store) :
  (∀ members, json ≠ Json.objectValue members) →
  PM.fromJSON sep self json clearBefore replace st =
  PM.commit_or_mark self (PM.clear_if sep clearBefore self st).
Proof. intros Hno. destruct json; try reflexivity. now destruct (Hno members). Qed.

Lemma clear_if_commits (b : bool) (self : PM.node) (st : PM.store) :
  PM.commits (PM.clear_if sep b self st) = PM.commits st.
Proof. now destruct b. Qed.

Lemma commit_or_mark_grows (self : PM.node) (st : PM.store) :
  ∃ extra, PM.commits (PM.commit_or_mark self st).2 = PM.commits st ++ extra.
Proof.
  unfold PM.commit_or_mark. destruct (PM.locked self); simpl.
  - exists []. now rewrite app_nil_r.
  - rewrite commitChanges_spec. now eexists.
Qed.

(** [fromJSON] only ever appends to the log of commits. *)
Lemma fromJSON_grows (json : Json.Value) :
  ∀ (self : PM.node) (clearBefore replace : bool) (st : PM.store),
  ∃ extra,
    PM.commits (PM.fromJSON sep self json clearBefore replace st).2
    = PM.commits st ++ extra.
Proof.
  induction json as [ |b|i| |s|items|members IH] using Value_members_ind;
    intros self cb rep st;
    try (rewrite fromJSON_other by discriminate;
         destruct (commit_or_mark_grows self (PM.clear_if sep cb self st)) as [x Hx];
         exists x; now rewrite Hx, clear_if_commits).
  rewrite fromJSON_object.
  assert (Hloop : ∀ s, ∃ extra,
             PM.commits (foldl (member_step sep self rep) s members)
             = PM.commits s ++ extra).
  { induction IH as [|[k v] ms Hv _ IHms]; intros s; simpl.
    - exists []. now rewrite app_nil_r.
    - destruct (IHms (member_step sep self rep s (k, v))) as [x Hx].
      assert (Hstep : ∃ y, PM.commits (member_step sep self rep s (k, v))
                            = PM.commits s ++ y).
      { unfold member_step. simpl in *.
        destruct v; try (exists []; now rewrite app_nil_r).
        apply Hv. }
      destruct Hstep as [y Hy]. exists (y ++ x).
      now rewrite Hx, Hy, app_assoc. }
  destruct (Hloop (PM.clear_if sep cb self st)) as [x Hx].
  destruct (commit_or_mark_grows self
              (foldl (member_step sep self rep) (PM.clear_if sep cb self st) members))
    as [y Hy].
  exists (x ++ y). now rewrite Hy, Hx, clear_if_commits, app_assoc.
Qed.

End CommitFacts.

Lemma fromJSON_commits_unlocked (sep : string) (self : PM.node)
    (json : Json.Value) (clearBefore replace : bool) (st : PM.store) :
  PM.locked self = false →
  ∃ extra,
    PM.commits (PM.fromJSON sep self json clearBefore replace st).2
    = PM.commits st ++ extra ++ commit_chain self.
Proof.
  intros Hl. destruct json as [ |b|i| |s|items|members];
    try (rewrite fromJSON_other by discriminate;
         rewrite commit_or_mark_unlocked by exact Hl; simpl;
         exists []; now rewrite clear_if_commits).
  rewrite fromJSON_object, commit_or_mark_unlocked by exact Hl. simpl.
  set (s0 := PM.clear_if sep clearBefore self st).
  assert (Hloop : ∀ (ms : list (string * Json.Value)) s, ∃ extra,
             PM.commits (foldl (member_step sep self replace) s ms)
             = PM.commits s ++ extra).
  { induction ms as [|[k v] ms IH]; intros s; simpl.
    - exists []. now rewrite app_nil_r.
    - destruct (IH (member_step sep self replace s (k, v))) as [x Hx].
      assert (Hstep : ∃ y, PM.commits (member_step sep self replace s (k, v))
                            = PM.commits s ++ y).
      { unfold member_step. simpl.
        destruct v; try (exists []; now rewrite app_nil_r).
        apply fromJSON_grows. }
      destruct Hstep as [y Hy]. exists (y ++ x).
      now rewrite Hx, Hy, app_assoc. }
  destruct (Hloop members s0) as [x Hx]. exists x.
  rewrite Hx. subst s0. now rewrite clear_if_commits, app_assoc.
Qed.

(** C6, as the code has it.  On a node that is not locked, [set], [setNum],
    [setBool], [fromParameters] and [fromMap] of a map end with one call of
    [commitChanges] on the node; [fromJSON] ends with one as well, after the
    commits of the subgroups it went through; [filterParameter] makes one
    exactly when it rewrites the value.  [erase] and [setDefault] log no
    commit at all. *)
Theorem unlocked_writers_commit
    (sep : string) (self : PM.node) (st : PM.store)
    (k v p : string) (n : Z) (b : bool)
    (ptr : PM.node) (src m : gmap string string) (json : Json.Value)
    (clearBefore replace : bool) :
  PM.locked self = false →
  PM.commits (PM.set self k v st).2 = PM.commits st ++ commit_chain self
  ∧ PM.commits (PM.setNum self k n st).2 = PM.commits st ++ commit_chain self
  ∧ PM.commits (PM.setBool self k b st).2 = PM.commits st ++ commit_chain self
  ∧ PM.commits (PM.fromParameters sep self ptr src clearBefore replace st).2
    = PM.commits st ++ commit_chain self
  ∧ PM.commits (PM.fromMap sep self (Some m) clearBefore replace st).2
    = PM.commits st ++ commit_chain self
  ∧ (∃ extra,
       PM.commits (PM.fromJSON sep self json clearBefore replace st).2
       = PM.commits st ++ extra ++ commit_chain self)
  ∧ PM.commits (PM.filterParameter self p st).2
    = PM.commits st ++ (if filter_rewrites self p st then commit_chain self else [])
  ∧ PM.commits (PM.erase self k st).2 = PM.commits st
  ∧ PM.commits (PM.setDefault self k v st) = PM.commits st.
Proof.
  intros Hl. repeat split.
  - now rewrite set_spec, commit_or_mark_unlocked.
  - unfold PM.setNum. now rewrite set_spec, commit_or_mark_unlocked.
  - unfold PM.setBool. now rewrite set_spec, commit_or_mark_unlocked.
  - unfold PM.fromParameters.
    rewrite commit_or_mark_unlocked by exact Hl. simpl.
    now rewrite clear_if_commits.
  - unfold PM.fromMap.
    rewrite commit_or_mark_unlocked by exact Hl. simpl.
    now rewrite clear_if_commits.
  - now apply fromJSON_commits_unlocked.
  - unfold PM.filterParameter, filter_rewrites.
    destruct (PM.contains self p false st); simpl; [|now rewrite app_nil_r].
    destruct (forallb PM.safe_char _); simpl; [now rewrite app_nil_r|].
    now rewrite commit_or_mark_unlocked.
  - unfold PM.erase. now destruct (PM.parameters st !! _).
Qed.

Lemma unlocked_writers_commit_witness :
  let self := PM.Node "" false false None in
  let st := PM.Store {["k" := "a b"]} [] in
  PM.commits (PM.set self "k" "v" st).2 = [""]
  ∧ PM.commits (PM.filterParameter self "k" st).2 = [""]
  ∧ PM.commits (PM.erase self "k" st).2 = [].
Proof.
  intros self st.
  destruct (unlocked_writers_commit "/" self st "k" "v" "k" 0 true
              self ∅ ∅ Json.nullValue false true eq_refl)
    as (Hset & _ & _ & _ & _ & _ & Hfilter & Herase & _).
  split; [exact Hset|]. split; [|exact Herase].
  rewrite Hfilter. vm_compute. reflexivity.
Defined.

(** C6 as stated does not hold for [erase]: on a node that is not locked it
    removes a stored key and returns with no call of [commitChanges]. *)
Lemma erase_unlocked_commits_nothing :
  let self := PM.Node "" false false None in
  let st := PM.Store {["k" := "v"]} [] in
  PM.locked self = false
  ∧ PM.parameters st !! "k" = Some "v"
  ∧ PM.parameters (PM.erase self "k" st).2 !! "k" = None
  ∧ PM.commits (PM.erase self "k" st).2 = PM.commits st.
Proof. vm_compute. repeat split. Qed.

(* ===================================================================== *)
(** * Export with [toMap], import with [fromMap] *)
(* ===================================================================== *)

Section RoundTrip.
Variable sep : string.

Lemma foldl_map_insert_lookup (f : string → string) (l : list string)
    (out : gmap string string) (r : string) :
  foldl (fun o it => PM.map_insert o it (f it)) out l !! r =
  match out !! r with
  | Some v => Some v
  | None => if decide (r ∈ l) then Some (f r) else None
  end.
Proof.
  revert out. induction l as [|x l IH]; intros out.
  - cbn [foldl]. destruct (out !! r); [reflexivity|].
    destruct (decide (r ∈ [])) as [Hin|]; [|reflexivity].
    now apply elem_of_nil in Hin.
  - cbn [foldl]. rewrite IH, lookup_map_insert.
    destruct (out !! r) as [v|]; [reflexivity|].
    destruct (decide (x = r)) as [->|Hne].
    + destruct (decide (r ∈ r :: l)) as [|Hn]; [reflexivity|].
      destruct Hn. now left.
    + destruct (decide (r ∈ l)) as [Hin|Hin];
        destruct (decide (r ∈ x :: l)) as [Hin'|Hin']; try reflexivity.
      * destruct Hin'. now right.
      * apply elem_of_cons in Hin' as [->|?]; [now destruct Hne | now destruct Hin].
Qed.

(** What [toMap] into a cleared map holds: under each enumerated name, the
    value stored under the prefixed key. *)
Lemma toMap_lookup (self : PM.node) (st : PM.store)
    (out : gmap string string) (r : string) :
  PM.toMap sep self out true st !! r =
  if decide (r ∈ PM.enumKeys sep self st)
  then PM.parameters st !! (PM.prefix self +:+ r) else None.
Proof.
  unfold PM.toMap. rewrite foldl_map_insert_lookup, lookup_empty.
  destruct (decide (r ∈ PM.enumKeys sep self st)) as [Hin|]; [|reflexivity].
  apply elem_of_enumKeys in Hin as [[v Hv] _].
  unfold PM.map_at. now rewrite Hv.
Qed.

(** The loop of [fromMap] with [replace = true], over entries with distinct
    names: each entry ends up under its prefixed key, every other key keeps
    what it had. *)
Lemma import_loop_hit (pfx : string) (l : list (string * string))
    (m0 : gmap string string) (r v : string) :
  NoDup l.*1 → (r, v) ∈ l →
  foldl (fun m it => PM.import_entry true (pfx +:+ it.1) it.2 m) m0 l
    !! (pfx +:+ r) = Some v.
Proof.
  revert m0. induction l as [|[k w] l IH]; intros m0 Hnd Hin; [set_solver|].
  simpl in Hnd. apply NoDup_cons in Hnd as [Hk Hnd].
  apply elem_of_cons in Hin as [[= <- <-]|Hin]; simpl.
  - clear IH. unfold PM.import_entry at 2. simpl. rewrite putOnMap_insert.
    assert (Hstay : ∀ m, m !! (pfx +:+ r) = Some v →
              foldl (fun m it => PM.import_entry true (pfx +:+ it.1) it.2 m) m l
                !! (pfx +:+ r) = Some v).
    { induction l as [|[k' w'] l IHl]; intros m Hm; [exact Hm|]. simpl.
      apply IHl.
      - intros Hin. apply Hk. now right.
      - now apply NoDup_cons in Hnd as [_ ?].
      - unfold PM.import_entry. simpl. rewrite putOnMap_insert.
        rewrite lookup_insert_ne; [exact Hm|].
        intros Heq. apply app_string_inj in Heq as ->. apply Hk. now left. }
    apply Hstay. apply lookup_insert_eq.
  - now apply IH.
Qed.

Lemma import_loop_miss (pfx : string) (replace : bool)
    (l : list (string * string)) (m0 : gmap string string) (key : string) :
  (∀ r v, (r, v) ∈ l → pfx +:+ r ≠ key) →
  foldl (fun m it => PM.import_entry replace (pfx +:+ it.1) it.2 m) m0 l !! key
  = m0 !! key.
Proof.
  revert m0. induction l as [|[k w] l IH]; intros m0 Hmiss; [reflexivity|].
  simpl. rewrite IH by (intros r v Hin; apply (Hmiss r v); now right).
  unfold PM.import_entry.
  destruct (replace || bool_decide (m0 !! (pfx +:+ k) = None)); [|reflexivity].
  rewrite putOnMap_insert. apply lookup_insert_ne. apply (Hmiss k w). now left.
Qed.

(** The store a fresh node with prefix [pfx] has after [fromMap] of [map]
    with [replace = true]. *)
Lemma fromMap_fresh_lookup (pfx : string) (map : gmap string string)
    (clearBefore : bool) (r : string) :
  PM.parameters
    (PM.fromMap sep (PM.over_map ∅ pfx).1 (Some map) clearBefore true
       (PM.over_map ∅ pfx).2).2
    !! (pfx +:+ r) = map !! r.
Proof.
  unfold PM.over_map. cbn [fst snd]. unfold PM.fromMap.
  rewrite commit_or_mark_parameters.
  assert (Hclear : PM.parameters
            (PM.clear_if sep clearBefore (PM.Node pfx false false None)
               (PM.Store ∅ [])) = ∅).
  { destruct clearBefore; [|reflexivity]. unfold PM.clear_if, PM.clear.
    cbn [snd]. unfold PM.enumKeys. cbn [PM.parameters].
    now rewrite map_to_list_empty. }
  cbn [PM.parameters PM.with_parameters PM.prefix]. rewrite Hclear.
  destruct (map !! r) as [v|] eqn:Hr.
  - apply import_loop_hit.
    + apply NoDup_fst_map_to_list.
    + now apply elem_of_map_to_list.
  - rewrite import_loop_miss; [apply lookup_empty|].
    intros r' v Hin Heq. apply app_string_inj in Heq as ->.
    apply elem_of_map_to_list in Hin. congruence.
Qed.

End RoundTrip.

Lemma fromMap_prefix (sep : string) (self : PM.node)
    (map : option (gmap string string)) (cb rep : bool) (st : PM.store) :
  PM.prefix (PM.fromMap sep self map cb rep st).1 = PM.prefix self.
Proof.
  unfold PM.fromMap. destruct map; [apply commit_or_mark_prefix | reflexivity].
Qed.

(** C8.  Export the visible keys of a node with [toMap] into an empty map,
    then import that map with [fromMap], [replace = true], into a fresh node
    that has the same prefix over an empty store: the fresh node enumerates
    the same keys as the original, each once, and [get] returns the same
    value for every one of them. *)
Theorem toMap_fromMap_round_trip
    (sep : string) (self : PM.node) (st : PM.store) (clearOut clearIn : bool) :
  let exported := PM.toMap sep self ∅ clearOut st in
  let fresh := PM.over_map ∅ (PM.prefix self) in
  let imported := PM.fromMap sep fresh.1 (Some exported) clearIn true fresh.2 in
  PM.enumKeys sep imported.1 imported.2 ≡ₚ PM.enumKeys sep self st
  ∧ NoDup (PM.enumKeys sep self st)
  ∧ Forall (fun k => ∀ d : string,
              PM.get imported.1 k d false imported.2 = PM.get self k d false st)
           (PM.enumKeys sep self st).
Proof.
  intros exported fresh imported.
  assert (Hexp : exported = PM.toMap sep self ∅ true st)
    by (subst exported; now destruct clearOut).
  assert (Hpfx : PM.prefix imported.1 = PM.prefix self)
    by (subst imported; now rewrite fromMap_prefix).
  assert (Hlook : ∀ r, PM.parameters imported.2 !! (PM.prefix self +:+ r)
                       = exported !! r)
    by (intros r; subst imported fresh; apply fromMap_fresh_lookup).
  split; [|split].
  - apply NoDup_Permutation; try apply NoDup_enumKeys.
    intros r. rewrite (elem_of_enumKeys sep imported.1), Hpfx, Hlook, Hexp.
    rewrite toMap_lookup.
    destruct (decide (r ∈ PM.enumKeys sep self st)) as [Hin|Hout].
    + pose proof Hin as Hin'. apply elem_of_enumKeys in Hin' as [Hsome Hsep].
      tauto.
    + split; [|tauto]. intros [[v Hv] _]. discriminate.
  - apply NoDup_enumKeys.
  - apply Forall_forall. intros k Hin d.
    rewrite !get_plain, Hpfx, Hlook, Hexp, toMap_lookup.
    now rewrite decide_True by exact Hin.
Qed.

(* ===================================================================== *)
(** * Import with [fromJSON] *)
(* ===================================================================== *)

(** C3 at a node with a prefix.  [fromJSON] on the subgroup ["a"] of a new
    root, given the object with a string member ["x"] and an integer member
    ["n"], stores both under the bare member names: the subgroup sees
    neither, [get] on it returns the default, and the root enumerates them
    as its own.  [fromMap], given the same string member, stores it under
    the prefixed key, where the subgroup finds it. *)
Theorem fromJSON_ignores_prefix :
  let root := PM.instance.1 in
  let st := PM.instance.2 in
  let sg := PM.subgroup "/" root "a" in
  let json :=
    Json.objectValue [("x", Json.stringValue "1"); ("n", Json.intValue 7)] in
  let st' := (PM.fromJSON "/" sg json false true st).2 in
  PM.prefix sg = "a/"
  ∧ PM.get sg "x" "" false st' = ""
  ∧ PM.get sg "n" "" false st' = ""
  ∧ PM.enumKeys "/" sg st' = []
  ∧ PM.parameters st' !! "a/x" = None
  ∧ PM.parameters st' !! "x" = Some "1"
  ∧ PM.parameters st' !! "n" = Some "7"
  ∧ PM.get root "x" "" false st' = "1"
  ∧ PM.get sg "x" "" false
      (PM.fromMap "/" sg (Some {["x" := "1"]}) false true st).2 = "1".
Proof. vm_compute. repeat split. Qed.

(** The same happens one level down: the members of a nested object are
    stored at the top of the map, not inside the subgroup named after it. *)
Lemma fromJSON_nested_ignores_prefix :
  let root := PM.instance.1 in
  let st := PM.instance.2 in
  let json :=
    Json.objectValue [("o", Json.objectValue [("y", Json.stringValue "2")])] in
  let st' := (PM.fromJSON "/" root json false true st).2 in
  PM.get (PM.subgroup "/" root "o") "y" "" false st' = ""
  ∧ PM.get root "y" "" false st' = "2".
Proof. vm_compute. repeat split. Qed.

(** Members that are neither objects, strings nor integers are passed over
    and the rest of the import goes on. *)
Lemma fromJSON_skips_other_types :
  let root := PM.instance.1 in
  let st := PM.instance.2 in
  let json :=
    Json.objectValue
      [("a", Json.nullValue); ("b", Json.booleanValue true);
       ("c", Json.realValue); ("d", Json.arrayValue [Json.intValue 1]);
       ("e", Json.stringValue "kept")] in
  let st' := (PM.fromJSON "/" root json false true st).2 in
  PM.parameters st' = {["e" := "kept"]}.
Proof. vm_compute. reflexivity. Qed.

(* ===================================================================== *)
(** * The download provider: [abort] and [abortAll] *)
(* ===================================================================== *)

Lemma curl_headerfunc_control (line : string) (self : DP.provider) :
  same_control (DP.curl_headerfunc line self) self.
Proof.
  unfold DP.curl_headerfunc, same_control.
  now destruct (_ && _).
Qed.
















(* ===================================================================== *)
(** * The context image: offsets, stores and the date *)
(* ===================================================================== *)

Lemma int_wrap_id (x : Z) : - 2 ^ 31 <= x < 2 ^ 31 → ISO.int_wrap x = x.
Proof. unfold ISO.int_wrap. intros Hx. Z.div_mod_to_equations. lia. Qed.

(** The alignment loop stops at the next multiple of 2048, within its fuel. *)
Lemma align_2k_steps (fuel : nat) (x : Z) :
  0 <= x → x + 2047 < 2 ^ 31 → (- x) mod 2048 < Z.of_nat fuel →
  ISO.align_2k fuel x = x + (- x) mod 2048.
Proof.
  revert x. induction fuel as [|fuel IH]; intros x Hx Hmax Hfuel.
  - pose proof (Z.mod_pos_bound (- x) 2048). lia.
  - simpl ISO.align_2k. rewrite Z.rem_mod_nonneg by lia.
    destruct (x mod 2048 =? 0) eqn:Hr.
    + apply Z.eqb_eq in Hr. Z.div_mod_to_equations. lia.
    + apply Z.eqb_neq in Hr. rewrite int_wrap_id by lia.
      rewrite IH.
      * Z.div_mod_to_equations. lia.
      * lia.
      * Z.div_mod_to_equations. lia.
      * Z.div_mod_to_equations. lia.
Qed.

Lemma align_2k_next (x : Z) :
  0 <= x → x + 2047 < 2 ^ 31 →
  ISO.align_2k 2048 x = 2048 * ((x + 2047) / 2048).
Proof.
  intros Hx Hmax. rewrite align_2k_steps; try assumption.
  - Z.div_mod_to_equations. lia.
  - pose proof (Z.mod_pos_bound (- x) 2048). lia.
Qed.

Lemma strlen_META_DATA_CONTENT : ISO.strlen ISO.META_DATA_CONTENT = 55.
Proof. reflexivity. Qed.

Lemma strlen_README_CONTENT : ISO.strlen ISO.README_CONTENT = 489.
Proof. reflexivity. Qed.

(** The relocation block, in closed form, for payload sizes whose offsets
    fit an [int]. *)
Lemma relocate_spec (contentSize : Z) :
  0 <= contentSize → contentSize + 0x11000 < 2 ^ 31 →
  ISO.relocate contentSize =
  if 0xF800 <=? 0xF000 + contentSize then
    Some (2048 * ((0xF000 + contentSize) / 2048 + 1),
          2048 * ((0xF000 + contentSize) / 2048 + 2))
  else None.
Proof.
  intros Hlo Hhi. unfold ISO.relocate.
  rewrite strlen_META_DATA_CONTENT.
  unfold ISO.EC_USER_CONTENT_OFFSET, ISO.OS_META_CONTENT_OFFSET.
  rewrite !int_wrap_id by lia.
  rewrite Z.geb_leb.
  destruct (0xF800 <=? 0xF000 + contentSize) eqn:Hc; [|reflexivity].
  rewrite (align_2k_next (0xF000 + contentSize + 1)) by lia.
  replace ((0xF000 + contentSize + 1 + 2047) / 2048)
    with ((0xF000 + contentSize) / 2048 + 1)
    by (Z.div_mod_to_equations; lia).
  assert (Hm : 2048 * ((0xF000 + contentSize) / 2048 + 1) <= 0xF000 + contentSize + 2048)
    by (Z.div_mod_to_equations; lia).
  assert (Hm0 : 0 <= (0xF000 + contentSize) / 2048)
    by (Z.div_mod_to_equations; lia).
  rewrite int_wrap_id by lia.
  rewrite align_2k_next by lia.
  do 3 f_equal. Z.div_mod_to_equations. lia.
Qed.

(** ** Reading the image back *)

Lemma read_app (l1 l2 : list ISO.write) (i : Z) :
  ISO.read (l1 ++ l2) i =
  foldl (fun cur w =>
           if ISO.covers w i then nth (Z.to_nat (i - ISO.dst w)) (ISO.src w) 0 else cur)
        (ISO.read l1 i) l2.
Proof. unfold ISO.read. apply foldl_app. Qed.

Lemma read_later_stores_miss (l : list ISO.write) (i cur : Z) :
  Forall (fun w => ISO.covers w i = false) l →
  foldl (fun cur w =>
           if ISO.covers w i then nth (Z.to_nat (i - ISO.dst w)) (ISO.src w) 0 else cur)
        cur l = cur.
Proof.
  induction 1 as [|w l Hw _ IH]; simpl; [reflexivity|]. now rewrite Hw.
Qed.

(** The last store that covers an address decides what is read there. *)
Lemma read_last_store (l1 l2 : list ISO.write) (w : ISO.write) (i : Z) :
  ISO.covers w i = true →
  Forall (fun w' => ISO.covers w' i = false) l2 →
  ISO.read (l1 ++ w :: l2) i = nth (Z.to_nat (i - ISO.dst w)) (ISO.src w) 0.
Proof.
  intros Hw Hl2. rewrite read_app. simpl. rewrite Hw.
  now apply read_later_stores_miss.
Qed.

Lemma bytes_at_last_store (l1 l2 : list ISO.write) (w : ISO.write) (a : Z) :
  ISO.dst w <= a → a + 8 <= ISO.dst w + ISO.len w →
  Forall (clear_of a) l2 →
  bytes_at (l1 ++ w :: l2) a = table_at (ISO.src w) (a - ISO.dst w).
Proof.
  intros Hlo Hhi Hl2. unfold bytes_at, table_at.
  apply map_ext_in. intros j Hj.
  assert (Hj8 : 0 <= j < 8) by (simpl in Hj; lia).
  rewrite read_last_store.
  - f_equal. lia.
  - unfold ISO.covers. apply andb_true_intro. split; [apply Z.leb_le | apply Z.ltb_lt]; lia.
  - eapply Forall_impl; [exact Hl2|]. intros w' Hw'. unfold clear_of in Hw'.
    unfold ISO.covers. apply andb_false_iff.
    destruct Hw'; [right; apply Z.ltb_ge | left; apply Z.leb_gt]; lia.
Qed.

Lemma table_at_isosetl (x : Z) : table_at (ISO.isosetl x) 0 = ISO.isosetl x.
Proof. reflexivity. Qed.

Lemma land_255 (x : Z) : Z.land x 0xFF = x mod 256.
Proof. change 0xFF with (Z.ones 8). now rewrite Z.land_ones by lia. Qed.

(** What [isosetl] writes for a number of 32 bits, read back byte by byte. *)
Lemma isosetl_holds_number (x : Z) :
  0 <= x < 2 ^ 32 → holds_number (ISO.isosetl x) x.
Proof.
  intros Hx. unfold holds_number, ISO.isosetl, little_endian, big_endian_tail.
  cbn [nth length].
  rewrite !land_255, !Z.shiftr_div_pow2 by lia.
  change (2 ^ 8) with 256. change (2 ^ 16) with 65536.
  change (2 ^ 24) with 16777216. change (2 ^ 32) with 4294967296 in Hx.
  split; [reflexivity|]. split; [|split].
  - repeat constructor; apply Z.mod_pos_bound; lia.
  - Z.div_mod_to_equations. lia.
  - Z.div_mod_to_equations. lia.
Qed.

(** ** [build_ami_ci_cdrom], store by store *)

Lemma build_ami_ci_cdrom_stores (h : ISO.iso9660_h) (volume_id : string)
    (content : list Z) (contentSize : Z) (tmNow : ISO.tm) :
  ISO.build_ami_ci_cdrom h volume_id content contentSize tmNow =
  stores_before_D800 h volume_id contentSize tmNow
  ++ ISO.memcpy 0xD800 (ISO.AT_D800 h) (ISO.AT_D800_SIZE h)
  :: ISO.patch_extents h contentSize
  ++ ISO.copy_contents content contentSize
  ++ size_stores h contentSize.
Proof. reflexivity. Qed.

Lemma os_offsets_spec (contentSize : Z) :
  0 <= contentSize → contentSize + 0x11000 < 2 ^ 31 →
  ISO.os_offsets contentSize =
  if 0xF800 <=? 0xF000 + contentSize then
    (2048 * ((0xF000 + contentSize) / 2048 + 1),
     2048 * ((0xF000 + contentSize) / 2048 + 2))
  else (0xF800, 0x10000).
Proof.
  intros Hlo Hhi. unfold ISO.os_offsets. rewrite relocate_spec by assumption.
  now destruct (0xF800 <=? 0xF000 + contentSize).
Qed.

(** Splits a [Forall] over an explicit list into one goal for each element. *)
Ltac each_store :=
  repeat first [apply List.Forall_nil | apply List.Forall_cons].

(** No copy of content reaches below the README. *)
Lemma copy_contents_clear (content : list Z) (contentSize a : Z) :
  0 <= contentSize → contentSize + 0x11000 < 2 ^ 31 → a + 8 <= 0xE000 →
  Forall (clear_of a) (ISO.copy_contents content contentSize).
Proof.
  intros Hlo Hhi Ha. unfold ISO.copy_contents.
  rewrite os_offsets_spec by assumption.
  destruct (0xF800 <=? 0xF000 + contentSize) eqn:Hc;
    each_store; unfold clear_of; simpl; right;
    unfold ISO.README_CONTENT_OFFSET, ISO.EC_META_CONTENT_OFFSET,
      ISO.EC_USER_CONTENT_OFFSET; try lia;
    apply Z.leb_le in Hc; Z.div_mod_to_equations; lia.
Qed.

Lemma size_stores_clear (h : ISO.iso9660_h) (contentSize off : Z) :
  0 <= off →
  ISO.AT_B800_README_SIZE_OFFSET h + 8 <= 0x800 →
  ISO.AT_C800_META_DATA_SIZE_OFFSET h + 8 <= 0x800 →
  ISO.AT_C800_USER_DATA_SIZE_OFFSET h + 8 <= 0x800 →
  apart off (ISO.AT_D800_META_DATA_SIZE_OFFSET h) →
  apart off (ISO.AT_D800_USER_DATA_SIZE_OFFSET h) →
  Forall (clear_of (0xD800 + off)) (size_stores h contentSize).
Proof.
  intros Hoff Hb Hc1 Hc2 Hm Hu. unfold apart in *.
  unfold size_stores. each_store; unfold clear_of; simpl; lia.
Qed.

(** C2.  For a payload of [contentSize] bytes (its offsets fitting an
    [int]) and a header laid out as [directory_layout] says, with [endA] the
    end of the ec2 user-data, [0xF000 + contentSize]:
    - when [endA] reaches the default openstack meta-data offset [0xF800],
      the meta-data offset is the first multiple of 2048 above [endA], the
      user-data offset the first multiple of 2048 above the end of the
      meta-data, the two extent fields of the image hold, byte by byte and
      in both byte orders, the numbers of the sectors at which those offsets
      lie (the offsets divided by 2048), both offsets are whole sectors, and
      the three regions follow one another without sharing a byte;
    - otherwise the offsets are [0xF800] and [0x10000], and the two extent
      fields of the image hold the bytes of the template.
    The extent fields lie in the sector at [0xD800], below every copy of
    content, so no later store of the builder reaches them, whatever the
    size of the payload. *)
Theorem relocation_of_openstack_files
    (h : ISO.iso9660_h) (volume_id : string) (content : list Z)
    (contentSize : Z) (tmNow : ISO.tm) :
  directory_layout h →
  0 <= contentSize → contentSize + 0x11000 < 2 ^ 31 →
  let image := ISO.build_ami_ci_cdrom h volume_id content contentSize tmNow in
  let osMeta := (ISO.os_offsets contentSize).1 in
  let osUser := (ISO.os_offsets contentSize).2 in
  let endA := ISO.EC_USER_CONTENT_OFFSET + contentSize in
  let metaSize := ISO.strlen ISO.META_DATA_CONTENT in
  if ISO.OS_META_CONTENT_OFFSET <=? endA then
    osMeta = 2048 * (endA / 2048 + 1)
    ∧ osUser = 2048 * ((osMeta + metaSize) / 2048 + 1)
    ∧ holds_number
        (bytes_at image (0xD800 + ISO.AT_D800_META_EXTENT_OFFSET h))
        (osMeta / 2048)
    ∧ holds_number
        (bytes_at image (0xD800 + ISO.AT_D800_USER_EXTENT_OFFSET h))
        (osUser / 2048)
    ∧ 2048 * (osMeta / 2048) = osMeta
    ∧ 2048 * (osUser / 2048) = osUser
    ∧ endA < osMeta
    ∧ osMeta + metaSize <= osUser
  else
    osMeta = ISO.OS_META_CONTENT_OFFSET
    ∧ osUser = ISO.OS_USER_CONTENT_OFFSET
    ∧ endA < osMeta
    ∧ bytes_at image (0xD800 + ISO.AT_D800_META_EXTENT_OFFSET h)
      = table_at (ISO.AT_D800 h) (ISO.AT_D800_META_EXTENT_OFFSET h)
    ∧ bytes_at image (0xD800 + ISO.AT_D800_USER_EXTENT_OFFSET h)
      = table_at (ISO.AT_D800 h) (ISO.AT_D800_USER_EXTENT_OFFSET h).
Proof.
  intros (Hm0 & Hm1 & Hu0 & Hu1 & Hsz & Hmu & Hmm & Hmus & Hum & Huu & Hb & Hc1 & Hc2)
         Hlo Hhi image osMeta osUser endA metaSize.
  subst image osMeta osUser endA metaSize.
  rewrite build_ami_ci_cdrom_stores, os_offsets_spec by assumption.
  rewrite strlen_META_DATA_CONTENT.
  unfold ISO.patch_extents. rewrite relocate_spec by assumption.
  unfold ISO.OS_META_CONTENT_OFFSET, ISO.OS_USER_CONTENT_OFFSET,
    ISO.EC_USER_CONTENT_OFFSET.
  pose proof (copy_contents_clear content contentSize
                (0xD800 + ISO.AT_D800_META_EXTENT_OFFSET h) Hlo Hhi ltac:(lia))
    as Hcm.
  pose proof (copy_contents_clear content contentSize
                (0xD800 + ISO.AT_D800_USER_EXTENT_OFFSET h) Hlo Hhi ltac:(lia))
    as Hcu.
  pose proof (size_stores_clear h contentSize _ Hm0 Hb Hc1 Hc2 Hmm Hmus) as Hsm.
  pose proof (size_stores_clear h contentSize _ Hu0 Hb Hc1 Hc2 Hum Huu) as Hsu.
  destruct (0xF800 <=? 0xF000 + contentSize) eqn:Hc; cbn [fst snd].
  - apply Z.leb_le in Hc.
    set (q := (0xF000 + contentSize) / 2048).
    assert (Hq : 2048 * q <= 0xF000 + contentSize < 2048 * q + 2048)
      by (subst q; Z.div_mod_to_equations; lia).
    assert (Hq1 : 2048 * (q + 1) / 2048 = q + 1)
      by (Z.div_mod_to_equations; lia).
    assert (Hq2 : 2048 * (q + 2) / 2048 = q + 2)
      by (Z.div_mod_to_equations; lia).
    rewrite !Z.quot_div_nonneg by lia.
    split; [reflexivity|]. split; [Z.div_mod_to_equations; lia|].
    split; [|split; [|lia]].
    + rewrite (bytes_at_last_store
                 (stores_before_D800 h volume_id contentSize tmNow
                  ++ [ISO.memcpy 0xD800 (ISO.AT_D800 h) (ISO.AT_D800_SIZE h)])
                 ([ISO.isosetl_at (2048 * (q + 2) / 2048)
                     (0xD800 + ISO.AT_D800_USER_EXTENT_OFFSET h)]
                  ++ ISO.copy_contents content contentSize
                  ++ size_stores h contentSize)
                 (ISO.isosetl_at (2048 * (q + 1) / 2048)
                    (0xD800 + ISO.AT_D800_META_EXTENT_OFFSET h))).
      * unfold ISO.isosetl_at. cbn [ISO.dst ISO.src].
        rewrite Z.sub_diag, table_at_isosetl.
        apply isosetl_holds_number. lia.
      * simpl. lia.
      * simpl. lia.
      * apply Forall_app. split; [|apply Forall_app; split; assumption].
        each_store. unfold clear_of, apart in *. simpl. lia.
    + rewrite (bytes_at_last_store
                 (stores_before_D800 h volume_id contentSize tmNow
                  ++ [ISO.memcpy 0xD800 (ISO.AT_D800 h) (ISO.AT_D800_SIZE h);
                      ISO.isosetl_at (2048 * (q + 1) / 2048)
                        (0xD800 + ISO.AT_D800_META_EXTENT_OFFSET h)])
                 (ISO.copy_contents content contentSize
                  ++ size_stores h contentSize)
                 (ISO.isosetl_at (2048 * (q + 2) / 2048)
                    (0xD800 + ISO.AT_D800_USER_EXTENT_OFFSET h))).
      * unfold ISO.isosetl_at. cbn [ISO.dst ISO.src].
        rewrite Z.sub_diag, table_at_isosetl.
        apply isosetl_holds_number. lia.
      * simpl. lia.
      * simpl. lia.
      * apply Forall_app. split; assumption.
  - apply Z.leb_gt in Hc.
    split; [reflexivity|]. split; [reflexivity|]. split; [lia|]. split.
    + rewrite (bytes_at_last_store
                 (stores_before_D800 h volume_id contentSize tmNow)
                 (ISO.copy_contents content contentSize
                  ++ size_stores h contentSize)
                 (ISO.memcpy 0xD800 (ISO.AT_D800 h) (ISO.AT_D800_SIZE h))).
      * simpl. f_equal. lia.
      * simpl. lia.
      * simpl. lia.
      * apply Forall_app. split; assumption.
    + rewrite (bytes_at_last_store
                 (stores_before_D800 h volume_id contentSize tmNow)
                 (ISO.copy_contents content contentSize
                  ++ size_stores h contentSize)
                 (ISO.memcpy 0xD800 (ISO.AT_D800 h) (ISO.AT_D800_SIZE h))).
      * simpl. f_equal. lia.
      * simpl. lia.
      * simpl. lia.
      * apply Forall_app. split; assumption.
Qed.

Lemma relocation_of_openstack_files_witness :
  let tmNow := ISO.Tm 30 20 10 15 0 113 in
  let image :=
    ISO.build_ami_ci_cdrom ecma119_header "uuid" (repeat 65 4096) 4096 tmNow in
  let osMeta := (ISO.os_offsets 4096).1 in
  let osUser := (ISO.os_offsets 4096).2 in
  let endA := ISO.EC_USER_CONTENT_OFFSET + 4096 in
  let metaSize := ISO.strlen ISO.META_DATA_CONTENT in
  osMeta = 2048 * (endA / 2048 + 1)
  ∧ osUser = 2048 * ((osMeta + metaSize) / 2048 + 1)
  ∧ holds_number
      (bytes_at image (0xD800 + ISO.AT_D800_META_EXTENT_OFFSET ecma119_header))
      (osMeta / 2048)
  ∧ holds_number
      (bytes_at image (0xD800 + ISO.AT_D800_USER_EXTENT_OFFSET ecma119_header))
      (osUser / 2048)
  ∧ 2048 * (osMeta / 2048) = osMeta
  ∧ 2048 * (osUser / 2048) = osUser
  ∧ endA < osMeta
  ∧ osMeta + metaSize <= osUser.
Proof.
  intros tmNow.
  apply (relocation_of_openstack_files ecma119_header "uuid" (repeat 65 4096)
           4096 tmNow).
  - unfold directory_layout, apart. simpl. lia.
  - lia.
  - lia.
Defined.

(** ** The content copies and the end of the buffer *)

(** C1 at a payload of 200000 bytes, whatever the bytes are.  The combined
    content exceeds the data region, and [lDataSize] is cut down to the
    size of that region; the copies are made with [contentSize] all the
    same: the second copy of the payload starts at offset 264192, is 200000
    bytes long and ends 105792 bytes past the 358400 bytes of [bytes]. *)
Theorem copy_contents_overruns_buffer (content : list Z) :
  ISO.ami_lDataSize 200000 = ISO.CONTEXTISO_CDROM_SIZE - ISO.CONTENTS_OFFSET
  ∧ map (fun w => (ISO.dst w, ISO.len w)) (ISO.copy_contents content 200000)
    = [ (0xE000, 489); (0xE800, 55); (0xF000, 200000);
        (262144, 55); (264192, 200000) ]
  ∧ forallb (ISO.within ISO.CONTEXTISO_CDROM_SIZE)
      (ISO.copy_contents content 200000) = false
  ∧ 264192 + 200000 - ISO.CONTEXTISO_CDROM_SIZE = 105792.
Proof. vm_compute. repeat split. Qed.

(** The overrun does not need the cap to be reached: with 150000 bytes the
    combined content is below the size of the data region and the last copy
    still ends past the buffer. *)
Lemma copy_contents_overruns_below_cap (content : list Z) :
  ISO.ami_lDataSize 150000 = 300599
  ∧ 300599 < ISO.CONTEXTISO_CDROM_SIZE - ISO.CONTENTS_OFFSET
  ∧ forallb (ISO.within ISO.CONTEXTISO_CDROM_SIZE)
      (ISO.copy_contents content 150000) = false.
Proof. vm_compute. repeat split. Qed.

(** [build_simple_cdrom] copies [lDataSize] bytes: never more than the data
    region holds, and never past the end of the buffer. *)
Lemma copy_buffer_fits (buffer : list Z) (size : Z) :
  0 <= size →
  ISO.len (ISO.copy_buffer buffer size)
    <= ISO.CONTEXTISO_CDROM_SIZE - ISO.CONTENTS_OFFSET
  ∧ ISO.len (ISO.copy_buffer buffer size) <= size
  ∧ ISO.within ISO.CONTEXTISO_CDROM_SIZE (ISO.copy_buffer buffer size) = true.
Proof.
  intros Hsize.
  assert (Hl : 0 <= ISO.simple_lDataSize size <= 309248
               ∧ ISO.simple_lDataSize size <= size).
  { unfold ISO.simple_lDataSize, ISO.CONTEXTISO_CDROM_SIZE, ISO.CONTENTS_OFFSET.
    destruct (size >? 358400 - 49152) eqn:Hcap.
    - apply Z.gtb_gt in Hcap. lia.
    - rewrite Z.gtb_ltb in Hcap. apply Z.ltb_ge in Hcap. lia. }
  unfold ISO.copy_buffer, ISO.memcpy, ISO.within, ISO.size_t_of. simpl.
  change (2 ^ 64) with 18446744073709551616.
  rewrite Z.mod_small by lia.
  unfold ISO.CONTEXTISO_CDROM_SIZE, ISO.CONTENTS_OFFSET.
  repeat split; lia.
Qed.

(** ** The date of the primary volume descriptor *)

(** C9 on 15 January 2013, 10:20:30 UTC ([tm_mon = 0], [tm_year = 113]).
    The string both builders copy into the creation, modification and
    effective dates reads ["20130015102030000"]: its month digits are
    ["00"], [tm_mon] as it is, not the calendar month ["01"]; and over a
    year the digits run from ["00"] to ["11"]. *)
Theorem dateNow_month_is_tm_mon :
  let tmNow := ISO.Tm 30 20 10 15 0 113 in
  ISO.dateNow tmNow = "20130015102030000"
  ∧ substring 4 2 (ISO.dateNow tmNow) = ISO.fmt_u 2 (ISO.tm_mon tmNow)
  ∧ substring 4 2 (ISO.dateNow tmNow) ≠ ISO.fmt_u 2 (ISO.tm_mon tmNow + 1)
  ∧ map (fun mon => substring 4 2 (ISO.dateNow (ISO.Tm 30 20 10 15 mon 113)))
        (seqZ 0 12)
    = ["00"; "01"; "02"; "03"; "04"; "05"; "06"; "07"; "08"; "09"; "10"; "11"]
  ∧ ∀ (h : ISO.iso9660_h) (template : list Z) (n : Z) (volume_id : string),
      let date := ISO.bytes_of (ISO.dateNow tmNow) in
      ISO.memcpy (ISO.creation_date_at h) date 17
        ∈ ISO.prepare_primary h template n volume_id tmNow
      ∧ ISO.memcpy (ISO.modification_date_at h) date 17
        ∈ ISO.prepare_primary h template n volume_id tmNow
      ∧ ISO.memcpy (ISO.effective_date_at h) date 17
        ∈ ISO.prepare_primary h template n volume_id tmNow.
Proof.
  intros tmNow. split; [reflexivity|]. split; [reflexivity|].
  split; [vm_compute; discriminate|]. split; [reflexivity|].
  intros h template n volume_id date. unfold ISO.prepare_primary.
  repeat split; set_solver.
Qed.

(** The month digits as they end up in the image of either builder, on the
    header [ecma119_header]: bytes 4 and 5 of the creation date. *)
Lemma image_month_digits :
  let tmNow := ISO.Tm 30 20 10 15 0 113 in
  let ami := ISO.build_ami_ci_cdrom ecma119_header "uuid" [65; 66] 2 tmNow in
  let simple :=
    ISO.build_simple_cdrom ecma119_header "uuid" "context.sh" [65; 66] 2 tmNow in
  let month_at := ISO.PRIMARY_DESCRIPTOR_OFFSET + 813 + 4 in
  map (ISO.read ami) [month_at; month_at + 1] = ISO.bytes_of "00"
  ∧ map (ISO.read simple) [month_at; month_at + 1] = ISO.bytes_of "00".
Proof. vm_compute. split; reflexivity. Qed.

(* ===================================================================== *)
(** * More about the parameter store *)
(* ===================================================================== *)

Lemma app_string_assoc (a b c : string) : (a +:+ b) +:+ c = a +:+ (b +:+ c).
Proof.
  induction a as [|x a IH]; [reflexivity|].
  rewrite !app_String. now rewrite IH.
Qed.

Lemma prefix_app (p r : string) : String.prefix p (p +:+ r) = true.
Proof.
  induction p as [|c p IH]; [now destruct r|].
  rewrite app_String. simpl. destruct (ascii_dec c c); [exact IH | congruence].
Qed.

Lemma index_of_prefix (sep s : string) :
  String.prefix sep s = true → index 0 sep s = Some 0%nat.
Proof.
  intros Hp. destruct s as [|x s].
  - destruct sep; [reflexivity | discriminate].
  - change (index 0 sep (String x s))
      with (if String.prefix sep (String x s) then Some 0%nat
            else match index 0 sep s with
                 | Some n => Some (S n)
                 | None => None
                 end).
    now rewrite Hp.
Qed.

(** A name that goes through a subgroup holds the separator. *)
Lemma index_sep_found (sep a rest : string) :
  index 0 sep (a +:+ sep +:+ rest) ≠ None.
Proof.
  induction a as [|c a IH].
  - rewrite app_empty_l, (index_of_prefix _ _ (prefix_app sep rest)). discriminate.
  - rewrite app_String.
    change (index 0 sep (String c (a +:+ sep +:+ rest)))
      with (if String.prefix sep (String c (a +:+ sep +:+ rest)) then Some 0%nat
            else match index 0 sep (a +:+ sep +:+ rest) with
                 | Some n => Some (S n)
                 | None => None
                 end).
    destruct (String.prefix sep (String c (a +:+ sep +:+ rest))); [discriminate|].
    destruct (index 0 sep (a +:+ sep +:+ rest)); [discriminate | contradiction].
Qed.

Lemma subgroup_prefix (sep : string) (self : PM.node) (name : string) :
  PM.prefix (PM.subgroup sep self name) = PM.prefix self +:+ name +:+ sep.
Proof. reflexivity. Qed.

Lemma set_parameters (self : PM.node) (k v : string) (st : PM.store) :
  PM.parameters (PM.set self k v st).2
  = <[PM.prefix self +:+ k := v]> (PM.parameters st).
Proof. now rewrite set_spec, commit_or_mark_parameters. Qed.

(** X1.  [erase(k)] makes the key absent for the node: [get] returns the
    default and [contains] is false, whether or not the key was there; every
    other key of the shared map keeps what it had. *)
Theorem erase_forgets_one_key
    (self : PM.node) (st : PM.store) (k d : string) (useBlank : bool) :
  let st' := (PM.erase self k st).2 in
  PM.get self k d false st' = d
  ∧ PM.contains self k useBlank st' = false
  ∧ ∀ key : string, key ≠ PM.prefix self +:+ k →
      PM.parameters st' !! key = PM.parameters st !! key.
Proof.
  intros st'.
  assert (Hgone : PM.parameters st' !! (PM.prefix self +:+ k) = None).
  { subst st'. unfold PM.erase.
    destruct (PM.parameters st !! (PM.prefix self +:+ k)) eqn:Hk; simpl.
    - apply lookup_delete_eq.
    - exact Hk. }
  split; [|split].
  - now rewrite get_plain, Hgone.
  - unfold PM.contains. rewrite Hgone.
    rewrite bool_decide_eq_false_2 by (now intros [? ?]). reflexivity.
  - intros key Hne. subst st'. unfold PM.erase.
    destruct (PM.parameters st !! (PM.prefix self +:+ k)); simpl; [|reflexivity].
    now apply lookup_delete_ne.
Qed.

(** X2.  A boolean written with [setBool] is read back by [getBool],
    whatever default the reader passes; the stored string is ["y"] or
    ["n"]. *)
Theorem setBool_getBool_round_trip
    (self : PM.node) (st : PM.store) (k : string) (b dflt : bool) :
  let s := PM.setBool self k b st in
  PM.getBool s.1 k dflt s.2 = b
  ∧ PM.get s.1 k "" false s.2 = (if b then "y" else "n").
Proof.
  intros s. subst s. unfold PM.setBool, PM.getBool.
  rewrite !get_plain, set_spec, commit_or_mark_prefix, commit_or_mark_parameters.
  simpl. rewrite lookup_insert_eq. simpl. now destruct b.
Qed.

(** X3.  A subgroup is a window on the shared map: what is [set] through
    [subgroup(name)] under [k] is what the parent reads under
    [name + separator + k]; the parent never enumerates that name, and the
    subgroup enumerates [k] as soon as [k] itself is free of the separator. *)
Theorem subgroup_shares_the_map
    (sep : string) (self : PM.node) (st : PM.store) (name k v d : string) :
  let sg := PM.subgroup sep self name in
  let s := PM.set sg k v st in
  PM.get self (name +:+ sep +:+ k) d false s.2 = v
  ∧ ((name +:+ sep +:+ k) ∉ PM.enumKeys sep self s.2)
  ∧ (index 0 sep k = None → k ∈ PM.enumKeys sep s.1 s.2).
Proof.
  intros sg s.
  assert (Hset : PM.parameters s.2 !! (PM.prefix self +:+ name +:+ sep +:+ k) = Some v).
  { subst s. rewrite set_parameters. subst sg. rewrite subgroup_prefix.
    rewrite !app_string_assoc. apply lookup_insert_eq. }
  split; [|split].
  - now rewrite get_plain, Hset.
  - intros Hin. apply elem_of_enumKeys in Hin as [_ Hsep].
    now apply index_sep_found in Hsep.
  - intros Hk. apply elem_of_enumKeys. split; [|exact Hk].
    assert (Hpre : PM.prefix s.1 = PM.prefix sg)
      by (subst s; rewrite set_spec; apply commit_or_mark_prefix).
    rewrite Hpre. subst s. rewrite set_parameters, lookup_insert_eq. eauto.
Qed.

(** X4.  Subgroups nest by concatenating prefixes: a node reached through
    [subgroup(a)] and then [subgroup(b)] enumerates exactly the names [r],
    free of the separator, for which the map holds the key
    [prefix + a + separator + b + separator + r]; and a value [set] through
    it is read by [subgroup(a)] under [b + separator + k]. *)
Theorem nested_subgroups_compose
    (sep : string) (self : PM.node) (st : PM.store) (a b r k v d : string) :
  let inner := PM.subgroup sep (PM.subgroup sep self a) b in
  (r ∈ PM.enumKeys sep inner st ↔
     (is_Some (PM.parameters st
                 !! (PM.prefix self +:+ a +:+ sep +:+ b +:+ sep +:+ r))
      ∧ index 0 sep r = None))
  ∧ PM.get (PM.subgroup sep self a) (b +:+ sep +:+ k) d false
      (PM.set inner k v st).2 = v.
Proof.
  intros inner.
  assert (Hp : ∀ x, PM.prefix inner +:+ x
                    = PM.prefix self +:+ a +:+ sep +:+ b +:+ sep +:+ x).
  { intros x. subst inner. rewrite !subgroup_prefix.
    now rewrite !app_string_assoc. }
  split.
  - now rewrite elem_of_enumKeys, Hp.
  - rewrite get_plain, set_parameters, Hp, subgroup_prefix.
    rewrite !app_string_assoc. now rewrite lookup_insert_eq.
Qed.

Lemma delete_loop_hit (pfx : string) (l : list string)
    (m : gmap string string) (r : string) :
  r ∈ l → foldl (fun m k => delete (pfx +:+ k) m) m l !! (pfx +:+ r) = None.
Proof.
  revert m. induction l as [|x l IH]; intros m Hin; [now apply elem_of_nil in Hin|].
  cbn [foldl]. destruct (decide (r ∈ l)) as [Hl|Hl]; [now apply IH|].
  apply elem_of_cons in Hin as [->|Hin]; [|contradiction].
  clear IH Hl. revert m. induction l as [|y l IH]; intros m; cbn [foldl].
  - apply lookup_delete_eq.
  - destruct (decide (pfx +:+ y = pfx +:+ x)) as [Heq|Hne].
    + rewrite Heq, delete_delete_eq. apply IH.
    + rewrite delete_delete. apply IH.
Qed.

Lemma delete_loop_miss (pfx : string) (l : list string)
    (m : gmap string string) (key : string) :
  (∀ r, r ∈ l → pfx +:+ r ≠ key) →
  foldl (fun m k => delete (pfx +:+ k) m) m l !! key = m !! key.
Proof.
  revert m. induction l as [|x l IH]; intros m Hmiss; [reflexivity|].
  cbn [foldl]. rewrite IH by (intros r Hr; apply Hmiss; now right).
  apply lookup_delete_ne. apply Hmiss. now left.
Qed.

(** X5.  [clear()] erases the keys the node enumerates and nothing else:
    afterwards the node enumerates no key, while every key of the map that
    the node did not enumerate (a key under another prefix, or a key of one
    of its subgroups) keeps its value; and [clear()] commits nothing. *)
Theorem clear_erases_enumerated_keys_only
    (sep : string) (self : PM.node) (st : PM.store) :
  let st' := (PM.clear sep self st).2 in
  PM.enumKeys sep self st' = []
  ∧ (∀ key, PM.visible sep (PM.prefix self) key = None →
       PM.parameters st' !! key = PM.parameters st !! key)
  ∧ (∀ name k, PM.parameters st' !! (PM.prefix self +:+ name +:+ sep +:+ k)
               = PM.parameters st !! (PM.prefix self +:+ name +:+ sep +:+ k))
  ∧ PM.commits st' = PM.commits st.
Proof.
  intros st'.
  assert (Hkeep : ∀ key, PM.visible sep (PM.prefix self) key = None →
            PM.parameters st' !! key = PM.parameters st !! key).
  { intros key Hv. subst st'. unfold PM.clear. simpl.
    apply delete_loop_miss. intros r Hr <-.
    apply elem_of_enumKeys in Hr as [_ Hsep].
    assert (PM.visible sep (PM.prefix self) (PM.prefix self +:+ r) = Some r)
      by (apply visible_Some; auto).
    congruence. }
  split; [|split; [exact Hkeep|split; [|reflexivity]]].
  - destruct (PM.enumKeys sep self st') as [|r l] eqn:He; [reflexivity|].
    assert (Hin : r ∈ PM.enumKeys sep self st') by (rewrite He; now left).
    apply elem_of_enumKeys in Hin as [[v Hv] Hsep].
    destruct (decide (r ∈ PM.enumKeys sep self st)) as [Hold|Hold].
    + subst st'. unfold PM.clear in Hv. simpl in Hv.
      rewrite delete_loop_hit in Hv by exact Hold. discriminate.
    + subst st'. unfold PM.clear in Hv. simpl in Hv.
      rewrite delete_loop_miss in Hv.
      * destruct Hold. apply elem_of_enumKeys. eauto.
      * intros r' Hr' Heq. apply app_string_inj in Heq as ->. contradiction.
  - intros name k. apply Hkeep.
    destruct (PM.visible sep (PM.prefix self)
                (PM.prefix self +:+ name +:+ sep +:+ k)) as [r|] eqn:Hv;
      [|reflexivity].
    apply visible_Some in Hv as [Heq Hsep].
    apply app_string_inj in Heq as <-. now apply index_sep_found in Hsep.
Qed.

Lemma safe_char_underscore : PM.safe_char "_"%char = true.
Proof. reflexivity. Qed.

Lemma sanitize_safe (k : string) :
  forallb PM.safe_char (list_ascii_of_string (PM.sanitize k)) = true.
Proof.
  induction k as [|c k IH]; [reflexivity|]. simpl.
  rewrite IH, andb_true_r.
  destruct (PM.safe_char c) eqn:Hc; [exact Hc | exact safe_char_underscore].
Qed.

Lemma sanitize_id (k : string) :
  forallb PM.safe_char (list_ascii_of_string k) = true → PM.sanitize k = k.
Proof.
  induction k as [|c k IH]; [reflexivity|]. simpl.
  intros H. apply andb_prop in H as [Hc Hk]. now rewrite Hc, IH.
Qed.

(** X6.  Strict [get] looks up the key with every character outside the
    safe set replaced by ['_'].  For a key of safe characters it is the
    plain [get], so it reads back what [set] stored; for a key that holds
    an unsafe character it does not see the value [set] stored under that
    key: it still reads what the map held under the replaced key. *)
Theorem strict_get_replaces_unsafe_characters
    (self : PM.node) (st : PM.store) (k v d : string) :
  let s := PM.set self k v st in
  PM.get self k d true st = PM.get self (PM.sanitize k) d false st
  ∧ PM.sanitize (PM.sanitize k) = PM.sanitize k
  ∧ (forallb PM.safe_char (list_ascii_of_string k) = true →
       PM.get s.1 k d true s.2 = v)
  ∧ (forallb PM.safe_char (list_ascii_of_string k) = false →
       PM.get s.1 k d true s.2 = PM.get self (PM.sanitize k) d false st).
Proof.
  intros s. split; [reflexivity|]. split; [apply sanitize_id, sanitize_safe|].
  assert (Hget : PM.get s.1 k d true s.2
                 = default d (<[PM.prefix self +:+ k := v]> (PM.parameters st)
                                !! (PM.prefix self +:+ PM.sanitize k))).
  { change (PM.get s.1 k d true s.2) with (PM.get s.1 (PM.sanitize k) d false s.2).
    rewrite get_plain. subst s.
    now rewrite set_spec, commit_or_mark_prefix, commit_or_mark_parameters. }
  split; intros Hk; rewrite Hget.
  - rewrite (sanitize_id k Hk). now rewrite lookup_insert_eq.
  - rewrite get_plain, lookup_insert_ne; [reflexivity|].
    intros Heq. apply app_string_inj in Heq.
    rewrite Heq, sanitize_safe in Hk. discriminate.
Qed.

Lemma strip_unsafe_safe (v : string) :
  forallb PM.safe_char (list_ascii_of_string (PM.strip_unsafe v)) = true.
Proof.
  induction v as [|c v IH]; [reflexivity|]. simpl.
  destruct (PM.safe_char c) eqn:Hc; [|exact IH]. simpl. now rewrite Hc.
Qed.

Lemma strip_unsafe_id (v : string) :
  forallb PM.safe_char (list_ascii_of_string v) = true → PM.strip_unsafe v = v.
Proof.
  induction v as [|c v IH]; [reflexivity|]. simpl.
  intros H. apply andb_prop in H as [Hc Hv]. now rewrite Hc, IH.
Qed.

Lemma contains_plain (self : PM.node) (k : string) (st : PM.store) :
  PM.contains self k false st
  = bool_decide (is_Some (PM.parameters st !! (PM.prefix self +:+ k))).
Proof. unfold PM.contains. now rewrite andb_false_r. Qed.

Lemma filter_rewrites_spec (self : PM.node) (p : string) (st : PM.store) :
  filter_rewrites self p st =
  match PM.parameters st !! (PM.prefix self +:+ p) with
  | Some v => negb (forallb PM.safe_char (list_ascii_of_string v))
  | None => false
  end.
Proof.
  unfold filter_rewrites. rewrite contains_plain, get_plain.
  now destruct (PM.parameters st !! (PM.prefix self +:+ p)) as [v|].
Qed.

Lemma filterParameter_spec (self : PM.node) (p : string) (st : PM.store) :
  PM.filterParameter self p st =
  match PM.parameters st !! (PM.prefix self +:+ p) with
  | Some v =>
      if forallb PM.safe_char (list_ascii_of_string v) then (true, self, st)
      else
        let s :=
          PM.commit_or_mark self
            (PM.with_parameters
               (<[PM.prefix self +:+ p := PM.strip_unsafe v]> (PM.parameters st))
               st) in
        (negb (bool_decide (PM.strip_unsafe v = "")), s.1, s.2)
  | None => (true, self, st)
  end.
Proof.
  unfold PM.filterParameter. rewrite contains_plain, get_plain.
  destruct (PM.parameters st !! (PM.prefix self +:+ p)) as [v|] eqn:Hv;
    [|reflexivity].
  cbn [default negb bool_decide]. simpl.
  destruct (forallb PM.safe_char (list_ascii_of_string v)); simpl; [reflexivity|].
  rewrite (putOnMap_insert (PM.parameters st)).
  now destruct (PM.commit_or_mark self _).
Qed.

(** X7.  [filterParameter(p)] leaves under [p] the stored value without its
    unsafe characters (a missing parameter stays missing) and touches no
    other key; the value it leaves holds safe characters only, so a second
    call finds nothing to rewrite.  It answers [false] exactly when the
    stored value held an unsafe character and nothing of it is left. *)
Theorem filterParameter_strips_the_value
    (self : PM.node) (st : PM.store) (p : string) :
  let r := PM.filterParameter self p st in
  let key := PM.prefix self +:+ p in
  PM.parameters r.2 !! key = PM.strip_unsafe <$> PM.parameters st !! key
  ∧ (∀ other, other ≠ key →
       PM.parameters r.2 !! other = PM.parameters st !! other)
  ∧ filter_rewrites r.1.2 p r.2 = false
  ∧ r.1.1 = negb (filter_rewrites self p st
                  && bool_decide (PM.strip_unsafe (PM.get self p "" false st) = "")).
Proof.
  intros r key. subst r key.
  rewrite filterParameter_spec, (filter_rewrites_spec self), get_plain.
  destruct (PM.parameters st !! (PM.prefix self +:+ p)) as [v|] eqn:Hv;
    cbn [default fmap option_fmap option_map].
  2:{ cbn [fst snd]. rewrite filter_rewrites_spec, Hv. repeat split; exact Hv. }
  destruct (forallb PM.safe_char (list_ascii_of_string v)) eqn:Hsafe;
    cbn [fst snd negb andb].
  - rewrite filter_rewrites_spec, Hv, Hsafe, (strip_unsafe_id v Hsafe).
    repeat split; exact Hv.
  - rewrite filter_rewrites_spec, commit_or_mark_prefix,
      commit_or_mark_parameters.
    cbn [PM.parameters PM.with_parameters]. rewrite lookup_insert_eq.
    rewrite strip_unsafe_safe.
    repeat split. intros other Hne. now apply lookup_insert_ne.
Qed.

(** What the import loop leaves under a prefixed key, for entries with
    distinct names: with [replace] an entry of the list wins over what the
    map held, without it what the map held wins. *)
Lemma import_loop_lookup (pfx : string) (replace : bool)
    (l : list (string * string)) (m0 : gmap string string) (r : string) :
  NoDup l.*1 →
  foldl (fun m it => PM.import_entry replace (pfx +:+ it.1) it.2 m) m0 l
    !! (pfx +:+ r) =
  match (list_to_map l : gmap string string) !! r, m0 !! (pfx +:+ r) with
  | Some v, Some old => Some (if replace then v else old)
  | Some v, None => Some v
  | None, old => old
  end.
Proof.
  revert m0. induction l as [|[k w] l IH]; intros m0 Hnd.
  - cbn [foldl list_to_map foldr]. rewrite lookup_empty.
    now destruct (m0 !! (pfx +:+ r)).
  - simpl in Hnd. apply NoDup_cons in Hnd as [Hk Hnd].
    cbn [foldl list_to_map foldr fst snd uncurry].
    destruct (decide (k = r)) as [->|Hne].
    + rewrite lookup_insert_eq.
      rewrite import_loop_miss.
      * unfold PM.import_entry.
        destruct (m0 !! (pfx +:+ r)) as [old|] eqn:Hold.
        -- rewrite bool_decide_eq_false_2 by congruence. rewrite orb_false_r.
           destruct replace; [|exact Hold].
           rewrite putOnMap_insert. apply lookup_insert_eq.
        -- rewrite bool_decide_eq_true_2 by reflexivity. rewrite orb_true_r.
           rewrite putOnMap_insert. apply lookup_insert_eq.
      * intros r' v Hin Heq. apply app_string_inj in Heq as ->.
        apply Hk. apply list_elem_of_fmap. now exists (r, v).
    + rewrite lookup_insert_ne by exact Hne. rewrite IH by exact Hnd.
      assert (Hsame : PM.import_entry replace (pfx +:+ k) w m0 !! (pfx +:+ r)
                      = m0 !! (pfx +:+ r)).
      { unfold PM.import_entry.
        destruct (replace || bool_decide (m0 !! (pfx +:+ k) = None)); [|reflexivity].
        rewrite putOnMap_insert. apply lookup_insert_ne.
        intros Heq. now apply app_string_inj in Heq. }
      now rewrite Hsame.
Qed.

(** X8.  [fromMap] without [clearBefore]: under each prefixed key the node
    ends up with the entry of the imported map when there is one and
    [replace] is set or the key was absent, and with what it had otherwise;
    keys that are not the prefix followed by a name of the imported map are
    left alone. *)
Theorem fromMap_merges_entries
    (sep : string) (self : PM.node) (st : PM.store)
    (map : gmap string string) (replace : bool) (r : string) :
  let st' := (PM.fromMap sep self (Some map) false replace st).2 in
  PM.parameters st' !! (PM.prefix self +:+ r) =
    match map !! r, PM.parameters st !! (PM.prefix self +:+ r) with
    | Some v, Some old => Some (if replace then v else old)
    | Some v, None => Some v
    | None, old => old
    end
  ∧ ∀ key, (∀ name, is_Some (map !! name) → PM.prefix self +:+ name ≠ key) →
      PM.parameters st' !! key = PM.parameters st !! key.
Proof.
  intros st'. subst st'. unfold PM.fromMap.
  rewrite commit_or_mark_parameters. cbn [PM.clear_if PM.parameters PM.with_parameters].
  split.
  - rewrite import_loop_lookup by apply NoDup_fst_map_to_list.
    now rewrite list_to_map_to_list.
  - intros key Hmiss. apply import_loop_miss. intros name v Hin.
    apply Hmiss. apply elem_of_map_to_list in Hin. eauto.
Qed.

(** X9.  [fromParameters] with [replace] and without [clearBefore]: for
    every name the source node enumerates, the node ends up holding, under
    its own prefix, what the source map holds under the bare name (its
    [operator[]], so the empty string when there is nothing); for a source
    node with the empty prefix that is the source's value of the name.
    Prefixed keys of names the source does not enumerate are left alone. *)
Theorem fromParameters_copies_enumerated_names
    (sep : string) (self ptr : PM.node) (src : gmap string string)
    (st : PM.store) (r : string) :
  let st' := (PM.fromParameters sep self ptr src false true st).2 in
  (r ∈ PM.enumKeys sep ptr (PM.Store src []) →
     PM.parameters st' !! (PM.prefix self +:+ r) = Some (PM.map_at src r))
  ∧ (r ∈ PM.enumKeys sep ptr (PM.Store src []) → PM.prefix ptr = "" →
     PM.parameters st' !! (PM.prefix self +:+ r) = src !! r)
  ∧ (r ∉ PM.enumKeys sep ptr (PM.Store src []) →
     PM.parameters st' !! (PM.prefix self +:+ r)
     = PM.parameters st !! (PM.prefix self +:+ r)).
Proof.
  intros st'.
  set (keys := PM.enumKeys sep ptr (PM.Store src [])).
  set (entries := (fun it => (it, PM.map_at src it)) <$> keys).
  assert (Hst : PM.parameters st' =
                foldl (fun m it => PM.import_entry true (PM.prefix self +:+ it.1) it.2 m)
                      (PM.parameters st) entries).
  { subst st'. unfold PM.fromParameters.
    rewrite commit_or_mark_parameters.
    cbn [PM.clear_if PM.parameters PM.with_parameters].
    subst entries. fold keys. now rewrite foldl_fmap. }
  assert (Hfst : entries.*1 = keys).
  { subst entries. rewrite <- list_fmap_compose. apply list_fmap_id. }
  assert (Hnd : NoDup entries.*1) by (rewrite Hfst; apply NoDup_enumKeys).
  assert (Hhit : r ∈ keys →
            PM.parameters st' !! (PM.prefix self +:+ r) = Some (PM.map_at src r)).
  { intros Hin. rewrite Hst, import_loop_lookup by exact Hnd.
    assert (He : (list_to_map entries : gmap string string) !! r
                 = Some (PM.map_at src r)).
    { apply elem_of_list_to_map_1; [exact Hnd|].
      subst entries. apply list_elem_of_fmap. now exists r. }
    rewrite He. now destruct (PM.parameters st !! (PM.prefix self +:+ r)). }
  split; [exact Hhit|]. split.
  - intros Hin Hp. rewrite Hhit by exact Hin.
    apply elem_of_enumKeys in Hin as [[v Hv] _]. simpl in Hv.
    rewrite Hp, app_empty_l in Hv. unfold PM.map_at. now rewrite Hv.
  - intros Hout. rewrite Hst. apply import_loop_miss.
    intros name v Hin Heq. apply app_string_inj in Heq as ->.
    apply Hout. fold keys. rewrite <- Hfst. apply list_elem_of_fmap.
    now exists (r, v).
Qed.

(** X10.  [toMap] without [clearBefore] adds to the target map: an entry
    the target already had keeps its value, a name the node enumerates and
    the target lacked gets the node's value, and no other name appears. *)
Theorem toMap_adds_missing_entries
    (sep : string) (self : PM.node) (st : PM.store)
    (out : gmap string string) (r : string) :
  PM.toMap sep self out false st !! r =
  match out !! r with
  | Some kept => Some kept
  | None =>
      if decide (r ∈ PM.enumKeys sep self st)
      then PM.parameters st !! (PM.prefix self +:+ r) else None
  end.
Proof.
  unfold PM.toMap. rewrite foldl_map_insert_lookup.
  destruct (out !! r); [reflexivity|].
  destruct (decide (r ∈ PM.enumKeys sep self st)) as [Hin|]; [|reflexivity].
  apply elem_of_enumKeys in Hin as [[v Hv] _].
  unfold PM.map_at. now rewrite Hv.
Qed.

(** X11.  [lock()] is not counted: a second [lock()] forgets that the node
    was written to.  [lock()], any writes, [lock()] again and [unlock()]
    commit nothing, although the writes are in the map. *)
Theorem second_lock_forgets_pending_writes
    (self : PM.node) (st : PM.store) (cs : list write_call) :
  let written := run_writes (PM.lock self, st) cs in
  let after := PM.unlock (PM.lock written.1) written.2 in
  PM.commits after.2 = PM.commits st
  ∧ PM.parameters after.2 = PM.parameters written.2
  ∧ PM.locked after.1 = false.
Proof.
  intros written after.
  destruct (run_writes_locked cs (PM.lock self, st) eq_refl)
    as (_ & _ & _ & Hc & _).
  fold written in Hc. simpl in Hc.
  subst after. rewrite unlock_spec. simpl. auto.
Qed.

Lemma member_loop_grows (sep : string) (self : PM.node) (replace : bool)
    (ms : list (string * Json.Value)) (s : PM.store) :
  ∃ extra,
    PM.commits (foldl (member_step sep self replace) s ms)
    = PM.commits s ++ extra.
Proof.
  revert s. induction ms as [|[k v] ms IH]; intros s; simpl.
  - exists []. now rewrite app_nil_r.
  - destruct (IH (member_step sep self replace s (k, v))) as [x Hx].
    assert (Hstep : ∃ y, PM.commits (member_step sep self replace s (k, v))
                          = PM.commits s ++ y).
    { unfold member_step. simpl.
      destruct v; try (exists []; now rewrite app_nil_r).
      apply fromJSON_grows. }
    destruct Hstep as [y Hy]. exists (y ++ x).
    now rewrite Hx, Hy, app_assoc.
Qed.

(** X12.  The lock does not hold back the commits of nested objects:
    [fromJSON] of an object with an object-valued member [k] calls
    [commitChanges] on the subgroup [k], hence on the node itself and on its
    ancestors, whether or not the node is locked. *)
Theorem fromJSON_commits_through_subgroups
    (sep : string) (self : PM.node) (st : PM.store)
    (before after : list (string * Json.Value)) (k : string)
    (inner : list (string * Json.Value)) (clearBefore replace : bool) :
  let json :=
    Json.objectValue (before ++ (k, Json.objectValue inner) :: after) in
  ∃ earlier later,
    PM.commits (PM.fromJSON sep self json clearBefore replace st).2
    = PM.commits st ++ earlier
      ++ (PM.prefix self +:+ k +:+ sep) :: commit_chain self ++ later.
Proof.
  intros json. subst json. rewrite fromJSON_object, foldl_app. cbn [foldl].
  set (s0 := foldl (member_step sep self replace)
               (PM.clear_if sep clearBefore self st) before).
  destruct (member_loop_grows sep self replace before
              (PM.clear_if sep clearBefore self st)) as [e0 He0].
  fold s0 in He0. rewrite clear_if_commits in He0.
  set (s1 := member_step sep self replace s0 (k, Json.objectValue inner)).
  assert (Hs1 : ∃ e1, PM.commits s1
                      = PM.commits s0 ++ e1
                        ++ (PM.prefix self +:+ k +:+ sep) :: commit_chain self).
  { subst s1. unfold member_step. cbn [fst snd].
    destruct (fromJSON_commits_unlocked sep (PM.subgroup sep self k)
                (Json.objectValue inner) false true s0 eq_refl) as [e1 He1].
    exists e1. rewrite He1. destruct self; reflexivity. }
  destruct Hs1 as [e1 He1].
  destruct (member_loop_grows sep self replace after s1) as [e2 He2].
  destruct (commit_or_mark_grows self
              (foldl (member_step sep self replace) s1 after)) as [e3 He3].
  exists (e0 ++ e1), (e2 ++ e3).
  rewrite He3, He2, He1, He0. rewrite <- ?app_assoc. simpl.
  now rewrite <- ?app_assoc.
Qed.

(* ===================================================================== *)
(** * More about the [HVSession] constructor *)
(* ===================================================================== *)

Lemma map_insert_import (m : gmap string string) (k v : string) :
  PM.map_insert m k v = PM.import_entry false k v m.
Proof.
  unfold PM.map_insert, PM.import_entry. rewrite orb_false_l.
  destruct (m !! k) eqn:Hk.
  - now rewrite bool_decide_eq_false_2 by congruence.
  - rewrite bool_decide_eq_true_2 by reflexivity. now rewrite putOnMap_insert.
Qed.

(** A run of [setDefault] calls on a node. *)
Lemma setDefault_loop (param : PM.node) (l : list (string * string))
    (st : PM.store) :
  foldl (fun s kv => PM.setDefault param kv.1 kv.2 s) st l =
  PM.Store
    (foldl (fun m it => PM.import_entry false (PM.prefix param +:+ it.1) it.2 m)
           (PM.parameters st) l)
    (PM.commits st).
Proof.
  revert st. induction l as [|[k v] l IH]; intros st; [now destruct st|].
  cbn [foldl]. rewrite IH. unfold PM.setDefault. simpl.
  now rewrite map_insert_import.
Qed.

Lemma HVSession_store (sep port version : string) (param : PM.node)
    (st : PM.store) :
  (HVSession.HVSession sep port version param st).2 =
  foldl (fun s kv => PM.setDefault param kv.1 kv.2 s) st
        (HVSession_defaults port version).
Proof. reflexivity. Qed.

Lemma HVSession_defaults_NoDup (port version : string) :
  NoDup (HVSession_defaults port version).*1.
Proof. apply (bool_decide_unpack _). vm_compute. exact I. Qed.

Lemma HVSession_uuid (sep port version : string) (param : PM.node)
    (st : PM.store) :
  HVSession.uuid (HVSession.HVSession sep port version param st).1
  = PM.get param "uuid" "" false (HVSession.HVSession sep port version param st).2.
Proof. reflexivity. Qed.

Lemma uuid_default (port version : string) :
  ("uuid", "") ∈ HVSession_defaults port version.
Proof. apply list_elem_of_In. simpl. tauto. Qed.

(** X13.  After the constructor every default parameter is in the map under
    the node's prefix: with the value it had when it was there, with the
    default when it was not.  The session's [uuid] is the stored one, or the
    empty string when there was none. *)
Theorem HVSession_fills_in_defaults
    (sep port version : string) (param : PM.node) (st : PM.store) :
  let s := HVSession.HVSession sep port version param st in
  Forall (fun kv : string * string =>
            PM.parameters s.2 !! (PM.prefix param +:+ kv.1)
            = Some (default kv.2 (PM.parameters st !! (PM.prefix param +:+ kv.1))))
         (HVSession_defaults port version)
  ∧ HVSession.uuid s.1 = PM.get param "uuid" "" false st.
Proof.
  intros s.
  assert (Hlook : ∀ k v, (k, v) ∈ HVSession_defaults port version →
            PM.parameters s.2 !! (PM.prefix param +:+ k)
            = Some (default v (PM.parameters st !! (PM.prefix param +:+ k)))).
  { intros k v Hin. subst s. rewrite HVSession_store, setDefault_loop.
    cbn [PM.parameters].
    rewrite import_loop_lookup by apply HVSession_defaults_NoDup.
    pose proof (elem_of_list_to_map_1 (M:=gmap string) _ _ _
                  (HVSession_defaults_NoDup port version) Hin) as He.
    rewrite He.
    now destruct (PM.parameters st !! (PM.prefix param +:+ k)). }
  split.
  - apply Forall_forall. intros [k v] Hin. now apply Hlook.
  - subst s. rewrite HVSession_uuid, !get_plain.
    rewrite (Hlook "uuid" "" (uuid_default port version)).
    now destruct (PM.parameters st !! (PM.prefix param +:+ "uuid")).
Qed.

Lemma setDefault_loop_present (pfx : string) (l : list (string * string))
    (m : gmap string string) :
  Forall (fun kv => is_Some (m !! (pfx +:+ kv.1))) l →
  foldl (fun m it => PM.import_entry false (pfx +:+ it.1) it.2 m) m l = m.
Proof.
  induction 1 as [|[k v] l [old Hk] _ IH]; [reflexivity|].
  cbn [foldl]. unfold PM.import_entry at 2. simpl in Hk. cbn [fst snd].
  rewrite Hk, bool_decide_eq_false_2 by congruence. exact IH.
Qed.

Lemma setDefault_loop_keeps (pfx : string) (l : list (string * string))
    (m : gmap string string) (key : string) :
  is_Some (m !! key) →
  is_Some (foldl (fun m it => PM.import_entry false (pfx +:+ it.1) it.2 m) m l !! key).
Proof.
  revert m. induction l as [|[k v] l IH]; intros m Hm; [exact Hm|].
  cbn [foldl]. apply IH. unfold PM.import_entry. cbn [fst snd orb].
  case_bool_decide as Hk; [|exact Hm].
  rewrite putOnMap_insert, lookup_insert. case_decide; [eauto | exact Hm].
Qed.

Lemma setDefault_loop_fills (pfx : string) (l : list (string * string))
    (m : gmap string string) :
  Forall (fun kv =>
            is_Some (foldl (fun m it => PM.import_entry false (pfx +:+ it.1) it.2 m) m l
                       !! (pfx +:+ kv.1))) l.
Proof.
  revert m. induction l as [|[k v] l IH]; intros m; constructor.
  - cbn [foldl fst snd]. apply setDefault_loop_keeps.
    unfold PM.import_entry. cbn [orb].
    case_bool_decide as Hk.
    + rewrite putOnMap_insert, lookup_insert_eq. eauto.
    + destruct (m !! (pfx +:+ k)); [eauto | contradiction].
  - cbn [foldl]. apply IH.
Qed.

Lemma HVSession_spec (sep port version : string) (param : PM.node)
    (st : PM.store) :
  HVSession.HVSession sep port version param st =
  let st' :=
    foldl (fun s kv => PM.setDefault param kv.1 kv.2 s) st
          (HVSession_defaults port version) in
  (HVSession.Session
     (PM.get param "uuid" "" false st') (PM.getNum param "state" 0 st')
     0 0 0 param
     (PM.subgroup sep param "properties") (PM.subgroup sep param "user-data")
     (PM.subgroup sep param "machine") (PM.subgroup sep param "local"),
   st').
Proof. reflexivity. Qed.

(** X14.  Constructing a session over the store another construction left
    changes nothing: the store is the same and so is the session. *)
Theorem HVSession_twice_is_once
    (sep port version : string) (param : PM.node) (st : PM.store) :
  let once := HVSession.HVSession sep port version param st in
  HVSession.HVSession sep port version param once.2 = once.
Proof.
  intros once. subst once. rewrite !HVSession_spec. cbv zeta. cbn [snd].
  set (st1 := foldl (fun s kv => PM.setDefault param kv.1 kv.2 s) st
                (HVSession_defaults port version)).
  assert (Hst : foldl (fun s kv => PM.setDefault param kv.1 kv.2 s) st1
                  (HVSession_defaults port version) = st1).
  { subst st1. rewrite !setDefault_loop. cbn [PM.parameters PM.commits].
    f_equal. apply setDefault_loop_present, setDefault_loop_fills. }
  now rewrite Hst.
Qed.

(* ===================================================================== *)
(** * More about the download provider *)
(* ===================================================================== *)

Lemma perform_keeps_instances (transfer : list DP.event) (result : DP.CURLcode) :
  ∀ (self : DP.provider) (trace : list DP.effect),
  DP.operationInstances (DP.curl_easy_perform self transfer result trace).1.2
  = DP.operationInstances self.
Proof.
  induction transfer as [|e tr IH]; intros self trace; [reflexivity|].
  destruct e; simpl.
  - rewrite IH. now destruct (curl_headerfunc_control line self) as (_ & _ & ?).
  - apply IH.
  - unfold DP.curl_xferinfo. destruct (DP.abortFlag self); simpl; [reflexivity|].
    apply IH.
  - rewrite IH. unfold DP.abort. now destruct (0 <? DP.operationInstances self).
  - now rewrite IH.
Qed.

Lemma perform_code (transfer : list DP.event) (result : DP.CURLcode) :
  ∀ (self : DP.provider) (trace : list DP.effect),
  (DP.curl_easy_perform self transfer result trace).1.1 = DP.CURLE_OK →
  result = DP.CURLE_OK.
Proof.
  induction transfer as [|e tr IH]; intros self trace; [auto|].
  destruct e; simpl; try apply IH.
  unfold DP.curl_xferinfo. destruct (DP.abortFlag self); simpl; [discriminate|].
  apply IH.
Qed.

Lemma perform_never_closes (transfer : list DP.event) (result : DP.CURLcode) :
  ∀ (self : DP.provider) (trace : list DP.effect),
  DP.FileClosed ∉ trace →
  DP.FileClosed ∉ (DP.curl_easy_perform self transfer result trace).2.
Proof.
  induction transfer as [|e tr IH]; intros self trace Ht; [exact Ht|].
  destruct e; simpl; try (apply IH; exact Ht).
  - apply IH. intros Hin. apply elem_of_app in Hin as [Hin|Hin]; [contradiction|].
    apply list_elem_of_singleton in Hin. discriminate.
  - unfold DP.curl_xferinfo. destruct (DP.abortFlag self); simpl; [exact Ht|].
    now apply IH.
Qed.

(** X15.  [downloadFile] leaves the count of active operations as it found
    it on each of its three ways out, and answers [HVE_OK] or
    [HVE_IO_ERROR].  When the destination does not open, nothing is
    transferred and the abort flags are untouched.  [HVE_OK] is only given
    for a transfer libcurl reports as done, and only then is the file
    closed: after a failed or cancelled transfer [fStream] is left open. *)
Theorem downloadFile_balances_operations
    (self : DP.provider) (url destination : string) (can_open : bool)
    (transfer : list DP.event) (result : DP.CURLcode) :
  let r := DP.downloadFile self url destination can_open transfer result in
  DP.operationInstances r.1.2 = DP.operationInstances self
  ∧ (r.1.1 = DP.HVE_OK ∨ r.1.1 = DP.HVE_IO_ERROR)
  ∧ (can_open = false →
       r.1.1 = DP.HVE_IO_ERROR ∧ r.2 = []
       ∧ DP.abortFlag r.1.2 = DP.abortFlag self
       ∧ DP.abortPersistsFlag r.1.2 = DP.abortPersistsFlag self)
  ∧ (r.1.1 = DP.HVE_OK →
       can_open = true ∧ result = DP.CURLE_OK ∧ last r.2 = Some DP.FileClosed)
  ∧ (r.1.1 = DP.HVE_IO_ERROR → DP.FileClosed ∉ r.2).
Proof.
  intros r. subst r. unfold DP.downloadFile.
  destruct can_open; cbn [negb].
  2:{ simpl. repeat split; try discriminate; try lia; auto.
      intros _. apply not_elem_of_nil. }
  set (s0 := DP.with_maxStreamSize 0 _).
  set (t0 := [DP.FileOpened destination; DP.TransferStarted url]).
  pose proof (perform_keeps_instances transfer result s0 t0) as Hi.
  pose proof (perform_code transfer result s0 t0) as Hc.
  assert (Ht0 : DP.FileClosed ∉ t0).
  { subst t0. intros Hin. apply list_elem_of_In in Hin. simpl in Hin.
    intuition discriminate. }
  pose proof (perform_never_closes transfer result s0 t0 Ht0) as Hn.
  destruct (DP.curl_easy_perform s0 transfer result t0) as [[res s] t].
  cbn [fst snd] in Hi, Hc, Hn. subst s0. simpl in Hi.
  destruct res; cbn [fst snd]; simpl; rewrite Hi;
    (split; [lia|]); (split; [auto|]); (split; [discriminate|]); split;
    try discriminate; try (intros _; exact Hn).
  intros _. split; [reflexivity|]. split; [now apply Hc|]. apply last_snoc.
Qed.

Lemma app_string_empty_r (s : string) : s +:+ "" = s.
Proof. induction s as [|c s IH]; [reflexivity|]. now rewrite app_String, IH. Qed.

Lemma clock_runs_on_earlier (t0 t1 : Z) (cs : list PG.chunk) :
  t0 <= t1 → clock_runs_on t1 cs → clock_runs_on t0 cs.
Proof. destruct cs as [|c cs]; simpl; [auto|]. intros Hle (H1 & H2 & H3). repeat split; auto; lia. Qed.

(** X16.  Throttling never costs data: after the data callbacks of a
    transfer the stream holds what it held followed by every chunk, in
    order.  Without a known size ([maxStreamSize] zero), or without a task,
    no progress is reported at all.  With a known size, the chunk that
    brings the stream to exactly that size is always reported, whatever the
    clock says. *)
Theorem data_callbacks_write_everything
    (timer maxStreamSize : Z) (stream : string)
    (fb : option PG.VariableTask) (cs : list PG.chunk) :
  let r := PG.receive timer maxStreamSize (stream, fb) cs in
  r.1 = stream +:+ foldr (fun c rest => PG.data c +:+ rest) "" cs
  ∧ (maxStreamSize = 0 → r.2 = fb)
  ∧ (fb = None → r.2 = None)
  ∧ ∀ (task : PG.VariableTask) (c : PG.chunk),
      maxStreamSize ≠ 0 →
      PG.tellp (stream +:+ PG.data c) = maxStreamSize →
      (PG.curl_datacb timer maxStreamSize (stream, Some task) c).2
      = Some (PG.Task (PG.t_store c)
                (PG.reports task ++ [(maxStreamSize, maxStreamSize)])).
Proof.
  intros r. subst r. split; [|split; [|split]].
  - revert stream fb. induction cs as [|c cs IH]; intros stream fb.
    + simpl. now rewrite app_string_empty_r.
    + unfold PG.receive in *. cbn [foldl foldr].
      unfold PG.curl_datacb at 2, PG.writeToStream. cbn [fst snd].
      rewrite <- app_string_assoc.
      destruct (negb (maxStreamSize =? 0)); [destruct fb|]; apply IH.
  - intros ->. revert stream. induction cs as [|c cs IH]; intros stream;
      [reflexivity|]. unfold PG.receive in *. cbn [foldl]. apply IH.
  - intros ->. revert stream. induction cs as [|c cs IH]; intros stream;
      [reflexivity|]. unfold PG.receive in *. cbn [foldl].
    unfold PG.curl_datacb at 2, PG.writeToStream. cbn [fst snd].
    destruct (negb (maxStreamSize =? 0)); apply IH.
  - intros task c Hmax Hfull.
    unfold PG.curl_datacb, PG.writeToStream, PG.fireProgressEvent. cbn [fst snd].
    rewrite Hfull. apply Z.eqb_neq in Hmax. rewrite Hmax. cbn [negb].
    now rewrite Z.eqb_refl.
Qed.

Lemma curl_datacb_task (timer maxStreamSize : Z) (stream : string)
    (task : PG.VariableTask) (c : PG.chunk) :
  PG.lastEventTime task <= PG.t_check c → PG.t_check c <= PG.t_store c →
  ∃ task' new,
    (PG.curl_datacb timer maxStreamSize (stream, Some task) c).2 = Some task'
    ∧ PG.reports task' = PG.reports task ++ new
    ∧ timer * Z.of_nat (length (partial_reports new))
      <= PG.lastEventTime task' - PG.lastEventTime task
    ∧ PG.lastEventTime task <= PG.lastEventTime task'
    ∧ PG.lastEventTime task' <= PG.t_store c.
Proof.
  intros Hc Hs.
  unfold PG.curl_datacb, PG.writeToStream, PG.fireProgressEvent. cbn [fst snd].
  destruct (negb (maxStreamSize =? 0)); cbn [snd].
  2:{ exists task, []. rewrite app_nil_r. simpl. repeat split; lia. }
  set (pos := PG.tellp (stream +:+ PG.data c)).
  destruct (pos =? maxStreamSize) eqn:Hfinal; cbn [negb andb].
  - exists (PG.Task (PG.t_store c) (PG.reports task ++ [(maxStreamSize, pos)])),
           [(maxStreamSize, pos)].
    apply Z.eqb_eq in Hfinal. simpl. unfold partial_reports.
    rewrite filter_cons_False by (simpl; intros H; apply H; exact Hfinal).
    simpl. repeat split; lia.
  - destruct (PG.t_check c - PG.lastEventTime task <? timer) eqn:Hthr.
    + exists task, []. rewrite app_nil_r. simpl. repeat split; lia.
    + exists (PG.Task (PG.t_store c) (PG.reports task ++ [(maxStreamSize, pos)])),
             [(maxStreamSize, pos)].
      apply Z.ltb_ge in Hthr. apply Z.eqb_neq in Hfinal. simpl.
      unfold partial_reports. rewrite filter_cons_True by (simpl; exact Hfinal).
      simpl. repeat split; lia.
Qed.

(** X17.  The throttle: over the data callbacks of a transfer whose clock
    readings never go back, the reports made to the task that are not the
    final one lie at least [DP_THROTTLE_TIMER] apart, so that their number
    times the timer is no more than the time by which the task's last event
    time has advanced, and that never passes the last reading of the
    clock. *)
Theorem progress_reports_are_throttled
    (timer maxStreamSize : Z) (cs : list PG.chunk) :
  ∀ (stream : string) (task : PG.VariableTask),
  clock_runs_on (PG.lastEventTime task) cs →
  ∃ task' new,
    (PG.receive timer maxStreamSize (stream, Some task) cs).2 = Some task'
    ∧ PG.reports task' = PG.reports task ++ new
    ∧ timer * Z.of_nat (length (partial_reports new))
      <= PG.lastEventTime task' - PG.lastEventTime task
    ∧ PG.lastEventTime task <= PG.lastEventTime task'
    ∧ PG.lastEventTime task'
      <= foldl (fun _ c => PG.t_store c) (PG.lastEventTime task) cs.
Proof.
  induction cs as [|c cs IH]; intros stream task Hclock.
  - exists task, []. rewrite app_nil_r. simpl. repeat split; lia.
  - destruct Hclock as (Hc & Hs & Hrest).
    destruct (curl_datacb_task timer maxStreamSize stream task c Hc Hs)
      as (task1 & new1 & Hstep & Hr1 & Hn1 & Hl1 & Hu1).
    unfold PG.receive in *. cbn [foldl].
    destruct (PG.curl_datacb timer maxStreamSize (stream, Some task) c)
      as [stream1 fb1] eqn:Hcb. cbn [snd] in Hstep. subst fb1.
    destruct (IH stream1 task1 (clock_runs_on_earlier _ _ _ Hu1 Hrest))
      as (task2 & new2 & Hrun & Hr2 & Hn2 & Hl2 & Hu2).
    exists task2, (new1 ++ new2). split; [exact Hrun|].
    split; [now rewrite Hr2, Hr1, app_assoc|].
    unfold partial_reports in *. rewrite filter_app, length_app, Nat2Z.inj_add.
    split; [lia|]. split; [lia|].
    assert (Hmono : ∀ (l : list PG.chunk) a b, a <= b → clock_runs_on b l →
              foldl (fun _ c => PG.t_store c) a l <= foldl (fun _ c => PG.t_store c) b l).
    { induction l as [|x l IHl]; intros a b Hab Hl; simpl; [exact Hab|].
      apply IHl; [lia | now destruct Hl as (_ & _ & ?)]. }
    etransitivity; [exact Hu2|]. apply Hmono; [exact Hu1 | exact Hrest].
Qed.

Lemma progress_reports_are_throttled_witness :
  let task := PG.Task 1000 [] in
  let cs := [PG.Chunk "ab" 1100 1101; PG.Chunk "cd" 1600 1602;
             PG.Chunk "ef" 1700 1700] in
  ∃ task' new,
    (PG.receive 500 10 ("", Some task) cs).2 = Some task'
    ∧ PG.reports task' = PG.reports task ++ new
    ∧ 500 * Z.of_nat (length (partial_reports new))
      <= PG.lastEventTime task' - PG.lastEventTime task
    ∧ PG.lastEventTime task <= PG.lastEventTime task'
    ∧ PG.lastEventTime task'
      <= foldl (fun _ c => PG.t_store c) (PG.lastEventTime task) cs.
Proof.
  intros task cs.
  apply (progress_reports_are_throttled 500 10 cs "" task).
  simpl. lia.
Defined.

(* ===================================================================== *)
(** * More about the context image *)
(* ===================================================================== *)

(** X18.  [isosetl] writes the low 32 bits of its argument in both byte
    orders: eight bytes, each in [0, 256); the first four spell the value
    (modulo 2^32, so the value itself when it is in range) least
    significant byte first, and the last four are the first four in
    reverse. *)
Theorem isosetl_both_byte_orders (x : Z) :
  length (ISO.isosetl x) = 8%nat
  ∧ Forall (fun b => 0 <= b < 256) (ISO.isosetl x)
  ∧ little_endian (ISO.isosetl x) = x mod 2 ^ 32
  ∧ drop 4 (ISO.isosetl x) = reverse (take 4 (ISO.isosetl x)).
Proof.
  unfold ISO.isosetl, little_endian. cbn [nth].
  rewrite !land_255, !Z.shiftr_div_pow2 by lia.
  change (2 ^ 8) with 256. change (2 ^ 16) with 65536.
  change (2 ^ 24) with 16777216. change (2 ^ 32) with 4294967296.
  split; [reflexivity|]. split; [|split; [|reflexivity]].
  - repeat constructor; apply Z.mod_pos_bound; lia.
  - Z.div_mod_to_equations. lia.
Qed.

Lemma volume_size_covers (l : Z) :
  1 <= l →
  2048 * (ISO.volume_size l - 1) < l <= 2048 * ISO.volume_size l.
Proof.
  intros Hl. unfold ISO.volume_size. rewrite Z.quot_div_nonneg by lia.
  Z.div_mod_to_equations. lia.
Qed.

Lemma simple_lDataSize_min (size : Z) :
  ISO.simple_lDataSize size = Z.min size 309248.
Proof.
  unfold ISO.simple_lDataSize, ISO.CONTEXTISO_CDROM_SIZE, ISO.CONTENTS_OFFSET.
  destruct (size >? 358400 - 49152) eqn:Hc.
  - apply Z.gtb_gt in Hc. lia.
  - rewrite Z.gtb_ltb in Hc. apply Z.ltb_ge in Hc. lia.
Qed.

Lemma ami_lDataSize_min (contentSize : Z) :
  0 <= contentSize → 2 * contentSize + 0x11000 < 2 ^ 31 →
  ISO.ami_lDataSize contentSize = Z.min (2 * contentSize + 599) 309248.
Proof.
  intros Hlo Hhi. unfold ISO.ami_lDataSize.
  rewrite strlen_META_DATA_CONTENT, strlen_README_CONTENT.
  rewrite int_wrap_id by lia.
  unfold ISO.CONTEXTISO_CDROM_SIZE, ISO.CONTENTS_OFFSET.
  destruct (2 * contentSize + 2 * 55 + 489 >? 358400 - 49152) eqn:Hc.
  - apply Z.gtb_gt in Hc. lia.
  - rewrite Z.gtb_ltb in Hc. apply Z.ltb_ge in Hc. lia.
Qed.

(** The five copies, with the offsets of the openstack files in closed
    form. *)
Lemma copy_contents_spec (content : list Z) (contentSize : Z) :
  0 <= contentSize → contentSize + 0x11000 < 2 ^ 31 →
  ISO.copy_contents content contentSize =
  [ ISO.memcpy 0xE000 (ISO.bytes_of ISO.README_CONTENT) 489;
    ISO.memcpy 0xE800 (ISO.bytes_of ISO.META_DATA_CONTENT) 55;
    ISO.memcpy 0xF000 content contentSize;
    ISO.memcpy (ISO.os_offsets contentSize).1
      (ISO.bytes_of ISO.META_DATA_CONTENT) 55;
    ISO.memcpy (ISO.os_offsets contentSize).2 content contentSize ].
Proof.
  intros Hlo Hhi. unfold ISO.copy_contents.
  rewrite strlen_META_DATA_CONTENT, strlen_README_CONTENT.
  assert (Hsz : ISO.size_t_of contentSize = contentSize).
  { unfold ISO.size_t_of. change (2 ^ 64) with 18446744073709551616.
    apply Z.mod_small. lia. }
  rewrite Hsz. now destruct (ISO.os_offsets contentSize).
Qed.

(** X20.  The five content copies of [build_ami_ci_cdrom] follow one
    another without sharing a byte, whatever the payload size; and they all
    stay inside the 358400 bytes of the buffer exactly when the payload is
    at most 147455 bytes long. *)
Theorem copy_contents_fit_up_to_147455 (content : list Z) (contentSize : Z) :
  0 <= contentSize → contentSize + 0x11000 < 2 ^ 31 →
  in_order (ISO.copy_contents content contentSize)
  ∧ (forallb (ISO.within ISO.CONTEXTISO_CDROM_SIZE)
       (ISO.copy_contents content contentSize) = true
     ↔ contentSize <= 147455).
Proof.
  intros Hlo Hhi. rewrite copy_contents_spec by assumption.
  rewrite os_offsets_spec by assumption.
  unfold ISO.within, ISO.CONTEXTISO_CDROM_SIZE.
  destruct (0xF800 <=? 0xF000 + contentSize) eqn:Hc; cbn [fst snd].
  - apply Z.leb_le in Hc.
    set (q := (0xF000 + contentSize) / 2048).
    assert (Hq : 2048 * q <= 0xF000 + contentSize < 2048 * q + 2048)
      by (subst q; Z.div_mod_to_equations; lia).
    split.
    + simpl. lia.
    + cbn [forallb ISO.dst ISO.len ISO.memcpy].
      rewrite !andb_true_iff, !Z.leb_le. lia.
  - apply Z.leb_gt in Hc. split.
    + simpl. lia.
    + cbn [forallb ISO.dst ISO.len ISO.memcpy].
      rewrite !andb_true_iff, !Z.leb_le. lia.
Qed.

Lemma copy_contents_fit_up_to_147455_witness :
  in_order (ISO.copy_contents [65; 66; 67] 3)
  ∧ (forallb (ISO.within ISO.CONTEXTISO_CDROM_SIZE)
       (ISO.copy_contents [65; 66; 67] 3) = true
     ↔ 3 <= 147455).
Proof. apply (copy_contents_fit_up_to_147455 [65; 66; 67] 3); lia. Defined.

Lemma regroup_stores {T : Type} (A P pre post S : list T) (D w : T) :
  A ++ D :: P ++ (pre ++ w :: post) ++ S
  = (A ++ D :: P ++ pre) ++ w :: post ++ S.
Proof. rewrite <- ?app_assoc. simpl. now rewrite <- ?app_assoc. Qed.

(** Shows that a store does not reach an address, from the bounds at hand. *)
Ltac store_misses :=
  unfold ISO.covers; simpl; apply andb_false_iff;
  first [ left; apply Z.leb_gt; lia | right; apply Z.ltb_ge; lia ].

Ltac store_hits :=
  unfold ISO.covers; simpl; apply andb_true_intro;
  split; [apply Z.leb_le | apply Z.ltb_lt]; lia.

Lemma size_stores_miss_files (h : ISO.iso9660_h) (contentSize i : Z) :
  fields_in_sectors h → 0xE000 <= i →
  Forall (fun w => ISO.covers w i = false) (size_stores h contentSize).
Proof.
  intros (Hb & Hc1 & Hc2 & _ & _ & Hd1 & Hd2) Hi. unfold size_stores.
  each_store; store_misses.
Qed.

(** X21.  For a payload that fits (at most 147455 bytes) the image holds
    the five files where the directory says: the README from [0xE000], the
    meta-data document from [0xE800] and again from the openstack
    meta-data offset, and the payload, byte for byte, from [0xF000] and
    again from the openstack user-data offset. *)
Theorem image_holds_the_five_files
    (h : ISO.iso9660_h) (volume_id : string) (content : list Z)
    (contentSize : Z) (tmNow : ISO.tm) :
  fields_in_sectors h → 0 <= contentSize <= 147455 →
  let image := ISO.build_ami_ci_cdrom h volume_id content contentSize tmNow in
  let osMeta := (ISO.os_offsets contentSize).1 in
  let osUser := (ISO.os_offsets contentSize).2 in
  (∀ j, 0 <= j < 489 →
     ISO.read image (0xE000 + j)
     = nth (Z.to_nat j) (ISO.bytes_of ISO.README_CONTENT) 0)
  ∧ (∀ j, 0 <= j < 55 →
       ISO.read image (0xE800 + j)
       = nth (Z.to_nat j) (ISO.bytes_of ISO.META_DATA_CONTENT) 0
       ∧ ISO.read image (osMeta + j)
         = nth (Z.to_nat j) (ISO.bytes_of ISO.META_DATA_CONTENT) 0)
  ∧ (∀ j, 0 <= j < contentSize →
       ISO.read image (0xF000 + j) = nth (Z.to_nat j) content 0
       ∧ ISO.read image (osUser + j) = nth (Z.to_nat j) content 0).
Proof.
  intros Hfields [Hlo Hhi] image osMeta osUser.
  assert (Hfit : contentSize + 0x11000 < 2 ^ 31) by lia.
  subst image. rewrite build_ami_ci_cdrom_stores.
  rewrite copy_contents_spec by assumption. fold osMeta osUser.
  assert (Hoff : 0xF000 + contentSize < osMeta ∧ osMeta + 2048 = osUser
                 ∧ 0xF800 <= osMeta).
  { subst osMeta osUser. rewrite os_offsets_spec by assumption.
    destruct (0xF800 <=? 0xF000 + contentSize) eqn:Hc; cbn [fst snd].
    - apply Z.leb_le in Hc. Z.div_mod_to_equations. lia.
    - apply Z.leb_gt in Hc. lia. }
  destruct Hoff as (Hm & Hu & Hm0).
  set (A := stores_before_D800 h volume_id contentSize tmNow).
  set (D := ISO.memcpy 0xD800 (ISO.AT_D800 h) (ISO.AT_D800_SIZE h)).
  set (P := ISO.patch_extents h contentSize).
  set (S := size_stores h contentSize).
  set (w1 := ISO.memcpy 0xE000 (ISO.bytes_of ISO.README_CONTENT) 489).
  set (w2 := ISO.memcpy 0xE800 (ISO.bytes_of ISO.META_DATA_CONTENT) 55).
  set (w3 := ISO.memcpy 0xF000 content contentSize).
  set (w4 := ISO.memcpy osMeta (ISO.bytes_of ISO.META_DATA_CONTENT) 55).
  set (w5 := ISO.memcpy osUser content contentSize).
  assert (HS : ∀ i, 0xE000 <= i → Forall (fun w => ISO.covers w i = false) S)
    by (intros i Hi; now apply size_stores_miss_files).
  split; [|split].
  - intros j Hj.
    rewrite (regroup_stores A P [] [w2; w3; w4; w5] S D w1
               : A ++ D :: P ++ [w1; w2; w3; w4; w5] ++ S = _).
    rewrite read_last_store.
    + subst w1. unfold ISO.memcpy. cbn [ISO.dst ISO.src]. f_equal. lia.
    + subst w1. store_hits.
    + apply Forall_app. split; [|apply HS; lia].
      subst w2 w3 w4 w5. each_store; store_misses.
  - intros j Hj. split.
    + rewrite (regroup_stores A P [w1] [w3; w4; w5] S D w2
               : A ++ D :: P ++ [w1; w2; w3; w4; w5] ++ S = _).
      rewrite read_last_store.
      * subst w2. unfold ISO.memcpy. cbn [ISO.dst ISO.src]. f_equal. lia.
      * subst w2. store_hits.
      * apply Forall_app. split; [|apply HS; lia].
        subst w3 w4 w5. each_store; store_misses.
    + rewrite (regroup_stores A P [w1; w2; w3] [w5] S D w4
               : A ++ D :: P ++ [w1; w2; w3; w4; w5] ++ S = _).
      rewrite read_last_store.
      * subst w4. unfold ISO.memcpy. cbn [ISO.dst ISO.src]. f_equal. lia.
      * subst w4. store_hits.
      * apply Forall_app. split; [|apply HS; lia].
        subst w5. each_store; store_misses.
  - intros j Hj. split.
    + rewrite (regroup_stores A P [w1; w2] [w4; w5] S D w3
               : A ++ D :: P ++ [w1; w2; w3; w4; w5] ++ S = _).
      rewrite read_last_store.
      * subst w3. unfold ISO.memcpy. cbn [ISO.dst ISO.src]. f_equal. lia.
      * subst w3. store_hits.
      * apply Forall_app. split; [|apply HS; lia].
        subst w4 w5. each_store; store_misses.
    + rewrite (regroup_stores A P [w1; w2; w3; w4] [] S D w5
               : A ++ D :: P ++ [w1; w2; w3; w4; w5] ++ S = _).
      rewrite read_last_store.
      * subst w5. unfold ISO.memcpy. cbn [ISO.dst ISO.src]. f_equal. lia.
      * subst w5. store_hits.
      * apply Forall_app. split; [|apply HS; lia]. constructor.
Qed.

Lemma image_holds_the_five_files_witness :
  let image :=
    ISO.build_ami_ci_cdrom ecma119_header "uuid" [65; 66; 67] 3
      (ISO.Tm 30 20 10 15 0 113) in
  let osMeta := (ISO.os_offsets 3).1 in
  let osUser := (ISO.os_offsets 3).2 in
  (∀ j, 0 <= j < 489 →
     ISO.read image (0xE000 + j)
     = nth (Z.to_nat j) (ISO.bytes_of ISO.README_CONTENT) 0)
  ∧ (∀ j, 0 <= j < 55 →
       ISO.read image (0xE800 + j)
       = nth (Z.to_nat j) (ISO.bytes_of ISO.META_DATA_CONTENT) 0
       ∧ ISO.read image (osMeta + j)
         = nth (Z.to_nat j) (ISO.bytes_of ISO.META_DATA_CONTENT) 0)
  ∧ (∀ j, 0 <= j < 3 →
       ISO.read image (0xF000 + j) = nth (Z.to_nat j) [65; 66; 67] 0
       ∧ ISO.read image (osUser + j) = nth (Z.to_nat j) [65; 66; 67] 0).
Proof.
  apply (image_holds_the_five_files ecma119_header "uuid" [65; 66; 67] 3
           (ISO.Tm 30 20 10 15 0 113)).
  - unfold fields_in_sectors. simpl. lia.
  - lia.
Defined.

Lemma regroup_last_stores {T : Type} (A P C pre post : list T) (D w : T) :
  A ++ D :: P ++ C ++ pre ++ w :: post
  = (A ++ D :: P ++ C ++ pre) ++ w :: post.
Proof. rewrite <- ?app_assoc. simpl. now rewrite <- ?app_assoc. Qed.

(** X22.  The directory of the image records the sizes of the five files as
    [isosetl] writes them: 489 for the README, 55 for each meta-data
    document, and [contentSize] for each copy of the payload. *)
Theorem image_records_file_sizes
    (h : ISO.iso9660_h) (volume_id : string) (content : list Z)
    (contentSize : Z) (tmNow : ISO.tm) :
  fields_in_sectors h → fields_start_in_sectors h → size_fields_apart h →
  let image := ISO.build_ami_ci_cdrom h volume_id content contentSize tmNow in
  bytes_at image (0xB800 + ISO.AT_B800_README_SIZE_OFFSET h) = ISO.isosetl 489
  ∧ bytes_at image (0xC800 + ISO.AT_C800_META_DATA_SIZE_OFFSET h) = ISO.isosetl 55
  ∧ bytes_at image (0xC800 + ISO.AT_C800_USER_DATA_SIZE_OFFSET h)
    = ISO.isosetl contentSize
  ∧ bytes_at image (0xD800 + ISO.AT_D800_META_DATA_SIZE_OFFSET h) = ISO.isosetl 55
  ∧ bytes_at image (0xD800 + ISO.AT_D800_USER_DATA_SIZE_OFFSET h)
    = ISO.isosetl contentSize.
Proof.
  intros (Hb & Hc1 & Hc2 & _ & _ & Hd1 & Hd2)
         (Hb0 & Hc10 & Hc20 & _ & _ & Hd10 & Hd20) (Hca & Hda) image.
  unfold apart in Hca, Hda.
  subst image. rewrite build_ami_ci_cdrom_stores. unfold size_stores.
  change (ISO.int_wrap (ISO.strlen ISO.README_CONTENT)) with 489.
  change (ISO.int_wrap (ISO.strlen ISO.META_DATA_CONTENT)) with 55.
  set (A := stores_before_D800 h volume_id contentSize tmNow).
  set (D := ISO.memcpy 0xD800 (ISO.AT_D800 h) (ISO.AT_D800_SIZE h)).
  set (P := ISO.patch_extents h contentSize).
  set (C := ISO.copy_contents content contentSize).
  set (s1 := ISO.isosetl_at 489 (0xB800 + ISO.AT_B800_README_SIZE_OFFSET h)).
  set (s2 := ISO.isosetl_at 55 (0xC800 + ISO.AT_C800_META_DATA_SIZE_OFFSET h)).
  set (s3 := ISO.isosetl_at contentSize (0xC800 + ISO.AT_C800_USER_DATA_SIZE_OFFSET h)).
  set (s4 := ISO.isosetl_at 55 (0xD800 + ISO.AT_D800_META_DATA_SIZE_OFFSET h)).
  set (s5 := ISO.isosetl_at contentSize (0xD800 + ISO.AT_D800_USER_DATA_SIZE_OFFSET h)).
  repeat split.
  - rewrite (regroup_last_stores A P C [] [s2; s3; s4; s5] D s1
               : A ++ D :: P ++ C ++ [s1; s2; s3; s4; s5] = _).
    rewrite bytes_at_last_store.
    + subst s1. simpl ISO.dst. rewrite Z.sub_diag. apply table_at_isosetl.
    + subst s1. simpl. lia.
    + subst s1. simpl. lia.
    + subst s2 s3 s4 s5. each_store; unfold clear_of; simpl; lia.
  - rewrite (regroup_last_stores A P C [s1] [s3; s4; s5] D s2
               : A ++ D :: P ++ C ++ [s1; s2; s3; s4; s5] = _).
    rewrite bytes_at_last_store.
    + subst s2. simpl ISO.dst. rewrite Z.sub_diag. apply table_at_isosetl.
    + subst s2. simpl. lia.
    + subst s2. simpl. lia.
    + subst s3 s4 s5. each_store; unfold clear_of; simpl; lia.
  - rewrite (regroup_last_stores A P C [s1; s2] [s4; s5] D s3
               : A ++ D :: P ++ C ++ [s1; s2; s3; s4; s5] = _).
    rewrite bytes_at_last_store.
    + subst s3. simpl ISO.dst. rewrite Z.sub_diag. apply table_at_isosetl.
    + subst s3. simpl. lia.
    + subst s3. simpl. lia.
    + subst s4 s5. each_store; unfold clear_of; simpl; lia.
  - rewrite (regroup_last_stores A P C [s1; s2; s3] [s5] D s4
               : A ++ D :: P ++ C ++ [s1; s2; s3; s4; s5] = _).
    rewrite bytes_at_last_store.
    + subst s4. simpl ISO.dst. rewrite Z.sub_diag. apply table_at_isosetl.
    + subst s4. simpl. lia.
    + subst s4. simpl. lia.
    + subst s5. each_store; unfold clear_of; simpl; lia.
  - rewrite (regroup_last_stores A P C [s1; s2; s3; s4] [] D s5
               : A ++ D :: P ++ C ++ [s1; s2; s3; s4; s5] = _).
    rewrite bytes_at_last_store.
    + subst s5. simpl ISO.dst. rewrite Z.sub_diag. apply table_at_isosetl.
    + subst s5. simpl. lia.
    + subst s5. simpl. lia.
    + constructor.
Qed.

Lemma image_records_file_sizes_witness :
  let image :=
    ISO.build_ami_ci_cdrom ecma119_header "uuid" [65; 66; 67] 3
      (ISO.Tm 30 20 10 15 0 113) in
  bytes_at image (0xB800 + ISO.AT_B800_README_SIZE_OFFSET ecma119_header)
    = ISO.isosetl 489
  ∧ bytes_at image (0xC800 + ISO.AT_C800_META_DATA_SIZE_OFFSET ecma119_header)
    = ISO.isosetl 55
  ∧ bytes_at image (0xC800 + ISO.AT_C800_USER_DATA_SIZE_OFFSET ecma119_header)
    = ISO.isosetl 3
  ∧ bytes_at image (0xD800 + ISO.AT_D800_META_DATA_SIZE_OFFSET ecma119_header)
    = ISO.isosetl 55
  ∧ bytes_at image (0xD800 + ISO.AT_D800_USER_DATA_SIZE_OFFSET ecma119_header)
    = ISO.isosetl 3.
Proof.
  apply (image_records_file_sizes ecma119_header "uuid" [65; 66; 67] 3
           (ISO.Tm 30 20 10 15 0 113)).
  - unfold fields_in_sectors. simpl. lia.
  - unfold fields_start_in_sectors. simpl. lia.
  - unfold size_fields_apart, apart. simpl. lia.
Defined.

(** ** The local structures the builders copy into the image *)

Lemma nth_render (n : Z) (log : list ISO.write) (k : Z) :
  0 <= k < n → nth (Z.to_nat k) (ISO.render n log) 0 = ISO.read log k.
Proof.
  intros Hk. unfold ISO.render.
  rewrite (nth_indep _ 0 (ISO.read log 0))
    by (rewrite length_map, length_seqZ; lia).
  rewrite map_nth. f_equal.
  rewrite nth_lookup, lookup_seqZ_lt by lia. simpl. lia.
Qed.

Lemma build_simple_cdrom_stores (h : ISO.iso9660_h) (volume_id filename : string)
    (buffer : list Z) (size : Z) (tmNow : ISO.tm) :
  ISO.build_simple_cdrom h volume_id filename buffer size tmNow =
  ([ ISO.memset 0 0 ISO.CONTEXTISO_CDROM_SIZE ]
   ++ ISO.memcpy ISO.PRIMARY_DESCRIPTOR_OFFSET
        (ISO.render (ISO.sizeof_iso_primary_descriptor h)
           (descPrimary_stores h (ISO.ISO9660_PRIMARY_DESCRIPTOR h)
              (ISO.ISO9660_PRIMARY_DESCRIPTOR_SIZE h) volume_id tmNow
              (ISO.volume_size (ISO.simple_lDataSize size))))
        (ISO.sizeof_iso_primary_descriptor h)
   :: simple_tables h)
  ++ ISO.memcpy (ISO.SECONDARY_DIRECTORY_RECORD_OFFSET + 68)
       (ISO.render (ISO.sizeof_iso_directory_record h)
          (descFile_stores h filename (ISO.simple_lDataSize size)))
       (ISO.sizeof_iso_directory_record h)
  :: [ ISO.copy_buffer buffer size ].
Proof. reflexivity. Qed.

Lemma stores_before_D800_primary (h : ISO.iso9660_h) (volume_id : string)
    (contentSize : Z) (tmNow : ISO.tm) :
  stores_before_D800 h volume_id contentSize tmNow =
  [ ISO.memset 0 0 ISO.CONTEXTISO_CDROM_SIZE ]
  ++ ISO.memcpy ISO.PRIMARY_DESCRIPTOR_OFFSET
       (ISO.render (ISO.sizeof_iso_primary_descriptor h)
          (descPrimary_stores h (ISO.PRIMARY_DESCRIPTOR h)
             (ISO.PRIMARY_DESCRIPTOR_SIZE h) volume_id tmNow
             (ISO.volume_size (ISO.ami_lDataSize contentSize))))
       (ISO.sizeof_iso_primary_descriptor h)
  :: ami_tables h.
Proof. reflexivity. Qed.

Lemma file_char_upper (c : Z) :
  ISO.file_char c ≠ 32 ∧ ¬ (97 <= ISO.file_char c <= 122).
Proof.
  unfold ISO.file_char.
  destruct ((97 <=? c) && (c <=? 122)) eqn:Hlow.
  - apply andb_prop in Hlow as [H1 H2]. apply Z.leb_le in H1, H2.
    destruct (c - 32 =? 32) eqn:He; [lia|]. apply Z.eqb_neq in He. lia.
  - apply andb_false_iff in Hlow.
    destruct (c =? 32) eqn:He.
    + lia.
    + apply Z.eqb_neq in He. split; [exact He|].
      destruct Hlow as [H|H]; [apply Z.leb_gt in H | apply Z.leb_gt in H]; lia.
Qed.

(** The name written into [descFile]. *)
Lemma read_descFile_name (h : ISO.iso9660_h) (filename : string)
    (lDataSize : Z) :
  let n := Z.min (ISO.strlen filename) 10 in
  let log := descFile_stores h filename lDataSize in
  (∀ j, 0 <= j < n →
     ISO.read log (ISO.name_at h + j)
     = ISO.file_char (nth (Z.to_nat j) (ISO.bytes_of filename) 0))
  ∧ ISO.read log (ISO.name_at h + n) = 59
  ∧ ISO.read log (ISO.name_at h + n + 1) = 49.
Proof.
  intros n log. subst log. unfold descFile_stores. fold n.
  assert (Hn : 0 <= n) by (subst n; unfold ISO.strlen; lia).
  set (t := ISO.memcpy 0 _ _). set (s := ISO.isosetl_at _ _).
  set (w := ISO.memcpy (ISO.name_at h) _ n).
  set (semi := ISO.memset (ISO.name_at h + n) 59 1).
  set (one := ISO.memset (ISO.name_at h + n + 1) 49 1).
  split; [|split].
  - intros j Hj.
    rewrite (read_last_store [t; s] [semi; one] w).
    + subst w. unfold ISO.memcpy. cbn [ISO.dst ISO.src].
      replace (ISO.name_at h + j - ISO.name_at h) with j by lia.
      change 0 with (ISO.file_char 0) at 1. rewrite map_nth. f_equal.
      rewrite nth_firstn.
      destruct (Z.to_nat j <? Z.to_nat n)%nat eqn:Hlt; [reflexivity|].
      apply Nat.ltb_ge in Hlt. lia.
    + subst w. store_hits.
    + subst semi one. each_store; store_misses.
  - rewrite (read_last_store [t; s; w] [one] semi).
    + subst semi. unfold ISO.memset. cbn [ISO.dst ISO.src].
      now rewrite Z.sub_diag.
    + subst semi. store_hits.
    + subst one. each_store; store_misses.
  - rewrite (read_last_store [t; s; w; semi] [] one).
    + subst one. unfold ISO.memset. cbn [ISO.dst ISO.src].
      now rewrite Z.sub_diag.
    + subst one. store_hits.
    + constructor.
Qed.

(** X23.  The file name [build_simple_cdrom] leaves in the image: the first
    ten characters of [filename] at most, each put through [toupper] with a
    space turned into an underscore, then [";1"].  No character of the name
    is a space or a lower-case letter. *)
Theorem image_names_the_file
    (h : ISO.iso9660_h) (volume_id filename : string) (buffer : list Z)
    (size : Z) (tmNow : ISO.tm) :
  file_name_layout h →
  let image := ISO.build_simple_cdrom h volume_id filename buffer size tmNow in
  let n := Z.min (ISO.strlen filename) 10 in
  let name := ISO.SECONDARY_DIRECTORY_RECORD_OFFSET + 68 + ISO.name_at h in
  (∀ j, 0 <= j < n →
     ISO.read image (name + j)
     = ISO.file_char (nth (Z.to_nat j) (ISO.bytes_of filename) 0)
     ∧ ISO.read image (name + j) ≠ 32
     ∧ ¬ (97 <= ISO.read image (name + j) <= 122))
  ∧ ISO.read image (name + n) = 59
  ∧ ISO.read image (name + n + 1) = 49.
Proof.
  intros (Hn0 & Hn12 & Hrec) image n name.
  assert (Hn : 0 <= n <= 10) by (subst n; unfold ISO.strlen; lia).
  destruct (read_descFile_name h filename (ISO.simple_lDataSize size))
    as (Hchars & Hsemi & Hone). fold n in Hchars, Hsemi, Hone.
  assert (Hread : ∀ j, 0 <= j < 12 →
            ISO.read image (name + j)
            = ISO.read (descFile_stores h filename (ISO.simple_lDataSize size))
                (ISO.name_at h + j)).
  { intros j Hj. subst image. rewrite build_simple_cdrom_stores.
    rewrite read_last_store.
    - unfold ISO.memcpy. cbn [ISO.dst ISO.src].
      replace (name + j - (ISO.SECONDARY_DIRECTORY_RECORD_OFFSET + 68))
        with (ISO.name_at h + j) by (subst name; lia).
      apply nth_render. lia.
    - subst name. unfold ISO.SECONDARY_DIRECTORY_RECORD_OFFSET. store_hits.
    - subst name. unfold ISO.copy_buffer, ISO.SECONDARY_DIRECTORY_RECORD_OFFSET,
        ISO.CONTENTS_OFFSET. each_store; store_misses. }
  split; [|split].
  - intros j Hj. rewrite Hread, Hchars by lia.
    split; [reflexivity|]. apply file_char_upper.
  - replace (name + n) with (name + n) by reflexivity.
    rewrite Hread by lia. exact Hsemi.
  - replace (name + n + 1) with (name + (n + 1)) by lia.
    rewrite Hread by lia. rewrite Z.add_assoc. exact Hone.
Qed.

Lemma image_names_the_file_witness :
  let image :=
    ISO.build_simple_cdrom ecma119_header "uuid" "context.sh and more"
      [65; 66] 2 (ISO.Tm 30 20 10 15 0 113) in
  let n := Z.min (ISO.strlen "context.sh and more") 10 in
  let name :=
    ISO.SECONDARY_DIRECTORY_RECORD_OFFSET + 68 + ISO.name_at ecma119_header in
  (∀ j, 0 <= j < n →
     ISO.read image (name + j)
     = ISO.file_char (nth (Z.to_nat j) (ISO.bytes_of "context.sh and more") 0)
     ∧ ISO.read image (name + j) ≠ 32
     ∧ ¬ (97 <= ISO.read image (name + j) <= 122))
  ∧ ISO.read image (name + n) = 59
  ∧ ISO.read image (name + n + 1) = 49.
Proof.
  apply (image_names_the_file ecma119_header "uuid" "context.sh and more"
           [65; 66] 2 (ISO.Tm 30 20 10 15 0 113)).
  unfold file_name_layout. simpl. lia.
Defined.

Lemma regroup_first {T : Type} (a t r : list T) (w : T) :
  (a ++ w :: t) ++ r = a ++ w :: (t ++ r).
Proof. now rewrite <- app_assoc. Qed.

(** The volume identifier in [descPrimary]. *)
Lemma read_descPrimary_volume_id (h : ISO.iso9660_h) (template : list Z)
    (template_size : Z) (volume_id : string) (tmNow : ISO.tm) (lVolSize j : Z) :
  volume_id_layout h → 0 <= j < 31 →
  ISO.read
    (descPrimary_stores h template template_size volume_id tmNow lVolSize)
    (ISO.volume_id_at h + j)
  = if j <? Z.min (ISO.strlen volume_id) 31
    then nth (Z.to_nat j) (ISO.bytes_of volume_id) 0 else 0x20.
Proof.
  intros (H0 & Hin & Hsec & Hapart) Hj.
  unfold descPrimary_stores, ISO.prepare_primary.
  assert (HlVol : (if ISO.strlen volume_id >? 31 then 31
                   else ISO.strlen volume_id)
                  = Z.min (ISO.strlen volume_id) 31).
  { destruct (ISO.strlen volume_id >? 31) eqn:Hc.
    - apply Z.gtb_lt in Hc. lia.
    - rewrite Z.gtb_ltb in Hc. apply Z.ltb_ge in Hc. lia. }
  cbv zeta. rewrite HlVol. set (lVol := Z.min (ISO.strlen volume_id) 31).
  set (blank := ISO.memset (ISO.volume_id_at h) 0x20 31).
  set (w := ISO.memcpy (ISO.volume_id_at h) (ISO.bytes_of volume_id) lVol).
  set (v := ISO.isosetl_at lVolSize (ISO.volume_space_size_at h)).
  assert (Hv : ISO.covers v (ISO.volume_id_at h + j) = false).
  { subst v. unfold ISO.isosetl_at. destruct Hapart; store_misses. }
  destruct (j <? lVol) eqn:Hc.
  - apply Z.ltb_lt in Hc.
    match goal with
    | |- ISO.read ([?a; ?b; ?c; ?d; ?e; ?f; ?g; ?i; ?k; ?l; blank; w] ++ [v]) _
         = _ =>
        change (ISO.read ([a; b; c; d; e; f; g; i; k; l; blank] ++ w :: [v])
                  (ISO.volume_id_at h + j)
                = nth (Z.to_nat j) (ISO.bytes_of volume_id) 0)
    end.
    rewrite read_last_store.
    + subst w. unfold ISO.memcpy. cbn [ISO.dst ISO.src]. f_equal. lia.
    + subst w. store_hits.
    + each_store. exact Hv.
  - apply Z.ltb_ge in Hc.
    match goal with
    | |- ISO.read ([?a; ?b; ?c; ?d; ?e; ?f; ?g; ?i; ?k; ?l; blank; w] ++ [v]) _
         = _ =>
        change (ISO.read ([a; b; c; d; e; f; g; i; k; l] ++ blank :: [w; v])
                  (ISO.volume_id_at h + j)
                = 32)
    end.
    rewrite read_last_store.
    + subst blank. unfold ISO.memset. cbn [ISO.dst ISO.src].
      apply nth_repeat_lt. lia.
    + subst blank. store_hits.
    + each_store; [|exact Hv]. subst w. store_misses.
Qed.

(** X24.  The volume identifier either builder leaves in the image, in the
    primary descriptor at [0x8000]: the first 31 characters of [volume_id]
    at most, and spaces after them up to the 31 bytes of the field. *)
Theorem image_carries_the_volume_id
    (h : ISO.iso9660_h) (volume_id filename : string)
    (content buffer : list Z) (contentSize size : Z) (tmNow : ISO.tm) :
  volume_id_layout h → fields_start_in_sectors h →
  0 <= contentSize → contentSize + 0x11000 < 2 ^ 31 →
  ∀ j, 0 <= j < 31 →
    let field := ISO.PRIMARY_DESCRIPTOR_OFFSET + ISO.volume_id_at h in
    let expected :=
      if j <? Z.min (ISO.strlen volume_id) 31
      then nth (Z.to_nat j) (ISO.bytes_of volume_id) 0 else 0x20 in
    ISO.read (ISO.build_ami_ci_cdrom h volume_id content contentSize tmNow)
      (field + j) = expected
    ∧ ISO.read (ISO.build_simple_cdrom h volume_id filename buffer size tmNow)
        (field + j) = expected.
Proof.
  intros Hlayout Hfields Hlo Hhi j Hj field expected.
  pose proof Hlayout as (H0 & Hin & Hsec & _).
  destruct Hfields as (Hb & Hc1 & Hc2 & He1 & He2 & Hd1 & Hd2).
  assert (Hprimary : ∀ template template_size lVolSize,
    nth (Z.to_nat (field + j - ISO.PRIMARY_DESCRIPTOR_OFFSET))
      (ISO.render (ISO.sizeof_iso_primary_descriptor h)
         (descPrimary_stores h template template_size volume_id tmNow
            lVolSize)) 0
    = expected).
  { intros template template_size lVolSize.
    replace (field + j - ISO.PRIMARY_DESCRIPTOR_OFFSET)
      with (ISO.volume_id_at h + j) by (subst field; lia).
    rewrite nth_render by lia.
    now apply read_descPrimary_volume_id. }
  split.
  - rewrite build_ami_ci_cdrom_stores, stores_before_D800_primary.
    rewrite regroup_first, read_last_store.
    + unfold ISO.memcpy at 1. cbn [ISO.dst ISO.src]. apply Hprimary.
    + subst field. unfold ISO.PRIMARY_DESCRIPTOR_OFFSET. store_hits.
    + subst field. unfold ISO.PRIMARY_DESCRIPTOR_OFFSET.
      apply Forall_app. split; [unfold ami_tables; each_store; store_misses|].
      apply List.Forall_cons; [store_misses|].
      apply Forall_app. split.
      { unfold ISO.patch_extents.
        destruct (ISO.relocate contentSize) as [[osMeta osUser]|];
          each_store; unfold ISO.isosetl_at; store_misses. }
      apply Forall_app. split.
      { rewrite copy_contents_spec by assumption.
        assert (Hoff : 0xF800 <= (ISO.os_offsets contentSize).1
                       ∧ 0xF800 <= (ISO.os_offsets contentSize).2).
        { rewrite os_offsets_spec by assumption.
          destruct (0xF800 <=? 0xF000 + contentSize) eqn:Hc; cbn [fst snd].
          - apply Z.leb_le in Hc. Z.div_mod_to_equations. lia.
          - lia. }
        destruct Hoff. each_store; store_misses. }
      unfold size_stores. each_store; unfold ISO.isosetl_at; store_misses.
  - rewrite build_simple_cdrom_stores.
    rewrite regroup_first, read_last_store.
    + unfold ISO.memcpy at 1. cbn [ISO.dst ISO.src]. apply Hprimary.
    + subst field. unfold ISO.PRIMARY_DESCRIPTOR_OFFSET. store_hits.
    + subst field.
      unfold ISO.PRIMARY_DESCRIPTOR_OFFSET, simple_tables, ISO.copy_buffer,
        ISO.SECONDARY_DIRECTORY_RECORD_OFFSET, ISO.CONTENTS_OFFSET.
      each_store; store_misses.
Qed.

Lemma image_carries_the_volume_id_witness :
  let field :=
    ISO.PRIMARY_DESCRIPTOR_OFFSET + ISO.volume_id_at ecma119_header in
  let expected :=
    if 5 <? Z.min (ISO.strlen "config-2") 31
    then nth (Z.to_nat 5) (ISO.bytes_of "config-2") 0 else 0x20 in
  ISO.read
    (ISO.build_ami_ci_cdrom ecma119_header "config-2" [65; 66] 2
       (ISO.Tm 30 20 10 15 0 113))
    (field + 5) = expected
  ∧ ISO.read
      (ISO.build_simple_cdrom ecma119_header "config-2" "context.sh" [65; 66]
         2 (ISO.Tm 30 20 10 15 0 113))
      (field + 5) = expected.
Proof.
  apply (image_carries_the_volume_id ecma119_header "config-2" "context.sh"
           [65; 66] [65; 66] 2 2 (ISO.Tm 30 20 10 15 0 113)).
  - unfold volume_id_layout. simpl. lia.
  - unfold fields_start_in_sectors. simpl. lia.
  - lia.
  - lia.
  - lia.
Defined.

(** ** The header callback and [clearAll] *)

Lemma length_app_string (a b : string) :
  String.length (a +:+ b) = (String.length a + String.length b)%nat.
Proof.
  induction a as [|c a IH]; [reflexivity|].
  rewrite app_String. simpl. now rewrite IH.
Qed.

Lemma substring_mid_app (p d e : string) :
  substring (String.length p) (String.length d) (p +:+ d +:+ e) = d.
Proof.
  induction p as [|c p IH].
  - rewrite app_empty_l. apply substring_head_app.
  - rewrite app_String. simpl. exact IH.
Qed.

(** X25.  [__curl_headerfunc] on a line that starts with
    ["Content-Length: "]: of a line with two characters or more after the
    prefix it drops the last two, whatever they are, and parses what is
    between; of a line with one character after the prefix it parses that
    character (the count given to [substr] wraps).  No line changes the
    abort flags or the count of operations. *)
Theorem headerfunc_drops_two_characters
    (self : DP.provider) (line d : string) (a b : ascii) :
  DP.curl_headerfunc
    ("Content-Length: " +:+ d +:+ String a (String b "")) self
  = DP.with_maxStreamSize (Utilities.ston d) self
  ∧ DP.curl_headerfunc ("Content-Length: " +:+ String a "") self
    = DP.with_maxStreamSize (Utilities.ston (String a "")) self
  ∧ DP.curl_headerfunc "Content-Length: " self = self
  ∧ same_control (DP.curl_headerfunc line self) self.
Proof.
  split; [|split; [reflexivity | split; [reflexivity|]]].
  - unfold DP.curl_headerfunc.
    set (P := "Content-Length: ").
    assert (Hlen : String.length (P +:+ d +:+ String a (String b ""))
                   = (18 + String.length d)%nat).
    { rewrite !length_app_string. simpl. lia. }
    rewrite Hlen.
    replace (16 <? 18 + String.length d)%nat with true
      by (symmetry; apply Nat.ltb_lt; lia).
    replace (18 + String.length d <? 18)%nat with false
      by (symmetry; apply Nat.ltb_ge; lia).
    replace (18 + String.length d - 18)%nat with (String.length d) by lia.
    pose proof (substring_head_app P (d +:+ String a (String b ""))) as Hhead.
    pose proof (substring_mid_app P d (String a (String b ""))) as Hmid.
    change (String.length P) with 16%nat in Hhead, Hmid.
    rewrite Hhead, Hmid, String.eqb_refl. reflexivity.
  - unfold DP.curl_headerfunc, same_control.
    now destruct (_ && _).
Qed.

(** X26.  [clearAll()] called on a subgroup empties the map it shares with
    its parent: afterwards the parent enumerates no key and reads its
    default under every name, and so does the subgroup; nothing is
    committed and the node's lock is as it was. *)
Theorem clearAll_reaches_the_parent
    (sep : string) (self : PM.node) (st : PM.store) (name k d : string)
    (strict : bool) :
  let sg := PM.subgroup sep self name in
  let r := PM.clearAll sg st in
  r.1 = sg
  ∧ PM.enumKeys sep self r.2 = []
  ∧ PM.enumKeys sep sg r.2 = []
  ∧ PM.get self k d strict r.2 = d
  ∧ PM.get sg k d strict r.2 = d
  ∧ PM.commits r.2 = PM.commits st.
Proof.
  intros sg r. subst r sg. unfold PM.clearAll. cbn [fst snd].
  split; [reflexivity|].
  assert (Hget : ∀ node : PM.node,
            PM.get node k d strict (PM.with_parameters ∅ st) = d).
  { intros node. unfold PM.get, PM.with_parameters. cbn [PM.parameters].
    destruct strict; now rewrite lookup_empty. }
  assert (Henum : ∀ node : PM.node,
            PM.enumKeys sep node (PM.with_parameters ∅ st) = []).
  { intros node. unfold PM.enumKeys, PM.with_parameters. cbn [PM.parameters].
    now rewrite map_to_list_empty. }
  repeat split; auto.
Qed.

(** ** The volume size in the primary descriptor *)

Lemma table_at_render (n : Z) (log : list ISO.write) (off : Z) :
  0 <= off → off + 8 <= n →
  table_at (ISO.render n log) off = bytes_at log off.
Proof.
  intros Hlo Hhi. unfold table_at, bytes_at.
  apply map_ext_in. intros j Hj.
  assert (Hj8 : 0 <= j < 8) by (simpl in Hj; lia).
  apply nth_render. lia.
Qed.

(** The volume size is the last store to [descPrimary]. *)
Lemma descPrimary_volume_size (h : ISO.iso9660_h) (template : list Z)
    (template_size : Z) (volume_id : string) (tmNow : ISO.tm) (lVolSize : Z) :
  bytes_at
    (descPrimary_stores h template template_size volume_id tmNow lVolSize)
    (ISO.volume_space_size_at h)
  = ISO.isosetl lVolSize.
Proof.
  unfold descPrimary_stores. rewrite bytes_at_last_store.
  - unfold ISO.isosetl_at. cbn [ISO.dst ISO.src].
    rewrite Z.sub_diag. apply table_at_isosetl.
  - simpl. lia.
  - simpl. lia.
  - constructor.
Qed.

(** X19.  The volume size either builder leaves in the image, in the
    primary descriptor at [0x8000], is a number of 2048-byte sectors
    between 1 and 151, written in both byte orders.  In the image of
    [build_ami_ci_cdrom] it is the least number of sectors that hold the
    combined size of the five files, [2 * contentSize + 599], cut down to
    the 309248 bytes of the data region; in the image of
    [build_simple_cdrom] the least number that hold the bytes copied
    ([size] cut down likewise), and one sector when there are none. *)
Theorem volume_size_counts_sectors
    (h : ISO.iso9660_h) (volume_id filename : string)
    (content buffer : list Z) (contentSize size : Z) (tmNow : ISO.tm) :
  volume_size_layout h → fields_start_in_sectors h →
  0 <= contentSize → 2 * contentSize + 0x11000 < 2 ^ 31 → 0 <= size →
  let field := ISO.PRIMARY_DESCRIPTOR_OFFSET + ISO.volume_space_size_at h in
  ∃ ami simple : Z,
    holds_number
      (bytes_at
         (ISO.build_ami_ci_cdrom h volume_id content contentSize tmNow) field)
      ami
    ∧ holds_number
        (bytes_at
           (ISO.build_simple_cdrom h volume_id filename buffer size tmNow)
           field)
        simple
    ∧ 1 <= ami <= 151
    ∧ 1 <= simple <= 151
    ∧ 2048 * (ami - 1) < Z.min (2 * contentSize + 599) 309248 <= 2048 * ami
    ∧ 2048 * (simple - 1) < Z.max 1 (Z.min size 309248) <= 2048 * simple.
Proof.
  intros (Hv0 & Hvin & Hsec) Hfields Hlo Hhi Hsize field.
  destruct Hfields as (Hb & Hc1 & Hc2 & He1 & He2 & Hd1 & Hd2).
  exists (ISO.volume_size (ISO.ami_lDataSize contentSize)),
         (ISO.volume_size (ISO.simple_lDataSize size)).
  pose proof (volume_size_covers (Z.min (2 * contentSize + 599) 309248)
                ltac:(lia)) as Hva.
  rewrite <- ami_lDataSize_min in Hva by assumption.
  assert (Hvs : 1 <= ISO.volume_size (ISO.simple_lDataSize size) <= 151
                ∧ 2048 * (ISO.volume_size (ISO.simple_lDataSize size) - 1)
                  < Z.max 1 (Z.min size 309248)
                  <= 2048 * ISO.volume_size (ISO.simple_lDataSize size)).
  { rewrite simple_lDataSize_min.
    destruct (decide (size = 0)) as [->|Hn].
    - change (ISO.volume_size (Z.min 0 309248)) with 1. lia.
    - pose proof (volume_size_covers (Z.min size 309248) ltac:(lia)). lia. }
  assert (Hami : ISO.ami_lDataSize contentSize
                 = Z.min (2 * contentSize + 599) 309248)
    by now apply ami_lDataSize_min.
  assert (Hprimary : ∀ template template_size lVolSize,
    table_at
      (ISO.render (ISO.sizeof_iso_primary_descriptor h)
         (descPrimary_stores h template template_size volume_id tmNow
            lVolSize))
      (field - ISO.PRIMARY_DESCRIPTOR_OFFSET)
    = ISO.isosetl lVolSize).
  { intros template template_size lVolSize.
    replace (field - ISO.PRIMARY_DESCRIPTOR_OFFSET)
      with (ISO.volume_space_size_at h) by (subst field; lia).
    rewrite table_at_render by lia. apply descPrimary_volume_size. }
  split; [|split; [|split; [|split; [|split]]]]; try lia.
  - rewrite build_ami_ci_cdrom_stores, stores_before_D800_primary.
    rewrite regroup_first, bytes_at_last_store.
    + unfold ISO.memcpy at 1. cbn [ISO.dst ISO.src]. rewrite Hprimary.
      apply isosetl_holds_number. lia.
    + subst field. simpl. lia.
    + subst field. unfold ISO.PRIMARY_DESCRIPTOR_OFFSET. simpl. lia.
    + subst field. unfold ISO.PRIMARY_DESCRIPTOR_OFFSET.
      apply Forall_app. split.
      { unfold ami_tables. each_store; unfold clear_of; simpl; lia. }
      apply List.Forall_cons; [unfold clear_of; simpl; lia|].
      apply Forall_app. split.
      { unfold ISO.patch_extents.
        destruct (ISO.relocate contentSize) as [[osMeta osUser]|];
          each_store; unfold clear_of; simpl; lia. }
      apply Forall_app. split.
      { apply copy_contents_clear; lia. }
      unfold size_stores. each_store; unfold clear_of; simpl; lia.
  - rewrite build_simple_cdrom_stores.
    rewrite regroup_first, bytes_at_last_store.
    + unfold ISO.memcpy at 1. cbn [ISO.dst ISO.src]. rewrite Hprimary.
      apply isosetl_holds_number. lia.
    + subst field. simpl. lia.
    + subst field. unfold ISO.PRIMARY_DESCRIPTOR_OFFSET. simpl. lia.
    + subst field.
      unfold ISO.PRIMARY_DESCRIPTOR_OFFSET, simple_tables, ISO.copy_buffer,
        ISO.SECONDARY_DIRECTORY_RECORD_OFFSET, ISO.CONTENTS_OFFSET.
      each_store; unfold clear_of; simpl; lia.
Qed.

Lemma volume_size_counts_sectors_witness :
  let field :=
    ISO.PRIMARY_DESCRIPTOR_OFFSET + ISO.volume_space_size_at ecma119_header in
  ∃ ami simple : Z,
    holds_number
      (bytes_at
         (ISO.build_ami_ci_cdrom ecma119_header "config-2" (repeat 65 5000)
            5000 (ISO.Tm 30 20 10 15 0 113)) field)
      ami
    ∧ holds_number
        (bytes_at
           (ISO.build_simple_cdrom ecma119_header "config-2" "context.sh"
              (repeat 65 5000) 5000 (ISO.Tm 30 20 10 15 0 113))
           field)
        simple
    ∧ 1 <= ami <= 151
    ∧ 1 <= simple <= 151
    ∧ 2048 * (ami - 1) < Z.min (2 * 5000 + 599) 309248 <= 2048 * ami
    ∧ 2048 * (simple - 1) < Z.max 1 (Z.min 5000 309248) <= 2048 * simple.
Proof.
  apply (volume_size_counts_sectors ecma119_header "config-2" "context.sh"
           (repeat 65 5000) (repeat 65 5000) 5000 5000
           (ISO.Tm 30 20 10 15 0 113)).
  - unfold volume_size_layout. simpl. lia.
  - unfold fields_start_in_sectors. simpl. lia.
  - lia.
  - lia.
  - lia.
Defined.
